(** * wschat: the per-connection read and write pumps of client.go

    A shallow embedding of [client.go] (package main of the chat relay):
    the timing constants, the message normalization performed by
    [readPump], and the two pumps themselves, written as programs of a
    small state monad over an explicit world (the connection, the
    outbound channel [Client.send], the clock) that also records what
    the program does as a list of events.

    What the pumps run against is given as input, so that a property
    proved for every input holds of every execution:
    - for [readPump], the frames that arrive on the connection, with
      their arrival times;
    - for [writePump], what wakes its [select], what the hub does to
      [Client.send] between two channel operations of the pump, and the
      result of every write operation of the transport.

    The Go standard-library functions that [readPump] calls
    ([bytes.Replace], [bytes.TrimSpace] and what they call in
    [unicode/utf8] and [unicode]) are transcribed from the Go
    distribution, loop by loop.  The transport is
    github.com/gorilla/websocket; of it the model has what the pumps
    use: read limit, deadlines, the ping and pong handlers, the limit
    on the payload of a control frame, [ReadMessage], [WriteMessage],
    [NextWriter] and the writer it returns. *)

From Stdlib Require Import ZArith List Bool Lia Arith.
From Stdlib Require Import Strings.Byte.
Import ListNotations.

Open Scope Z_scope.

(** ** Go base types *)

Abbreviation byte := Byte.byte.
Definition rune := Z.

(** The numeric value of a [uint8]. *)
Definition u8 (b : byte) : Z := Z.of_N (Byte.to_N b).
Arguments u8 : simpl never.

(** Conversion to [int32] and to [uint32], with wrap-around. *)
Definition int32 (z : Z) : Z := (z + 2 ^ 31) mod 2 ^ 32 - 2 ^ 31.
Definition uint32 (z : Z) : Z := z mod 2 ^ 32.

(** [s[i]], for an index in range. *)
Definition at_ (s : list byte) (i : nat) : byte := nth i s x00.

(** [s[i:j]]. *)
Definition slice (s : list byte) (i j : nat) : list byte :=
  firstn (j - i) (skipn i s).

(** ** package time *)

Module time.
Definition Duration := Z.
Definition Nanosecond : Duration := 1.
Definition Microsecond : Duration := 1000 * Nanosecond.
Definition Millisecond : Duration := 1000 * Microsecond.
Definition Second : Duration := 1000 * Millisecond.

(** A [time.Time], as nanoseconds on the clock of the process. *)
Definition Time := Z.
Definition Add (t : Time) (d : Duration) : Time := t + d.
End time.

(** ** package unicode/utf8 *)

Module utf8.
Definition RuneError : rune := 0xFFFD.
Definition RuneSelf : Z := 0x80.
Definition UTFMax : nat := 4.

Definition maskx : Z := 0x3F.
Definition mask2 : Z := 0x1F.
Definition mask3 : Z := 0x0F.
Definition mask4 : Z := 0x07.

Definition locb : Z := 0x80.
Definition hicb : Z := 0xBF.

Definition xx : Z := 0xF1.
Definition as_ : Z := 0xF0.
Definition s1 : Z := 0x02.
Definition s2 : Z := 0x13.
Definition s3 : Z := 0x03.
Definition s4 : Z := 0x23.
Definition s5 : Z := 0x34.
Definition s6 : Z := 0x04.
Definition s7 : Z := 0x44.

(** The table [first], by the ranges of its 256 entries. *)
Definition first (b : byte) : Z :=
  let c := u8 b in
  if c <? 0x80 then as_
  else if c <? 0xC2 then xx
  else if c <? 0xE0 then s1
  else if c =? 0xE0 then s2
  else if c <? 0xED then s3
  else if c =? 0xED then s4
  else if c <? 0xF0 then s3
  else if c =? 0xF0 then s5
  else if c <? 0xF4 then s6
  else if c =? 0xF4 then s7
  else xx.

(** The table [acceptRanges]: sixteen entries, five of them set. *)
Definition acceptRanges (i : Z) : Z * Z :=
  match i with
  | 0 => (locb, hicb)
  | 1 => (0xA0, hicb)
  | 2 => (locb, 0x9F)
  | 3 => (0x90, hicb)
  | 4 => (locb, 0x8F)
  | _ => (0, 0)
  end.

Definition DecodeRune (p : list byte) : rune * nat :=
  let n := length p in
  if (n <? 1)%nat then (RuneError, 0%nat)
  else
    let p0 := u8 (at_ p 0) in
    let x := first (at_ p 0) in
    if as_ <=? x then
      let mask := Z.shiftr (int32 (Z.shiftl x 31)) 31 in
      (Z.lor (Z.land p0 (Z.lnot mask)) (Z.land RuneError mask), 1%nat)
    else
      let sz := Z.to_nat (Z.land x 7) in
      let accept := acceptRanges (Z.shiftr x 4) in
      if (n <? sz)%nat then (RuneError, 1%nat)
      else
        let b1 := u8 (at_ p 1) in
        if (b1 <? fst accept) || (snd accept <? b1) then (RuneError, 1%nat)
        else if (sz <=? 2)%nat then
          (Z.lor (Z.shiftl (Z.land p0 mask2) 6) (Z.land b1 maskx), 2%nat)
        else
          let b2 := u8 (at_ p 2) in
          if (b2 <? locb) || (hicb <? b2) then (RuneError, 1%nat)
          else if (sz <=? 3)%nat then
            (Z.lor (Z.lor (Z.shiftl (Z.land p0 mask3) 12)
                          (Z.shiftl (Z.land b1 maskx) 6))
                   (Z.land b2 maskx), 3%nat)
          else
            let b3 := u8 (at_ p 3) in
            if (b3 <? locb) || (hicb <? b3) then (RuneError, 1%nat)
            else
              (Z.lor (Z.lor (Z.lor (Z.shiftl (Z.land p0 mask4) 18)
                                   (Z.shiftl (Z.land b1 maskx) 12))
                            (Z.shiftl (Z.land b2 maskx) 6))
                     (Z.land b3 maskx), 4%nat).

Definition RuneStart (b : byte) : bool :=
  negb (Z.land (u8 b) 0xC0 =? 0x80).

(** The backward scan of [DecodeLastRune]:
    [for start--; start >= lim; start-- { if RuneStart(p[start]) { break } }],
    entered with [start] already decremented; [k] is the number of
    positions left down to [lim].  The result is [start] after the loop,
    as an integer (it is [lim - 1] when no start byte is found). *)
Fixpoint scanStart (p : list byte) (k : nat) (start : Z) : Z :=
  match k with
  | O => start
  | S k' =>
      if RuneStart (at_ p (Z.to_nat start)) then start
      else scanStart p k' (start - 1)
  end.

Definition DecodeLastRune (p : list byte) : rune * nat :=
  let end_ := length p in
  if (end_ =? 0)%nat then (RuneError, 0%nat)
  else
    let start := (end_ - 1)%nat in
    let r := u8 (at_ p start) in
    if r <? RuneSelf then (r, 1%nat)
    else
      let lim := Z.max 0 (Z.of_nat end_ - Z.of_nat UTFMax) in
      let start := scanStart p (Z.to_nat (Z.of_nat start - lim))
                             (Z.of_nat start - 1) in
      let start := Z.to_nat (Z.max 0 start) in
      let (r, size) := DecodeRune (slice p start end_) in
      if negb (start + size =? end_)%nat then (RuneError, 1%nat)
      else (r, size).
End utf8.

(** ** package unicode *)

Module unicode.
Definition MaxLatin1 : Z := 0xFF.

(** The 16-bit ranges of the table [White_Space] after its Latin-1
    prefix ([LatinOffset = 4]), each with stride 1. *)
Definition White_Space_R16 : list (Z * Z) :=
  [ (0x1680, 0x1680); (0x2000, 0x200a); (0x2028, 0x2029);
    (0x202f, 0x202f); (0x205f, 0x205f); (0x3000, 0x3000) ].

Definition is16 (ranges : list (Z * Z)) (r : Z) : bool :=
  existsb (fun lh => (fst lh <=? r) && (r <=? snd lh)) ranges.

Definition IsSpace (r : rune) : bool :=
  if uint32 r <=? MaxLatin1 then
    (r =? 0x09) || (r =? 0x0A) || (r =? 0x0B) || (r =? 0x0C) ||
    (r =? 0x0D) || (r =? 0x20) || (r =? 0x85) || (r =? 0xA0)
  else
    (uint32 r <=? 0x3000) && is16 White_Space_R16 (r mod 2 ^ 16).
End unicode.

(** ** package bytes *)

Module bytes.
Import utf8.

(** The table [asciiSpace]. *)
Definition asciiSpace (c : byte) : bool :=
  match c with
  | x09 | x0a | x0b | x0c | x0d | x20 => true
  | _ => false
  end.

Definition byte_eqb (a b : byte) : bool := Byte.eqb a b.

Fixpoint HasPrefix (s prefix : list byte) : bool :=
  match prefix, s with
  | [], _ => true
  | _ :: _, [] => false
  | a :: prefix', b :: s' => byte_eqb a b && HasPrefix s' prefix'
  end.

(** [Index(s, sep)]: the index of the first instance of [sep] in [s],
    or -1.  (The library searches with several fast paths; this is the
    plain left-to-right search they all implement.) *)
Fixpoint Index (s sep : list byte) : Z :=
  if HasPrefix s sep then 0
  else match s with
       | [] => -1
       | _ :: s' => let i := Index s' sep in if i <? 0 then -1 else i + 1
       end.

(** [utf8.RuneCount]: one rune per decoding step, ill-formed bytes
    counting as runes of width one. *)
Fixpoint RuneCount_loop (fuel : nat) (p : list byte) : Z :=
  match fuel, p with
  | S fuel', _ :: _ =>
      1 + RuneCount_loop fuel' (skipn (snd (DecodeRune p)) p)
  | _, _ => 0
  end.

Definition RuneCount (p : list byte) : Z := RuneCount_loop (length p) p.

(** The loop of [Count]:
    [for { i := Index(s, sep); if i == -1 { return n }; n++; s = s[i+len(sep):] }]. *)
Fixpoint Count_loop (fuel : nat) (s sep : list byte) (n : Z) : Z :=
  match fuel with
  | O => n
  | S fuel' =>
      let i := Index s sep in
      if i =? -1 then n
      else Count_loop fuel' (skipn (Z.to_nat i + length sep) s) sep (n + 1)
  end.

Definition Count (s sep : list byte) : Z :=
  if (length sep =? 0)%nat then RuneCount s + 1
  else Count_loop (S (length s)) s sep 0.

(** The replacement loop of [Replace], [for i := 0; i < n; i++], with
    [k] iterations left; the result is what the loop and the final
    [copy(t[w:], s[start:])] append to the buffer [t], whose size
    [len(s)+n*(len(new)-len(old))] is exactly what is written. *)
Fixpoint Replace_loop (k : nat) (i : Z) (s : list byte) (start : nat)
         (old new : list byte) : list byte :=
  match k with
  | O => skipn start s
  | S k' =>
      let j :=
        if (length old =? 0)%nat then
          if 0 <? i then (start + snd (DecodeRune (skipn start s)))%nat
          else start
        else Z.to_nat (Z.of_nat start + Index (skipn start s) old) in
      slice s start j ++ new ++
      Replace_loop k' (i + 1) s (j + length old) old new
  end.

Definition Replace (s old new : list byte) (n : Z) : list byte :=
  let m := if n =? 0 then 0 else Count s old in
  if m =? 0 then s
  else
    let n := if (n <? 0) || (m <? n) then m else n in
    Replace_loop (Z.to_nat n) 0 s 0 old new.

(** [indexFunc]: [for start < len(s) { ... start += wid }]; every
    iteration advances by at least one byte, so [len(s)] iterations
    are all the loop can make. *)
Fixpoint indexFunc_loop (fuel : nat) (s : list byte) (f : rune -> bool)
         (truth : bool) (start : nat) : Z :=
  match fuel with
  | O => -1
  | S fuel' =>
      if (start <? length s)%nat then
        let (r, wid) :=
          if RuneSelf <=? u8 (at_ s start) then DecodeRune (skipn start s)
          else (u8 (at_ s start), 1%nat) in
        if Bool.eqb (f r) truth then Z.of_nat start
        else indexFunc_loop fuel' s f truth (start + wid)
      else -1
  end.

Definition indexFunc (s : list byte) (f : rune -> bool) (truth : bool) : Z :=
  indexFunc_loop (length s) s f truth 0.

(** [lastIndexFunc]: [for i := len(s); i > 0; { ... i -= size ... }]. *)
Fixpoint lastIndexFunc_loop (fuel : nat) (s : list byte) (f : rune -> bool)
         (truth : bool) (i : nat) : Z :=
  match fuel with
  | O => -1
  | S fuel' =>
      if (0 <? i)%nat then
        let (r, size) :=
          if RuneSelf <=? u8 (at_ s (i - 1)) then DecodeLastRune (slice s 0 i)
          else (u8 (at_ s (i - 1)), 1%nat) in
        let i := (i - size)%nat in
        if Bool.eqb (f r) truth then Z.of_nat i
        else lastIndexFunc_loop fuel' s f truth i
      else -1
  end.

Definition lastIndexFunc (s : list byte) (f : rune -> bool) (truth : bool)
  : Z :=
  lastIndexFunc_loop (length s) s f truth (length s).

Definition TrimLeftFunc (s : list byte) (f : rune -> bool) : list byte :=
  let i := indexFunc s f false in
  if i =? -1 then [] else skipn (Z.to_nat i) s.

Definition TrimRightFunc (s : list byte) (f : rune -> bool) : list byte :=
  let i := lastIndexFunc s f false in
  let i :=
    if (0 <=? i) && (RuneSelf <=? u8 (at_ s (Z.to_nat i))) then
      i + Z.of_nat (snd (DecodeRune (skipn (Z.to_nat i) s)))
    else i + 1 in
  slice s 0 (Z.to_nat i).

Definition TrimFunc (s : list byte) (f : rune -> bool) : list byte :=
  TrimRightFunc (TrimLeftFunc s f) f.

(** First loop of [TrimSpace]: [for ; start < len(s); start++], with [k]
    positions left.  [inl] is the early [return TrimFunc(s[start:], ...)],
    [inr] the value of [start] at the [break] or at the end. *)
Fixpoint TrimSpace_start (s : list byte) (k : nat) (start : nat)
  : list byte + nat :=
  match k with
  | O => inr start
  | S k' =>
      let c := at_ s start in
      if RuneSelf <=? u8 c then
        inl (TrimFunc (slice s start (length s)) unicode.IsSpace)
      else if negb (asciiSpace c) then inr start
      else TrimSpace_start s k' (S start)
  end.

(** Second loop: [for ; stop > start; stop--]. *)
Fixpoint TrimSpace_stop (s : list byte) (start : nat) (stop : nat)
  : list byte + nat :=
  match stop with
  | O => inr O
  | S stop' =>
      if (start <? stop)%nat then
        let c := at_ s stop' in
        if RuneSelf <=? u8 c then
          inl (TrimFunc (slice s start stop) unicode.IsSpace)
        else if negb (asciiSpace c) then inr stop
        else TrimSpace_stop s start stop'
      else inr stop
  end.

(** [TrimSpace]; the nil slice it returns for an all-space input is the
    empty byte sequence. *)
Definition TrimSpace (s : list byte) : list byte :=
  match TrimSpace_start s (length s) 0 with
  | inl t => t
  | inr start =>
      match TrimSpace_stop s start (length s) with
      | inl t => t
      | inr stop =>
          if (start =? stop)%nat then [] else slice s start stop
      end
  end.
End bytes.

(** ** client.go: constants and package variables *)

(** [writeWait = 10 * time.Second] *)
Definition writeWait : time.Duration := 10 * time.Second.

(** [pongWait = 60 * time.Second] *)
Definition pongWait : time.Duration := 60 * time.Second.

(** [pingPeriod = (pongWait * 9) / 10]; Go's integer division truncates. *)
Definition pingPeriod : time.Duration := Z.quot (pongWait * 9) 10.

(** [maxMessageSize = 512] *)
Definition maxMessageSize : Z := 512.

(** [newline = []byte{'\n'}], [space = []byte{' '}] *)
Definition newline : list byte := [x0a].
Definition space : list byte := [x20].

(** [upgrader = websocket.Upgrader{ReadBufferSize: 1024, WriteBufferSize: 1024}]
    (lines 35-38): the sizes, in bytes, of the buffers of a connection.  A
    message writer writes to the network when its buffer is full, and
    when it is closed. *)
Definition ReadBufferSize : Z := 1024.

(** The capacity of [Client.send]: [make(chan []byte, 256)] in [serveWs]. *)
Definition sendCap : nat := 256.
Arguments sendCap : simpl never.

(** Line 74 of [readPump]:
    [bytes.TrimSpace(bytes.Replace(message, newline, space, -1))]. *)
Definition normalize (message : list byte) : list byte :=
  bytes.TrimSpace (bytes.Replace message newline space (-1)).

(** ** The transport (github.com/gorilla/websocket) and the hub, as seen
       from the pumps *)

Module websocket.
(** Message types. *)
Definition TextMessage : Z := 1.
Definition BinaryMessage : Z := 2.
Definition CloseMessage : Z := 8.
Definition PingMessage : Z := 9.
Definition PongMessage : Z := 10.

(** Close codes. *)
Definition CloseNormalClosure : Z := 1000.
Definition CloseGoingAway : Z := 1001.
Definition CloseAbnormalClosure : Z := 1006.

(** The longest payload of a control frame (close, ping, pong). *)
Definition maxControlFramePayloadSize : Z := 125.
End websocket.

(** The errors a connection operation can return. *)
Inductive error : Type :=
| CloseError (code : Z)      (* [*websocket.CloseError] *)
| ErrReadLimit               (* [websocket.ErrReadLimit] *)
| ErrTimeout                 (* a deadline has passed *)
| ErrOther (id : nat).       (* any other error of the network *)

(** The error of a read that meets a control frame longer than the
    protocol allows:
    [errors.New("websocket: control frame length > 125")]. *)
Definition errControlFrameLength : error := ErrOther 125.

(** [websocket.IsUnexpectedCloseError(err, expectedCodes...)] *)
Definition IsUnexpectedCloseError (err : error) (expectedCodes : list Z)
  : bool :=
  match err with
  | CloseError code => negb (existsb (Z.eqb code) expectedCodes)
  | _ => false
  end.

(** The pong handlers a connection can hold: the library's default one
    and the closure that [readPump] installs (lines 62-65). *)
Inductive PongHandler : Type :=
| defaultPongHandler
| readPump_func1.

(** What the peer (or the network) delivers to a blocked [ReadMessage]:
    control frames, which the call handles itself and keeps reading, and
    then the frame or failure that ends the call. *)
Inductive ControlFrame : Type :=
| Ping (appData : list byte)
| Pong (appData : list byte).

Inductive FinalFrame : Type :=
| Data (messageType : Z) (payload : list byte)
| Close (code : Z)
| Fail (err : error).

(** One call of [ReadMessage]: the frames that arrive while it is blocked,
    each with its arrival time; [fin = None] when nothing more arrives. *)
Record Arrival : Type := mkArrival {
  ctrl : list (time.Time * ControlFrame);
  fin : option (time.Time * FinalFrame)
}.

(** The buffered channel [Client.send]. *)
Record Chan : Type := mkChan {
  buf : list (list byte);
  closed : bool
}.

(** What the hub, the only producer, does to [Client.send]. *)
Inductive HubAction : Type :=
| HubSend (message : list byte)
| HubClose.

(** What wakes the [select] of [writePump]. *)
Inductive Wake : Type :=
| WakeSend (t : time.Time)    (* [case message, ok := <-c.send] *)
| WakeTick (t : time.Time).   (* [case <-ticker.C] *)

Inductive event : Type :=
| EvSetReadLimit (limit : Z)
| EvSetReadDeadline (t : time.Time)
| EvSetPongHandler (h : PongHandler)
| EvPong (t : time.Time) (appData : list byte)   (* a pong frame is read at [t] *)
| EvPongHandler (appData : list byte) (ret : option error)
| EvPingHandler (appData : list byte)
| EvReadMessage (message : list byte) (err : option error)
| EvLog (err : error)
| EvBroadcast (message : list byte)          (* [c.hub.broadcast <- message] *)
| EvUnregister                               (* [c.hub.unregister <- c] *)
| EvConnClose
| EvNewTicker (d : time.Duration)
| EvTickerStop
| EvSetWriteDeadline (t : time.Time)
| EvWriteMessage (messageType : Z) (data : list byte) (err : option error)
| EvNextWriter (messageType : Z) (err : option error)
| EvWrite (p : list byte) (err : option error)
| EvWriterClose (err : option error)
| EvLen (n : nat)                            (* [len(c.send)] *)
| EvRecv (message : list byte) (ok : bool)   (* [<-c.send] *)
| EvHubSend (message : list byte)            (* the hub's [client.send <- message] *)
| EvHubClose.                                (* the hub's [close(client.send)] *)

(** The state around one client.  [hubTape] and [netTape] are what the
    environment will do: the hub's actions on [send] between two
    consecutive channel operations of the write pump, and the results of
    the transport's write operations, in order. *)
Record World : Type := mkWorld {
  now : time.Time;
  readLimit : Z;
  readDeadline : option time.Time;
  writeDeadline : option time.Time;
  pongHandler : PongHandler;
  send : Chan;
  hubTape : list (list HubAction);
  netTape : list (option error)
}.

Definition set_now (t : time.Time) (w : World) : World :=
  mkWorld t (readLimit w) (readDeadline w) (writeDeadline w) (pongHandler w)
          (send w) (hubTape w) (netTape w).
Definition set_readLimit (n : Z) (w : World) : World :=
  mkWorld (now w) n (readDeadline w) (writeDeadline w) (pongHandler w)
          (send w) (hubTape w) (netTape w).
Definition set_readDeadline (d : option time.Time) (w : World) : World :=
  mkWorld (now w) (readLimit w) d (writeDeadline w) (pongHandler w)
          (send w) (hubTape w) (netTape w).
Definition set_writeDeadline (d : option time.Time) (w : World) : World :=
  mkWorld (now w) (readLimit w) (readDeadline w) d (pongHandler w)
          (send w) (hubTape w) (netTape w).
Definition set_pongHandler (h : PongHandler) (w : World) : World :=
  mkWorld (now w) (readLimit w) (readDeadline w) (writeDeadline w) h
          (send w) (hubTape w) (netTape w).
Definition set_send (c : Chan) (w : World) : World :=
  mkWorld (now w) (readLimit w) (readDeadline w) (writeDeadline w)
          (pongHandler w) c (hubTape w) (netTape w).
Definition set_hubTape (t : list (list HubAction)) (w : World) : World :=
  mkWorld (now w) (readLimit w) (readDeadline w) (writeDeadline w)
          (pongHandler w) (send w) t (netTape w).
Definition set_netTape (t : list (option error)) (w : World) : World :=
  mkWorld (now w) (readLimit w) (readDeadline w) (writeDeadline w)
          (pongHandler w) (send w) (hubTape w) t.

(** ** The monad of the pumps: state, event output, and blocking *)

Inductive Res (A : Type) : Type :=
| Done (a : A)     (* the program has returned [a] *)
| Blocked.         (* the goroutine waits for something that never comes *)
Arguments Done {A} a.
Arguments Blocked {A}.

Definition M (A : Type) : Type := World -> Res A * World * list event.

Definition ret {A} (a : A) : M A := fun w => (Done a, w, []).

Definition bind {A B} (m : M A) (k : A -> M B) : M B :=
  fun w =>
    match m w with
    | (Done a, w1, e1) =>
        match k a w1 with
        | (r, w2, e2) => (r, w2, e1 ++ e2)
        end
    | (Blocked, w1, e1) => (Blocked, w1, e1)
    end.

Definition block {A} : M A := fun w => (Blocked, w, []).
Definition emit (e : event) : M unit := fun w => (Done tt, w, [e]).
Definition get : M World := fun w => (Done w, w, []).
Definition modify (f : World -> World) : M unit := fun w => (Done tt, f w, []).

Declare Scope pump_scope.
Delimit Scope pump_scope with pump.
Notation "x <- m ;; k" := (bind m (fun x => k))
  (at level 61, m at next level, right associativity) : pump_scope.
Notation "m ;; k" := (bind m (fun _ => k))
  (at level 61, right associativity) : pump_scope.
Open Scope pump_scope.

(** [defer]: the deferred function runs when the body returns; a body
    that never returns never reaches it. *)
Definition defer {A} (cleanup : M unit) (body : M A) : M A :=
  a <- body ;; cleanup ;; ret a.

(** Projections of a run. *)
Definition result {A} (x : Res A * World * list event) : Res A := fst (fst x).
Definition world {A} (x : Res A * World * list event) : World := snd (fst x).
Definition events {A} (x : Res A * World * list event) : list event := snd x.

(** *** The clock *)

Definition time_Now : M time.Time := w <- get ;; ret (now w).

(** Time passes while a goroutine is blocked: the clock moves to [t]. *)
Definition elapse (t : time.Time) : M unit :=
  modify (fun w => set_now (Z.max (now w) t) w).

(** *** The connection *)

Definition SetReadLimit (limit : Z) : M unit :=
  modify (set_readLimit limit) ;; emit (EvSetReadLimit limit).

Definition SetReadDeadline (t : time.Time) : M unit :=
  modify (set_readDeadline (Some t)) ;; emit (EvSetReadDeadline t).

Definition SetWriteDeadline (t : time.Time) : M unit :=
  modify (set_writeDeadline (Some t)) ;; emit (EvSetWriteDeadline t).

Definition SetPongHandler (h : PongHandler) : M unit :=
  modify (set_pongHandler h) ;; emit (EvSetPongHandler h).

Definition conn_Close : M unit := emit EvConnClose.

(** The result of the next write operation of the transport; a tape that
    has run out means the operations succeed from then on. *)
Definition net_result : M (option error) :=
  fun w => (Done (hd None (netTape w)), set_netTape (tl (netTape w)) w, []).

Definition WriteMessage (messageType : Z) (data : list byte)
  : M (option error) :=
  err <- net_result ;; emit (EvWriteMessage messageType data err) ;; ret err.

Definition NextWriter (messageType : Z) : M (option error) :=
  err <- net_result ;; emit (EvNextWriter messageType err) ;; ret err.

Definition w_Write (p : list byte) : M (option error) :=
  err <- net_result ;; emit (EvWrite p err) ;; ret err.

Definition w_Close : M (option error) :=
  err <- net_result ;; emit (EvWriterClose err) ;; ret err.

(** *** The hub *)

(** Modelled from the spec: the type [Hub] and its loop (hub.go) are not
    among the sources.  The coordinator serves its broadcast intake in
    arrival order, so [c.hub.broadcast <- message] hands the message
    over. *)
Definition hub_broadcast (message : list byte) : M unit :=
  emit (EvBroadcast message).

(** Modelled from the spec: as [hub_broadcast], for the unregister
    intake and [c.hub.unregister <- c]. *)
Definition hub_unregister : M unit := emit EvUnregister.

Definition log_Printf (err : error) : M unit := emit (EvLog err).

(** Modelled from the spec: what the coordinator (hub.go, not among the
    sources) does to a peer's outbound queue.  It is the only producer;
    it appends a message where the queue is not full and otherwise does
    not wait; it closes the queue once, and after that leaves it alone.
    So a send on a full or closed queue, and a second close, do not
    happen. *)
Definition hub_step (a : HubAction) : M unit :=
  w <- get ;;
  let c := send w in
  match a with
  | HubSend message =>
      if closed c || (sendCap <=? length (buf c))%nat then ret tt
      else modify (set_send (mkChan (buf c ++ [message]) false)) ;;
           emit (EvHubSend message)
  | HubClose =>
      if closed c then ret tt
      else modify (set_send (mkChan (buf c) true)) ;; emit EvHubClose
  end.

Fixpoint hub_steps (l : list HubAction) : M unit :=
  match l with
  | [] => ret tt
  | a :: l' => hub_step a ;; hub_steps l'
  end.

(** What the hub has done since the pump last looked at the channel. *)
Definition hub_sync : M unit :=
  w <- get ;;
  modify (set_hubTape (tl (hubTape w))) ;;
  hub_steps (hd [] (hubTape w)).

(** *** The channel [c.send], from the consumer's side *)

(** [len(c.send)] *)
Definition len_send : M nat :=
  hub_sync ;;
  w <- get ;;
  let n := length (buf (send w)) in
  emit (EvLen n) ;; ret n.

(** [message, ok := <-c.send]: the oldest buffered message; the zero
    value and [false] from a closed and drained channel; otherwise the
    receive waits. *)
Definition recv_send : M (list byte * bool) :=
  hub_sync ;;
  w <- get ;;
  match buf (send w) with
  | message :: rest =>
      modify (set_send (mkChan rest (closed (send w)))) ;;
      emit (EvRecv message true) ;; ret (message, true)
  | [] =>
      if closed (send w) then emit (EvRecv [] false) ;; ret ([], false)
      else block
  end.

(** *** Reading from the connection *)

(** A blocked read waits for the next frame, due at [t] ([None]: no frame
    will come).  It fails once the read deadline has passed. *)
Definition await (t : option time.Time) : M (option error) :=
  w <- get ;;
  match readDeadline w, t with
  | Some d, Some t =>
      if d <? t then elapse d ;; ret (Some ErrTimeout)
      else elapse t ;; ret None
  | Some d, None => elapse d ;; ret (Some ErrTimeout)
  | None, Some t => elapse t ;; ret None
  | None, None => block
  end.

(** The closure of lines 62-65:
    [func(string) error { c.conn.SetReadDeadline(time.Now().Add(pongWait)); return nil }]. *)
Definition readPump_func1_body (appData : list byte) : M (option error) :=
  t <- time_Now ;;
  SetReadDeadline (time.Add t pongWait) ;;
  ret None.

Definition handlePong (appData : list byte) : M (option error) :=
  w <- get ;;
  emit (EvPong (now w) appData) ;;
  err <- match pongHandler w with
         | defaultPongHandler => ret None
         | readPump_func1 => readPump_func1_body appData
         end ;;
  emit (EvPongHandler appData err) ;;
  ret err.

(** The default ping handler, which [readPump] leaves in place: it
    answers with a pong, written with [WriteControl], and returns the
    error of that write unless it is one that the handler passes over
    (such as [ErrCloseSent]).  The next entry of the tape of the
    transport's writes is what the handler returns. *)
Definition handlePing (appData : list byte) : M (option error) :=
  err <- net_result ;;
  emit (EvPingHandler appData) ;;
  ret err.

(** The payload of a control frame. *)
Definition control_payload (f : ControlFrame) : list byte :=
  match f with
  | Ping appData | Pong appData => appData
  end.

(** The control frames a [ReadMessage] call meets before its data frame.
    A control frame with a payload longer than
    [maxControlFramePayloadSize] is a protocol error: the read returns
    [errControlFrameLength] and no handler is called.  An error that a
    handler returns ends the read as well. *)
Fixpoint ReadMessage_control (cs : list (time.Time * ControlFrame))
  : M (option error) :=
  match cs with
  | [] => ret None
  | (t, f) :: cs' =>
      late <- await (Some t) ;;
      match late with
      | Some err => ret (Some err)
      | None =>
          if websocket.maxControlFramePayloadSize <?
             Z.of_nat (length (control_payload f))
          then ret (Some errControlFrameLength)
          else
            err <- match f with
                   | Ping appData => handlePing appData
                   | Pong appData => handlePong appData
                   end ;;
            match err with
            | Some err => ret (Some err)
            | None => ReadMessage_control cs'
            end
      end
  end.

(** [c.conn.ReadMessage()], without the message type that [readPump]
    discards: the payload, or the error that ends the connection's
    reading side.  A message longer than the read limit is an error.
    The close frame with which the transport answers a close frame, a
    message over the limit or a protocol error is not among the
    events. *)
Definition ReadMessage (a : Arrival) : M (list byte * option error) :=
  r <- (err <- ReadMessage_control (ctrl a) ;;
        match err with
        | Some err => ret ([], Some err)
        | None =>
            late <- await (option_map fst (fin a)) ;;
            match late, fin a with
            | Some err, _ => ret ([], Some err)
            | None, Some (_, Data _ payload) =>
                w <- get ;;
                if (0 <? readLimit w) &&
                   (readLimit w <? Z.of_nat (length payload))
                then ret ([], Some ErrReadLimit)
                else ret (payload, None)
            | None, Some (_, Close code) => ret ([], Some (CloseError code))
            | None, Some (_, Fail err) => ret ([], Some err)
            | None, None => block
            end
        end) ;;
  emit (EvReadMessage (fst r) (snd r)) ;;
  ret r.

(** ** client.go: readPump *)

(** The body of the [for] loop, lines 67-75, after [ReadMessage] has
    returned; [continue] is the next iteration. *)
Definition readPump_body (r : list byte * option error) (continue : M unit)
  : M unit :=
  let (message, err) := r in
  match err with
  | Some err =>
      (if IsUnexpectedCloseError err
            [websocket.CloseGoingAway; websocket.CloseAbnormalClosure]
       then log_Printf err else ret tt) ;;
      ret tt
  | None =>
      let message := normalize message in
      hub_broadcast message ;;
      continue
  end.

(** The loop, over what arrives on the connection, one [Arrival] for each
    call of [ReadMessage]; when the tape is used up nothing more arrives. *)
Fixpoint readPump_loop (tape : list Arrival) : M unit :=
  match tape with
  | [] =>
      r <- ReadMessage (mkArrival [] None) ;;
      readPump_body r block
  | a :: tape' =>
      r <- ReadMessage a ;;
      readPump_body r (readPump_loop tape')
  end.

Definition readPump (tape : list Arrival) : M unit :=
  defer (hub_unregister ;; conn_Close)
    (SetReadLimit maxMessageSize ;;
     t <- time_Now ;;
     SetReadDeadline (time.Add t pongWait) ;;
     SetPongHandler readPump_func1 ;;
     readPump_loop tape).

(** ** client.go: writePump *)

(** How an iteration of the [for] loop ends. *)
Inductive Ctl : Type :=
| Continue
| Return.

(** Lines 107-111: [n := len(c.send)] and the loop
    [for i := 0; i < n; i++ { w.Write(newline); w.Write(<-c.send) }]. *)
Fixpoint writePump_drain (n : nat) : M unit :=
  match n with
  | O => ret tt
  | S n' =>
      _ <- w_Write newline ;;
      m <- recv_send ;;
      _ <- w_Write (fst m) ;;
      writePump_drain n'
  end.

Definition writePump_coalesce : M unit :=
  n <- len_send ;;
  writePump_drain n.

(** Lines 93-115: the branch [case message, ok := <-c.send]. *)
Definition writePump_message (message : list byte) (ok : bool) : M Ctl :=
  t <- time_Now ;;
  SetWriteDeadline (time.Add t writeWait) ;;
  if negb ok then
    _ <- WriteMessage websocket.CloseMessage [] ;;
    ret Return
  else
    err <- NextWriter websocket.TextMessage ;;
    match err with
    | Some _ => ret Return
    | None =>
        _ <- w_Write message ;;
        writePump_coalesce ;;
        err <- w_Close ;;
        match err with
        | Some _ => ret Return
        | None => ret Continue
        end
    end.

(** Lines 117-120: the branch [case <-ticker.C]. *)
Definition writePump_tick : M Ctl :=
  t <- time_Now ;;
  SetWriteDeadline (time.Add t writeWait) ;;
  err <- WriteMessage websocket.PingMessage [] ;;
  match err with
  | Some _ => ret Return
  | None => ret Continue
  end.

(** The [for { select { ... } }] loop, over what wakes the [select]; when
    the tape is used up the pump waits in [select]. *)
Fixpoint writePump_loop (wakes : list Wake) : M unit :=
  match wakes with
  | [] => block
  | WakeSend t :: wakes' =>
      elapse t ;;
      m <- recv_send ;;
      c <- writePump_message (fst m) (snd m) ;;
      match c with
      | Return => ret tt
      | Continue => writePump_loop wakes'
      end
  | WakeTick t :: wakes' =>
      elapse t ;;
      c <- writePump_tick ;;
      match c with
      | Return => ret tt
      | Continue => writePump_loop wakes'
      end
  end.

Definition ticker_Stop : M unit := emit EvTickerStop.

Definition writePump (wakes : list Wake) : M unit :=
  emit (EvNewTicker pingPeriod) ;;
  defer (ticker_Stop ;; conn_Close) (writePump_loop wakes).

(** ** Reading a trace *)

(** The receives from [c.send], the payloads written to the message
    writer, and the messages the hub has put on [c.send]. *)
Definition recvs (evs : list event) : list (list byte * bool) :=
  flat_map (fun e => match e with EvRecv m ok => [(m, ok)] | _ => [] end) evs.

Definition writes (evs : list event) : list (list byte) :=
  flat_map (fun e => match e with EvWrite p _ => [p] | _ => [] end) evs.

Definition hub_sends (evs : list event) : list (list byte) :=
  flat_map (fun e => match e with EvHubSend m => [m] | _ => [] end) evs.

(** [T] holds of what follows every event that satisfies [p]. *)
Fixpoint after_each (p : event -> bool) (T : list event -> Prop)
         (evs : list event) : Prop :=
  match evs with
  | [] => True
  | e :: post => (p e = true -> T post) /\ after_each p T post
  end.

(** No event of [evs] satisfies [p]. *)
Definition none (p : event -> bool) (evs : list event) : bool :=
  forallb (fun e => negb (p e)) evs.

(** Events of the hub. *)
Definition hub_event (e : event) : bool :=
  match e with
  | EvHubSend _ | EvHubClose => true
  | _ => false
  end.

(** Events of lines 104-111: writes to the open writer, receives that
    deliver a message, [len], and what the hub does meanwhile. *)
Definition drain_event (e : event) : bool :=
  match e with
  | EvWrite _ _ | EvRecv _ true | EvLen _ | EvHubSend _ | EvHubClose => true
  | _ => false
  end.

(** A receive that finds [c.send] closed and empty. *)
Definition closed_recv (e : event) : bool :=
  match e with
  | EvRecv _ false => true
  | _ => false
  end.

(** An error that [writePump] looks at: of [NextWriter], of the writer's
    [Close], of [WriteMessage]. *)
Definition checked_failure (e : event) : bool :=
  match e with
  | EvNextWriter _ (Some _) | EvWriterClose (Some _)
  | EvWriteMessage _ _ (Some _) => true
  | _ => false
  end.




(** What holds of the events of the loop of [writePump] and of its
    result [r]: a looked-at failure is the last event and the loop has
    returned; a receive from the closed and empty queue is followed by
    the close message and nothing else, and the loop has returned. *)
Definition loop_ok (r : Res unit) (evs : list event) : Prop :=
  after_each checked_failure (fun post => post = [] /\ r = Done tt) evs /\
  after_each closed_recv
    (fun post => r = Done tt /\
       exists t e, post = [EvSetWriteDeadline t;
                           EvWriteMessage websocket.CloseMessage [] e]) evs.

(** The deferred calls of [readPump]. *)
Definition cleanup_event (e : event) : bool :=
  match e with
  | EvUnregister | EvConnClose => true
  | _ => false
  end.

(** What a [ReadMessage] call does before it returns. *)
Definition control_event (e : event) : bool :=
  match e with
  | EvSetReadDeadline _ | EvPong _ _ | EvPongHandler _ _ | EvPingHandler _ =>
      true
  | _ => false
  end.

(** The messages handed to the hub's broadcast channel, and the payloads
    of the reads that succeeded. *)
Definition broadcasts (evs : list event) : list (list byte) :=
  flat_map (fun e => match e with EvBroadcast m => [m] | _ => [] end) evs.

Definition reads_ok (evs : list event) : list (list byte) :=
  flat_map (fun e => match e with EvReadMessage m None => [m] | _ => [] end)
           evs.

(** Every pong, read at [t], is followed at once by the read deadline
    being set to [t + pongWait] and by the handler returning nil. *)
Fixpoint pongs_extend_deadline (evs : list event) : Prop :=
  match evs with
  | [] => True
  | EvPong t appData :: post =>
      (exists rest,
         post = EvSetReadDeadline (time.Add t pongWait) ::
                EvPongHandler appData None :: rest) /\
      pongs_extend_deadline post
  | _ :: post => pongs_extend_deadline post
  end.

(** The world has a read deadline. *)
Definition has_deadline (w : World) : Prop :=
  exists d, readDeadline w = Some d.

(** What [readPump] logs for the error that ends its loop. *)
Definition logged (err : error) : list event :=
  if IsUnexpectedCloseError err
       [websocket.CloseGoingAway; websocket.CloseAbnormalClosure]
  then [EvLog err] else [].

(** Messages joined by a separator, as one byte sequence. *)
Fixpoint join (sep : list byte) (l : list (list byte)) : list byte :=
  match l with
  | [] => []
  | [a] => a
  | a :: l' => a ++ sep ++ join sep l'
  end.

(** ** White space, as the specification has it *)

(** The UTF-8 encodings of the characters with the Unicode property
    White_Space: U+0009 to U+000D, U+0020, U+0085, U+00A0, U+1680,
    U+2000 to U+200A, U+2028, U+2029, U+202F, U+205F and U+3000. *)
Definition white_space : list (list byte) :=
  [ [x09]; [x0a]; [x0b]; [x0c]; [x0d]; [x20];
    [xc2; x85]; [xc2; xa0];
    [xe1; x9a; x80];
    [xe2; x80; x80]; [xe2; x80; x81]; [xe2; x80; x82]; [xe2; x80; x83];
    [xe2; x80; x84]; [xe2; x80; x85]; [xe2; x80; x86]; [xe2; x80; x87];
    [xe2; x80; x88]; [xe2; x80; x89]; [xe2; x80; x8a];
    [xe2; x80; xa8]; [xe2; x80; xa9]; [xe2; x80; xaf];
    [xe2; x81; x9f];
    [xe3; x80; x80] ].

(** [e] is a prefix of [s]. *)
Fixpoint starts_with (e s : list byte) : bool :=
  match e, s with
  | [], _ => true
  | _ :: _, [] => false
  | a :: e', b :: s' => Byte.eqb a b && starts_with e' s'
  end.

(** [s] begins, ends, with a white-space character. *)
Definition has_space_prefix (s : list byte) : bool :=
  existsb (fun e => starts_with e s) white_space.

Definition has_space_suffix (s : list byte) : bool :=
  existsb (fun e => starts_with (rev e) (rev s)) white_space.

(** [s] is white-space characters and nothing else. *)
Inductive spaces : list byte -> Prop :=
| spaces_nil : spaces []
| spaces_cons e rest : In e white_space -> spaces rest -> spaces (e ++ rest).

(** A line break becomes a space; any other byte stays. *)
Definition newline_to_space (b : byte) : byte :=
  if Byte.eqb b x0a then x20 else b.

(** The bytes of [s] other than the first and the last. *)
Definition interior (s : list byte) : list byte := removelast (tl s).

(** No line break inside [s]. *)
Definition no_interior_newline (s : list byte) : bool :=
  forallb (fun b => negb (Byte.eqb b x0a)) (interior s).

(** A message is normalized when it has no line break inside and no
    white space around it. *)
Definition normalized (s : list byte) : Prop :=
  no_interior_newline s = true /\
  has_space_prefix s = false /\ has_space_suffix s = false.

(** [t] is [s] without the white space around it. *)
Definition trimmed (s t : list byte) : Prop :=
  exists pre suf,
    s = pre ++ t ++ suf /\ spaces pre /\ spaces suf /\
    has_space_prefix t = false /\ has_space_suffix t = false.

(** The 256 bytes. *)
Definition all_bytes : list byte :=
  flat_map (fun n => match Byte.of_nat n with Some b => [b] | None => [] end)
           (seq 0 256).

(** The scenario of the specification: the bytes of ["  hello\nworld  \n"]
    and of ["hello world"]. *)
Definition hello_raw : list byte :=
  [x20; x20; x68; x65; x6c; x6c; x6f; x0a; x77; x6f; x72; x6c; x64;
   x20; x20; x0a].

Definition hello_normalized : list byte :=
  [x68; x65; x6c; x6c; x6f; x20; x77; x6f; x72; x6c; x64].

(** ** The decoder, case by case *)

(** The test of [DecodeRune] on a byte after the first:
    [b < accept.lo || accept.hi < b]. *)
Definition bad (accept : Z * Z) (b : byte) : bool :=
  (u8 b <? fst accept) || (snd accept <? u8 b).

(** The runes that [DecodeRune] assembles from two, three and four bytes. *)
Definition rune2 (p0 b1 : byte) : rune :=
  Z.lor (Z.shiftl (Z.land (u8 p0) utf8.mask2) 6) (Z.land (u8 b1) utf8.maskx).

Definition rune3 (p0 b1 b2 : byte) : rune :=
  Z.lor (Z.lor (Z.shiftl (Z.land (u8 p0) utf8.mask3) 12)
               (Z.shiftl (Z.land (u8 b1) utf8.maskx) 6))
        (Z.land (u8 b2) utf8.maskx).

Definition rune4 (p0 b1 b2 b3 : byte) : rune :=
  Z.lor (Z.lor (Z.lor (Z.shiftl (Z.land (u8 p0) utf8.mask4) 18)
                      (Z.shiftl (Z.land (u8 b1) utf8.maskx) 12))
               (Z.shiftl (Z.land (u8 b2) utf8.maskx) 6))
        (Z.land (u8 b3) utf8.maskx).

(** The continuation bytes, 0x80 to 0xBF. *)
Definition cont_bytes : list byte :=
  filter (fun b => negb (bad (utf8.locb, utf8.hicb) b)) all_bytes.

(** When the rune decoded from [q] is white space, [q] begins with an
    entry of [white_space], and the width decoded is its length. *)
Definition space_rune_ok (q : list byte) : bool :=
  let (r, sz) := utf8.DecodeRune q in
  implb (unicode.IsSpace r)
        (existsb (fun e => starts_with e q && (length e =? sz)%nat) white_space).

(** The rune that [lastIndexFunc] stops at, of [sz] bytes from [k], is
    decoded with the same width from [k] on, whatever follows it that
    does not begin with a continuation byte. *)
Definition redecodes (s : list byte) (k sz : nat) : Prop :=
  (u8 (at_ s k) < utf8.RuneSelf -> sz = 1%nat) /\
  forall tail,
    match tail with
    | [] => True
    | c :: _ => bad (utf8.locb, utf8.hicb) c = true
    end ->
    snd (utf8.DecodeRune (slice s k (k + sz) ++ tail)) = sz.

(** ** Some worlds *)

(** Nothing queued, nothing to come. *)
Definition world_idle : World :=
  mkWorld 0 0 None None defaultPongHandler (mkChan [] false) [] [].

(** Two messages queued. *)
Definition world_two_queued : World :=
  mkWorld 0 0 None None defaultPongHandler
          (mkChan [[x61]; [x62]] false) [] [].



(** The hub has closed the empty queue. *)
Definition world_closed : World :=
  mkWorld 0 0 None None defaultPongHandler (mkChan [] true) [] [].


(** ** Reading a trace: the whole run of a pump *)

(** The messages that the receives from [c.send] have delivered. *)
Definition received (evs : list event) : list (list byte) :=
  flat_map (fun e => match e with EvRecv m true => [m] | _ => [] end) evs.

(** The writes to the message writer, told apart by what precedes them:
    the first write after a receive, and the writes with no receive
    since the write before. *)
Fixpoint payloads (armed : bool) (evs : list event) : list (list byte) :=
  match evs with
  | [] => []
  | EvRecv _ true :: post => payloads true post
  | EvWrite p _ :: post => (if armed then [p] else []) ++ payloads false post
  | _ :: post => payloads armed post
  end.

Fixpoint separators (armed : bool) (evs : list event) : list (list byte) :=
  match evs with
  | [] => []
  | EvRecv _ true :: post => separators true post
  | EvWrite p _ :: post => (if armed then [] else [p]) ++ separators false post
  | _ :: post => separators armed post
  end.

(** The values that [len(c.send)] has returned. *)
Definition lens (evs : list event) : list nat :=
  flat_map (fun e => match e with EvLen n => [n] | _ => [] end) evs.

(** The write deadlines set. *)
Definition write_deadlines (evs : list event) : list time.Time :=
  flat_map (fun e => match e with EvSetWriteDeadline t => [t] | _ => [] end)
           evs.

(** The operations that put a frame on the connection or open one. *)
Definition starts_write (e : event) : bool :=
  match e with
  | EvNextWriter _ _ | EvWriteMessage _ _ _ => true
  | _ => false
  end.

Definition sets_write_deadline (e : event) : bool :=
  match e with
  | EvSetWriteDeadline _ => true
  | _ => false
  end.

(** Every such operation comes directly after the write deadline has
    been set; [prev] tells whether the event before [evs] set it. *)
Fixpoint guarded (prev : bool) (evs : list event) : bool :=
  match evs with
  | [] => true
  | e :: post =>
      (if starts_write e then prev else true) &&
      guarded (sets_write_deadline e) post
  end.

(** The discipline of the transport's writer: at most one message
    writer is open at a time; [Write] and [Close] go to the open writer;
    [NextWriter] and [WriteMessage] are called with no writer open; and
    at the end no writer is left open.  [open] tells whether a writer
    is open before [evs]. *)
Fixpoint framed (open : bool) (evs : list event) : bool :=
  match evs with
  | [] => negb open
  | EvNextWriter _ None :: post => negb open && framed true post
  | EvNextWriter _ (Some _) :: post => negb open && framed false post
  | EvWrite _ _ :: post => open && framed true post
  | EvWriterClose _ :: post => open && framed false post
  | EvWriteMessage _ _ _ :: post => negb open && framed false post
  | _ :: post => framed open post
  end.

(** For each message writer that [NextWriter] has returned, the number
    of messages that go into it: the message in hand, and one for each
    message received while the writer is open.  [open] is the count of
    the writer that is open before [evs], if one is. *)
Fixpoint frame_sizes (open : option nat) (evs : list event) : list nat :=
  match evs with
  | [] => match open with Some n => [n] | None => [] end
  | EvNextWriter _ None :: post => frame_sizes (Some 1%nat) post
  | EvWriterClose _ :: post =>
      match open with
      | Some n => n :: frame_sizes None post
      | None => frame_sizes None post
      end
  | EvRecv _ true :: post => frame_sizes (option_map S open) post
  | _ :: post => frame_sizes open post
  end.

(** The time at which each wake-up of the [select] is served: the clock
    does not run backwards. *)
Fixpoint wake_clock (t0 : time.Time) (wakes : list Wake) : list time.Time :=
  match wakes with
  | [] => []
  | WakeSend t :: wakes' | WakeTick t :: wakes' =>
      Z.max t0 t :: wake_clock (Z.max t0 t) wakes'
  end.

(** The ticker's creation and the deferred calls of [writePump]. *)
Definition lifecycle_event (e : event) : bool :=
  match e with
  | EvNewTicker _ | EvTickerStop | EvConnClose => true
  | _ => false
  end.

(** What ends the loop of [writePump]: the close message, or an error
    that the pump looks at. *)
Definition last_write (e : event) : bool :=
  match e with
  | EvWriteMessage mt _ _ =>
      (mt =? websocket.CloseMessage) || checked_failure e
  | _ => checked_failure e
  end.

(** The transport's writes all succeed. *)
Definition net_ok (w : World) : bool :=
  forallb (fun r => match r with None => true | Some _ => false end)
          (netTape w).

(** The errors that [ReadMessage] has returned, and the errors logged. *)
Definition read_errors (evs : list event) : list error :=
  flat_map (fun e => match e with EvReadMessage _ (Some err) => [err] | _ => [] end)
           evs.

Definition logs (evs : list event) : list error :=
  flat_map (fun e => match e with EvLog err => [err] | _ => [] end) evs.

(** What is in the body of the loop of [readPump] before the read that
    fails: control frames handled inside [ReadMessage], reads that
    succeed, and broadcasts. *)
Definition body_event (e : event) : bool :=
  match e with
  | EvReadMessage _ None | EvBroadcast _ => true
  | _ => control_event e
  end.

(** A close error that [readPump] takes for unexpected: any close code
    but 1001 (going away) and 1006 (abnormal closure). *)
Definition unexpected (err : error) : bool :=
  match err with
  | CloseError code => negb (code =? 1001) && negb (code =? 1006)
  | _ => false
  end.

(** The arrival times of frames that keep each other within [pongWait],
    from [t0] on. *)
Fixpoint in_time (t0 : time.Time) (ts : list time.Time) : Prop :=
  match ts with
  | [] => True
  | t :: ts' => t0 <= t <= t0 + pongWait /\ in_time t ts'
  end.

(** What [ReadMessage] does with pong frames read at the given times. *)
Definition pong_events (cs : list (time.Time * list byte)) : list event :=
  flat_map (fun c => [EvPong (fst c) (snd c);
                      EvSetReadDeadline (time.Add (fst c) pongWait);
                      EvPongHandler (snd c) None]) cs.


(** The three settings with which [readPump] begins (lines 59-65). *)
Definition readPump_prologue (w : World) : list event :=
  [EvSetReadLimit maxMessageSize;
   EvSetReadDeadline (time.Add (now w) pongWait);
   EvSetPongHandler readPump_func1].

(** A control frame that is a pong. *)
Definition is_pong (f : ControlFrame) : bool :=
  match f with
  | Pong _ => true
  | Ping _ => false
  end.

(** The peer sends no pong. *)
Definition no_pongs (tape : list Arrival) : bool :=
  forallb (fun a => forallb (fun c => negb (is_pong (snd c))) (ctrl a)) tape.

(** Two messages queued when the hub closed the queue. *)
Definition world_closed_two_queued : World :=
  mkWorld 0 0 None None defaultPongHandler
          (mkChan [[x61]; [x62]] true) [] [].

(** * Properties *)

(** ** The monad *)

Lemma bind_Done {A B} (m : M A) (k : A -> M B) w a w1 e1 :
  m w = (Done a, w1, e1) ->
  bind m k w = (result (k a w1), world (k a w1), e1 ++ events (k a w1)).
Proof.
  intros H. unfold bind. rewrite H. destruct (k a w1) as [[r w2] e2].
  reflexivity.
Qed.

Lemma bind_Blocked {A B} (m : M A) (k : A -> M B) w w1 e1 :
  m w = (Blocked, w1, e1) -> bind m k w = (Blocked, w1, e1).
Proof. intros H. unfold bind. now rewrite H. Qed.

Lemma run_eta {A} (x : Res A * World * list event) :
  x = (result x, world x, events x).
Proof. now destruct x as [[r w] e]. Qed.

(** ** Traces *)

Lemma recvs_app a b : recvs (a ++ b) = recvs a ++ recvs b.
Proof. apply flat_map_app. Qed.

Lemma writes_app a b : writes (a ++ b) = writes a ++ writes b.
Proof. apply flat_map_app. Qed.

Lemma hub_sends_app a b : hub_sends (a ++ b) = hub_sends a ++ hub_sends b.
Proof. apply flat_map_app. Qed.

Lemma none_app p a b : none p (a ++ b) = none p a && none p b.
Proof. apply forallb_app. Qed.

Lemma after_each_quiet p T seg rest :
  none p seg = true -> after_each p T rest -> after_each p T (seg ++ rest).
Proof.
  induction seg as [|e seg IH]; cbn; intros Hq Hr; [exact Hr|].
  apply andb_prop in Hq as [He Hq]. split; [|now apply IH].
  intros Hp. rewrite Hp in He. discriminate.
Qed.

Lemma after_each_none p T evs : none p evs = true -> after_each p T evs.
Proof.
  intros H. rewrite <- (app_nil_r evs). now apply after_each_quiet.
Qed.

Lemma after_each_elim p T evs :
  after_each p T evs ->
  forall pre e post, evs = pre ++ e :: post -> p e = true -> T post.
Proof.
  intros H pre. revert evs H.
  induction pre as [|x pre IH]; intros evs H e post -> Hp; cbn in H.
  - now apply H.
  - destruct H as [_ H]. now apply (IH _ H e post).
Qed.

Lemma after_each_mono p (T U : list event -> Prop) evs :
  (forall post, T post -> U post) -> after_each p T evs -> after_each p U evs.
Proof.
  intros HTU. induction evs as [|e evs IH]; cbn; [trivial|].
  intros [H1 H2]. split; [intros Hp; now apply HTU, H1 | now apply IH].
Qed.

(** Appending events that [p] rejects: what followed an event still
    follows it, now with the appended events after it. *)
Lemma after_each_snoc p (T : list event -> Prop) evs tail :
  none p tail = true ->
  after_each p T evs ->
  after_each p (fun post => exists post', post = post' ++ tail /\ T post')
             (evs ++ tail).
Proof.
  intros Hq. induction evs as [|e evs IH]; cbn.
  - intros _. now apply after_each_none.
  - intros [H1 H2]. split; [|now apply IH].
    intros Hp. exists evs. split; [reflexivity | now apply H1].
Qed.

(** ** The hub's side of the channel *)

Lemma hub_step_spec a w :
  exists w' evs,
    hub_step a w = (Done tt, w', evs) /\
    buf (send w') = buf (send w) ++ hub_sends evs /\
    forallb hub_event evs = true /\
    netTape w' = netTape w /\ hubTape w' = hubTape w /\ now w' = now w /\
    (length (buf (send w)) <= sendCap -> length (buf (send w')) <= sendCap)%nat.
Proof.
  unfold hub_step, bind, get. destruct a as [message|].
  - destruct (closed (send w) || (sendCap <=? length (buf (send w)))%nat) eqn:E;
      cbn.
    + exists w, []. cbn. rewrite app_nil_r. repeat split; auto.
    + eexists _, _. split; [reflexivity|]. cbn. repeat split; auto.
      apply orb_false_elim in E as [_ E]. apply Nat.leb_gt in E.
      rewrite length_app. cbn. lia.
  - destruct (closed (send w)); cbn.
    + exists w, []. cbn. rewrite app_nil_r. repeat split; auto.
    + eexists _, _. split; [reflexivity|]. cbn. rewrite app_nil_r.
      repeat split; auto.
Qed.

Lemma hub_steps_spec l : forall w,
  exists w' evs,
    hub_steps l w = (Done tt, w', evs) /\
    buf (send w') = buf (send w) ++ hub_sends evs /\
    forallb hub_event evs = true /\
    netTape w' = netTape w /\ hubTape w' = hubTape w /\ now w' = now w /\
    (length (buf (send w)) <= sendCap -> length (buf (send w')) <= sendCap)%nat.
Proof.
  induction l as [|a l IH]; intros w; cbn [hub_steps].
  - exists w, []. cbn. rewrite app_nil_r. repeat split; auto.
  - destruct (hub_step_spec a w) as (w1 & e1 & H1 & B1 & Q1 & N1 & T1 & C1 & L1).
    destruct (IH w1) as (w2 & e2 & H2 & B2 & Q2 & N2 & T2 & C2 & L2).
    exists w2, (e1 ++ e2). rewrite (bind_Done _ _ _ _ _ _ H1), H2. cbn.
    split; [reflexivity|]. rewrite hub_sends_app, forallb_app, Q1, Q2.
    repeat split; auto; try congruence.
    now rewrite B2, B1, app_assoc.
Qed.

Lemma hub_sync_spec w :
  exists w' evs,
    hub_sync w = (Done tt, w', evs) /\
    buf (send w') = buf (send w) ++ hub_sends evs /\
    forallb hub_event evs = true /\
    netTape w' = netTape w /\ now w' = now w /\
    (length (buf (send w)) <= sendCap -> length (buf (send w')) <= sendCap)%nat.
Proof.
  unfold hub_sync, bind, get, modify.
  destruct (hub_steps_spec (hd [] (hubTape w)) (set_hubTape (tl (hubTape w)) w))
    as (w' & evs & H & B & Q & N & _ & C & L).
  rewrite H. exists w', evs. cbn. repeat split; auto.
Qed.

(** ** The consumer's side of the channel *)

(** The three outcomes of a receive. *)
Lemma recv_send_spec w :
  exists w' hev,
    hub_sync w = (Done tt, world (hub_sync w), hev) /\
    forallb hub_event hev = true /\
    netTape w' = netTape w /\ now w' = now w /\
    match buf (send (world (hub_sync w))) with
    | m :: rest =>
        recv_send w = (Done (m, true), w', hev ++ [EvRecv m true]) /\
        buf (send w') = rest
    | [] =>
        if closed (send (world (hub_sync w))) then
          recv_send w = (Done ([], false), w', hev ++ [EvRecv [] false])
        else recv_send w = (Blocked, w', hev)
    end.
Proof.
  destruct (hub_sync_spec w) as (w1 & hev & H & B & Q & N & C & _).
  unfold recv_send. rewrite H. cbn [world fst snd].
  destruct (buf (send w1)) as [|m rest] eqn:E.
  - destruct (closed (send w1)) eqn:Ec.
    + exists w1, hev. repeat split; auto.
      rewrite (bind_Done _ _ _ _ _ _ H). unfold bind, get. cbn. now rewrite E, Ec.
    + exists w1, hev. repeat split; auto.
      rewrite (bind_Done _ _ _ _ _ _ H). unfold bind, get. cbn. rewrite E, Ec.
      cbn. now rewrite app_nil_r.
  - exists (set_send (mkChan rest (closed (send w1))) w1), hev.
    repeat split; auto.
    rewrite (bind_Done _ _ _ _ _ _ H). unfold bind, get. cbn. rewrite E.
    cbn. reflexivity.
Qed.

(** A receive from a channel that holds a message takes the oldest one,
    whatever the hub does meanwhile. *)
Lemma recv_send_ready m q w :
  buf (send w) = m :: q ->
  exists w' hev,
    recv_send w = (Done (m, true), w', hev ++ [EvRecv m true]) /\
    forallb hub_event hev = true /\
    buf (send w') = q ++ hub_sends hev /\
    netTape w' = netTape w /\ now w' = now w.
Proof.
  intros E.
  destruct (hub_sync_spec w) as (w1 & hev & H & B & Q & N & C & _).
  destruct (recv_send_spec w) as (w' & hev' & H' & Q' & N' & C' & R).
  rewrite H in H'. cbn [world fst snd] in H'. injection H' as <-.
  rewrite H in R. cbn [world fst snd] in R. rewrite B, E in R. cbn in R.
  destruct R as [R1 R2]. exists w', hev. repeat split; auto.
Qed.

Lemma hub_events_silent evs :
  forallb hub_event evs = true ->
  recvs evs = [] /\ writes evs = [] /\ forallb drain_event evs = true.
Proof.
  induction evs as [|e evs IH]; cbn; [auto|].
  intros H. apply andb_prop in H as [He H].
  destruct (IH H) as (R & W & D). unfold recvs, writes in *. cbn.
  rewrite R, W, D. now destruct e.
Qed.

Lemma bind_eq {A B} (m : M A) (k : A -> M B) w a w1 e1 r w2 e2 :
  m w = (Done a, w1, e1) -> k a w1 = (r, w2, e2) ->
  bind m k w = (r, w2, e1 ++ e2).
Proof. intros H1 H2. unfold bind. now rewrite H1, H2. Qed.

Lemma run_events_eq {A} (x : Res A * World * list event) r w evs evs' :
  x = (r, w, evs') -> evs' = evs -> x = (r, w, evs).
Proof. now intros -> ->. Qed.

Lemma w_Write_run p w :
  w_Write p w = (Done (hd None (netTape w)), set_netTape (tl (netTape w)) w,
                 [EvWrite p (hd None (netTape w))]).
Proof. reflexivity. Qed.

(** The drain loop, entered with at least [length q] messages queued:
    it receives exactly [q], in order, and writes each after a newline;
    what the hub appends meanwhile stays in the queue. *)
Lemma writePump_drain_spec q : forall later w,
  buf (send w) = q ++ later ->
  exists w' evs,
    writePump_drain (length q) w = (Done tt, w', evs) /\
    recvs evs = map (fun m => (m, true)) q /\
    writes evs = flat_map (fun m => [newline; m]) q /\
    buf (send w') = later ++ hub_sends evs /\
    forallb drain_event evs = true.
Proof.
  induction q as [|m q IH]; intros later w E.
  - exists w, []. cbn. rewrite app_nil_r. auto.
  - cbn [length writePump_drain].
    assert (E1 : buf (send (set_netTape (tl (netTape w)) w)) = m :: (q ++ later))
      by exact E.
    destruct (recv_send_ready _ _ _ E1) as (w2 & hev & R & Q & B & _).
    assert (E2 : buf (send (set_netTape (tl (netTape w2)) w2))
                 = q ++ (later ++ hub_sends hev))
      by (cbn; now rewrite B, app_assoc).
    destruct (IH _ _ E2) as (w3 & evs & D & Rc & Wr & B3 & Dr).
    destruct (hub_events_silent _ Q) as (Rh & Wh & Dh).
    eexists _, _. split.
    { eapply bind_eq; [apply w_Write_run|].
      eapply bind_eq; [exact R|].
      eapply bind_eq; [apply w_Write_run|]. exact D. }
    rewrite !recvs_app, !writes_app, !hub_sends_app, !forallb_app.
    rewrite Rh, Wh, Dh, Rc, Wr, Dr, B3. cbn.
    repeat split; auto. now rewrite app_nil_r, app_assoc.
Qed.

(** Lines 107-111 as a whole. *)
Lemma coalesce_spec w :
  exists w' evs q,
    writePump_coalesce w = (Done tt, w', evs) /\
    recvs evs = map (fun m => (m, true)) q /\
    writes evs = flat_map (fun m => [newline; m]) q /\
    forallb drain_event evs = true.
Proof.
  destruct (hub_sync_spec w) as (w1 & hev & H & B & Q & N & C & _).
  destruct (writePump_drain_spec (buf (send w1)) [] w1 (eq_sym (app_nil_r _)))
    as (w' & evs & D & Rc & Wr & B' & Dr).
  destruct (hub_events_silent _ Q) as (Rh & Wh & Dh).
  exists w', ((hev ++ [EvLen (length (buf (send w1)))]) ++ evs), (buf (send w1)).
  split.
  - unfold writePump_coalesce, len_send.
    eapply bind_eq; [|exact D].
    eapply bind_eq; [exact H|]. reflexivity.
  - rewrite !recvs_app, !writes_app, !forallb_app, Rh, Wh, Dh, Rc, Wr, Dr.
    auto.
Qed.

(** ** C3 *)


(** ** The message branch of the write pump *)

Lemma concat_join sep q : forall m,
  concat (m :: flat_map (fun x => [sep; x]) q) = join sep (m :: q).
Proof.
  induction q as [|x q IH]; intros m.
  - cbn. apply app_nil_r.
  - specialize (IH x). cbn in IH |- *. now rewrite IH.
Qed.

(** The branch [case message, ok := <-c.send] with [ok = true]: what it
    does when [NextWriter] fails, and what it does otherwise. *)
Lemma writePump_message_spec message w :
  let t := time.Add (now w) writeWait in
  match hd None (netTape w) with
  | Some e =>
      exists w',
        writePump_message message true w =
          (Done Return, w',
           [EvSetWriteDeadline t; EvNextWriter websocket.TextMessage (Some e)])
  | None =>
      exists w' r2 mid r3 q,
        writePump_message message true w =
          (Done (match r3 with Some _ => Return | None => Continue end), w',
           EvSetWriteDeadline t :: EvNextWriter websocket.TextMessage None ::
           EvWrite message r2 :: mid ++ [EvWriterClose r3]) /\
        recvs mid = map (fun m => (m, true)) q /\
        writes mid = flat_map (fun m => [newline; m]) q /\
        forallb drain_event mid = true
  end.
Proof.
  intros t. unfold writePump_message. cbn [negb].
  destruct (hd None (netTape w)) as [e|] eqn:E.
  - eexists. eapply run_events_eq.
    + eapply bind_eq; [reflexivity|].
      eapply bind_eq; [reflexivity|].
      eapply bind_eq; [reflexivity|].
      cbn [netTape set_writeDeadline]. rewrite E. reflexivity.
    + cbn [app netTape set_writeDeadline]. now rewrite E.
  - set (w1 := set_netTape (tl (netTape w)) (set_writeDeadline (Some t) w)).
    set (w2 := set_netTape (tl (netTape w1)) w1).
    destruct (coalesce_spec w2) as (w3 & mid & q & C & Rc & Wr & Dr).
    exists (set_netTape (tl (netTape w3)) w3), (hd None (netTape w1)), mid,
      (hd None (netTape w3)), q.
    split; [|auto]. eapply run_events_eq.
    + eapply bind_eq; [reflexivity|].
      eapply bind_eq; [reflexivity|].
      eapply bind_eq; [reflexivity|].
      cbn [netTape set_writeDeadline]. rewrite E.
      eapply bind_eq; [apply w_Write_run|].
      eapply bind_eq; [exact C|].
      eapply bind_eq; [reflexivity|].
      destruct (hd None (netTape w3)); reflexivity.
    + cbn [app netTape set_writeDeadline]. rewrite E. reflexivity.
Qed.

(** ** The loop of the write pump *)

Lemma drain_events_quiet evs :
  forallb drain_event evs = true ->
  none checked_failure evs = true /\ none closed_recv evs = true.
Proof.
  induction evs as [|e evs IH]; cbn; [auto|].
  intros H. apply andb_prop in H as [He H]. destruct (IH H) as [A B].
  unfold none in A, B. rewrite A, B.
  destruct e as [| | | | | | | | | | | | | | | | | | | ? [|] | |]; cbn in *;
    auto; discriminate.
Qed.

Lemma hub_events_quiet evs :
  forallb hub_event evs = true ->
  none checked_failure evs = true /\ none closed_recv evs = true.
Proof.
  intros H. apply drain_events_quiet. now apply hub_events_silent.
Qed.

Lemma writePump_message_closed message w :
  writePump_message message false w =
    (Done Return,
     set_netTape (tl (netTape w))
       (set_writeDeadline (Some (time.Add (now w) writeWait)) w),
     [EvSetWriteDeadline (time.Add (now w) writeWait);
      EvWriteMessage websocket.CloseMessage [] (hd None (netTape w))]).
Proof. reflexivity. Qed.

Lemma writePump_tick_run w :
  writePump_tick w =
    (Done (match hd None (netTape w) with Some _ => Return | None => Continue end),
     set_netTape (tl (netTape w))
       (set_writeDeadline (Some (time.Add (now w) writeWait)) w),
     [EvSetWriteDeadline (time.Add (now w) writeWait);
      EvWriteMessage websocket.PingMessage [] (hd None (netTape w))]).
Proof.
  unfold writePump_tick, bind. cbn. now destruct (hd None (netTape w)).
Qed.

Lemma loop_ok_quiet r seg rest :
  none checked_failure seg = true -> none closed_recv seg = true ->
  loop_ok r rest -> loop_ok r (seg ++ rest).
Proof.
  intros A B [H1 H2]. split; now apply after_each_quiet.
Qed.

Lemma writePump_loop_spec wakes : forall w,
  loop_ok (result (writePump_loop wakes w)) (events (writePump_loop wakes w)).
Proof.
  induction wakes as [|k wakes IH]; intros w.
  - cbn. split; exact I.
  - destruct k as [t|t]; cbn [writePump_loop].
    + set (w0 := set_now (Z.max (now w) t) w).
      destruct (recv_send_spec w0) as (w1 & hev & _ & Q & _ & _ & R).
      destruct (hub_events_quiet _ Q) as [Qa Qb].
      destruct (buf (send (world (hub_sync w0)))) as [|m rest].
      * destruct (closed (send (world (hub_sync w0)))).
        -- erewrite bind_eq;
             [|reflexivity
              |eapply bind_eq;
                 [exact R
                 |eapply bind_eq; [apply writePump_message_closed|reflexivity]]].
           cbn [result events fst snd app]. rewrite <- app_assoc.
           apply loop_ok_quiet; auto. cbn.
           split; repeat split; try discriminate; eauto.
        -- erewrite bind_eq; [|reflexivity|eapply bind_Blocked; exact R].
           cbn [result events fst snd app].
           rewrite <- (app_nil_r hev). apply loop_ok_quiet; auto.
           split; exact I.
      * destruct R as [R _].
        pose proof (writePump_message_spec m w1) as S. cbv zeta in S.
        destruct (hd None (netTape w1)) as [e|].
        -- destruct S as (w2 & S).
           erewrite bind_eq;
             [|reflexivity
              |eapply bind_eq; [exact R|eapply bind_eq; [exact S|reflexivity]]].
           cbn [result events fst snd app]. rewrite <- app_assoc.
           apply loop_ok_quiet; auto. cbn.
           split; repeat split; try discriminate.
        -- destruct S as (w2 & r2 & mid & r3 & q & S & _ & _ & D).
           destruct (drain_events_quiet _ D) as [Da Db].
           destruct r3 as [e3|].
           ++ erewrite bind_eq;
                [|reflexivity
                 |eapply bind_eq; [exact R|eapply bind_eq; [exact S|reflexivity]]].
              cbn [result events fst snd app]. rewrite <- app_assoc.
              rewrite app_nil_r.
              apply loop_ok_quiet; auto. cbn [app].
              apply (loop_ok_quiet _ [_; _; _; _]); [reflexivity|reflexivity|].
              apply loop_ok_quiet; auto. cbn.
              split; repeat split; try discriminate.
           ++ specialize (IH w2).
              rewrite (run_eta (writePump_loop wakes w2)) in IH.
              erewrite bind_eq;
                [|reflexivity
                 |eapply bind_eq;
                    [exact R|eapply bind_eq; [exact S|apply run_eta]]].
              cbn [result events fst snd app] in IH |- *. rewrite <- app_assoc.
              apply loop_ok_quiet; auto. cbn [app].
              apply (loop_ok_quiet _ [_; _; _; _]); [reflexivity|reflexivity|].
              rewrite <- app_assoc.
              apply loop_ok_quiet; auto.
              apply (loop_ok_quiet _ [_]); [reflexivity|reflexivity|exact IH].
    + pose proof (writePump_tick_run (set_now (Z.max (now w) t) w)) as T.
      cbn [netTape set_now] in T.
      destruct (hd None (netTape w)) as [e|].
      * erewrite bind_eq; [|reflexivity|eapply bind_eq; [exact T|reflexivity]].
        cbn. split; repeat split; try discriminate.
      * specialize (IH (set_netTape (tl (netTape (set_now (Z.max (now w) t) w)))
           (set_writeDeadline
              (Some (time.Add (now (set_now (Z.max (now w) t) w)) writeWait))
              (set_now (Z.max (now w) t) w)))).
        erewrite bind_eq; [|reflexivity|eapply bind_eq; [exact T|apply run_eta]].
        cbn [result events fst snd app].
        apply (loop_ok_quiet _ [_; _]); [reflexivity|reflexivity|].
        exact IH.
Qed.

(** ** The write pump as a whole *)

Lemma writePump_run wakes w :
  writePump wakes w =
    match result (writePump_loop wakes w) with
    | Done _ =>
        (Done tt, world (writePump_loop wakes w),
         EvNewTicker pingPeriod :: events (writePump_loop wakes w) ++
         [EvTickerStop; EvConnClose])
    | Blocked =>
        (Blocked, world (writePump_loop wakes w),
         EvNewTicker pingPeriod :: events (writePump_loop wakes w))
    end.
Proof.
  unfold writePump, defer, bind, emit, ticker_Stop, conn_Close, ret.
  destruct (writePump_loop wakes w) as [[[[]|] w'] evs]; reflexivity.
Qed.

(** What follows an event of the loop in the events of the whole pump:
    the same, and then the deferred calls. *)
Lemma writePump_after p (T : list event -> Prop) wakes w :
  p (EvNewTicker pingPeriod) = false ->
  none p [EvTickerStop; EvConnClose] = true ->
  after_each p
    (fun post => T post /\ result (writePump_loop wakes w) = Done tt)
    (events (writePump_loop wakes w)) ->
  after_each p
    (fun post =>
       result (writePump wakes w) = Done tt /\
       exists post', post = post' ++ [EvTickerStop; EvConnClose] /\ T post')
    (events (writePump wakes w)).
Proof.
  intros Hn Hc H. rewrite writePump_run.
  destruct (result (writePump_loop wakes w)) as [[]|] eqn:R;
    cbn [events snd result fst].
  - apply (after_each_quiet _ _ [_]);
      [unfold none; cbn [forallb]; now rewrite Hn|].
    apply (after_each_snoc _ _ _ _ Hc) in H.
    revert H. apply after_each_mono.
    intros post (post' & E & HT & _). split; [reflexivity|]. now exists post'.
  - apply (after_each_quiet _ _ [_]);
      [unfold none; cbn [forallb]; now rewrite Hn|].
    revert H. apply after_each_mono. intros post [_ H]. discriminate.
Qed.

(** ** C6 *)

(** A receive reports [ok = false] exactly when, at that instant, the
    queue is closed and empty. *)
Lemma recv_false_iff_closed_and_empty w x :
  result (recv_send w) = Done x ->
  snd x = false <->
  buf (send (world (hub_sync w))) = [] /\
  closed (send (world (hub_sync w))) = true.
Proof.
  destruct (recv_send_spec w) as (w' & hev & _ & _ & _ & _ & R).
  destruct (buf (send (world (hub_sync w)))) as [|m rest].
  - destruct (closed (send (world (hub_sync w)))); rewrite R; cbn.
    + intros [= <-]. cbn. tauto.
    + discriminate.
  - destruct R as [R _]. rewrite R. cbn. intros [= <-]. cbn.
    split; [discriminate | intros [? _]; discriminate].
Qed.

(** C6.  Whenever [writePump] receives from [c.send] with [ok = false]
    (the queue is closed and empty, [recv_false_iff_closed_and_empty]),
    what it does from there on is: set the write deadline, send one close
    message, and return through the deferred calls, which stop the ticker
    and close the connection.  Nothing else is written. *)
Theorem closed_queue_close_message_then_exit
        (wakes : list Wake) (w : World)
        (pre : list event) (m : list byte) (post : list event) :
  events (writePump wakes w) = pre ++ EvRecv m false :: post ->
  result (writePump wakes w) = Done tt /\
  exists t e,
    post = [EvSetWriteDeadline t;
            EvWriteMessage websocket.CloseMessage [] e;
            EvTickerStop; EvConnClose].
Proof.
  intros E.
  destruct (writePump_loop_spec wakes w) as [_ H].
  apply (after_each_mono _ _
           (fun post =>
              (exists t e, post = [EvSetWriteDeadline t;
                                   EvWriteMessage websocket.CloseMessage [] e])
              /\ result (writePump_loop wakes w) = Done tt)) in H;
    [|tauto].
  apply (writePump_after closed_recv) in H; [|reflexivity|reflexivity].
  destruct (after_each_elim _ _ _ H _ _ _ E eq_refl)
    as (R & post' & -> & t & e & ->).
  split; [exact R|]. now exists t, e.
Qed.

(** ** C5 *)


(** ** C10 *)

(** C10.  One write transaction of the message branch, when [NextWriter]
    succeeds: between [NextWriter] and the writer's [Close] the pump
    writes the first message and then, for each message [m] it takes from
    the queue, the one-byte [newline] and [m]; the bytes of the frame are
    the messages joined by newlines. *)
Theorem coalesced_frame_newline_separated (message : list byte) (w : World) :
  hd None (netTape w) = None ->
  exists c w' t r2 mid r3 q,
    writePump_message message true w =
      (Done c, w',
       EvSetWriteDeadline t :: EvNextWriter websocket.TextMessage None ::
       EvWrite message r2 :: mid ++ [EvWriterClose r3]) /\
    forallb drain_event mid = true /\
    recvs mid = map (fun m => (m, true)) q /\
    writes (EvWrite message r2 :: mid) =
      message :: flat_map (fun m => [newline; m]) q /\
    concat (writes (EvWrite message r2 :: mid)) = join newline (message :: q) /\
    newline = [x0a].
Proof.
  intros E. pose proof (writePump_message_spec message w) as S.
  cbv zeta in S. rewrite E in S.
  destruct S as (w' & r2 & mid & r3 & q & S & Rc & Wr & D).
  eexists _, w', _, r2, mid, r3, q. split; [exact S|].
  assert (W : writes (EvWrite message r2 :: mid) =
              message :: flat_map (fun m => [newline; m]) q)
    by (cbn; now rewrite <- Wr).
  repeat split; auto.
  rewrite W. apply concat_join.
Qed.

(** ** Reading *)

Lemma broadcasts_app a b : broadcasts (a ++ b) = broadcasts a ++ broadcasts b.
Proof. apply flat_map_app. Qed.

Lemma reads_ok_app a b : reads_ok (a ++ b) = reads_ok a ++ reads_ok b.
Proof. apply flat_map_app. Qed.

Lemma pongs_extend_deadline_app a b :
  pongs_extend_deadline a -> pongs_extend_deadline b ->
  pongs_extend_deadline (a ++ b).
Proof.
  intros Ha Hb. induction a as [|e a IH]; [exact Hb|].
  destruct e; cbn in Ha |- *; try (now apply IH).
  destruct Ha as [(rest & ->) Ha]. split; [|now apply IH].
  now exists (rest ++ b).
Qed.

Lemma control_events_silent evs :
  forallb control_event evs = true ->
  none cleanup_event evs = true /\ broadcasts evs = [] /\ reads_ok evs = [].
Proof.
  induction evs as [|e evs IH]; cbn; [auto|].
  intros H. apply andb_prop in H as [He H]. destruct (IH H) as (A & B & C).
  unfold none, broadcasts, reads_ok in *. cbn. rewrite A, B, C.
  now destruct e.
Qed.

Lemma await_spec t w :
  has_deadline w ->
  exists r w',
    await t w = (Done r, w', []) /\
    has_deadline w' /\ readLimit w' = readLimit w /\
    pongHandler w' = pongHandler w /\
    (t = None -> r = Some ErrTimeout).
Proof.
  intros [d Hd]. unfold await, bind, get. cbn. rewrite Hd.
  destruct t as [t|]; [destruct (d <? t)|]; cbn;
    eexists _, _; (split; [reflexivity|]); cbn;
    (repeat split; auto; try (now exists d); try discriminate).
Qed.

Lemma handlePong_run appData w :
  pongHandler w = readPump_func1 ->
  handlePong appData w =
    (Done None,
     set_readDeadline (Some (time.Add (now w) pongWait)) w,
     [EvPong (now w) appData;
      EvSetReadDeadline (time.Add (now w) pongWait);
      EvPongHandler appData None]).
Proof. intros H. unfold handlePong, bind, get. cbn. now rewrite H. Qed.

Lemma handlePing_run appData w :
  handlePing appData w =
    (Done (hd None (netTape w)), set_netTape (tl (netTape w)) w,
     [EvPingHandler appData]).
Proof. reflexivity. Qed.

Lemma ReadMessage_control_spec cs : forall w,
  has_deadline w -> pongHandler w = readPump_func1 ->
  exists r w' evs,
    ReadMessage_control cs w = (Done r, w', evs) /\
    has_deadline w' /\ readLimit w' = readLimit w /\
    pongHandler w' = readPump_func1 /\
    forallb control_event evs = true /\
    pongs_extend_deadline evs.
Proof.
  induction cs as [|[t f] cs IH]; intros w D P.
  - exists None, w, []. cbn. repeat split; auto.
  - cbn [ReadMessage_control].
    destruct (await_spec (Some t) w D) as (r & w1 & A & D1 & L1 & P1 & _).
    rewrite P in P1.
    destruct r as [err|].
    + exists (Some err), w1, []. split; [|cbn; repeat split; auto; congruence].
      eapply run_events_eq; [eapply bind_eq; [exact A|reflexivity]|reflexivity].
    + destruct (websocket.maxControlFramePayloadSize <?
                Z.of_nat (length (control_payload f))) eqn:Big.
      { exists (Some errControlFrameLength), w1, [].
        split; [|cbn; repeat split; auto; congruence].
        eapply run_events_eq; [eapply bind_eq; [exact A|]|reflexivity].
        cbv beta iota. reflexivity. }
      destruct f as [appData|appData].
      * set (w1' := set_netTape (tl (netTape w1)) w1).
        assert (D1' : has_deadline w1') by exact D1.
        assert (L1' : readLimit w1' = readLimit w) by exact L1.
        assert (P1' : pongHandler w1' = readPump_func1) by exact P1.
        destruct (hd None (netTape w1)) as [err|] eqn:N.
        -- exists (Some err), w1', [EvPingHandler appData].
           split; [|repeat split; auto].
           eapply run_events_eq; [eapply bind_eq; [exact A|]|reflexivity].
           cbv beta iota.
           eapply run_events_eq;
             [eapply bind_eq; [apply handlePing_run|]|apply app_nil_r].
           rewrite N. reflexivity.
        -- destruct (IH w1' D1' P1')
             as (r2 & w2 & e2 & R2 & D2 & L2 & P2 & C2 & X2).
           exists r2, w2, ([EvPingHandler appData] ++ e2).
           split; [|cbn; rewrite C2; repeat split; auto; congruence].
           eapply run_events_eq; [eapply bind_eq; [exact A|]|reflexivity].
           cbv beta iota.
           eapply bind_eq; [apply handlePing_run|].
           rewrite N. exact R2.
      * set (w1' := set_readDeadline (Some (time.Add (now w1) pongWait)) w1).
        assert (D1' : has_deadline w1') by (eexists; reflexivity).
        destruct (IH w1' D1' P1)
          as (r2 & w2 & e2 & R2 & D2 & L2 & P2 & C2 & X2).
        subst w1'. cbn [readLimit set_readDeadline] in L2.
        exists r2, w2,
          ([EvPong (now w1) appData;
            EvSetReadDeadline (time.Add (now w1) pongWait);
            EvPongHandler appData None] ++ e2).
        split; [|cbn; rewrite C2; repeat split; eauto; congruence].
        eapply run_events_eq; [eapply bind_eq; [exact A|]|reflexivity].
        cbv beta iota.
        eapply bind_eq; [apply handlePong_run; exact P1|exact R2].
Qed.

(** A call of [ReadMessage], under a read deadline and with the handler
    of [readPump] installed: it returns. *)
Lemma ReadMessage_spec a w :
  has_deadline w -> pongHandler w = readPump_func1 ->
  exists r w' ctl,
    ReadMessage a w = (Done r, w', ctl ++ [EvReadMessage (fst r) (snd r)]) /\
    has_deadline w' /\ readLimit w' = readLimit w /\
    pongHandler w' = readPump_func1 /\
    forallb control_event ctl = true /\
    pongs_extend_deadline ctl /\
    match fin a with
    | Some (_, Data _ _) => True
    | _ => snd r <> None
    end.
Proof.
  intros D P. unfold ReadMessage.
  destruct (ReadMessage_control_spec (ctrl a) w D P)
    as (r1 & w1 & e1 & R1 & D1 & L1 & P1 & C1 & X1).
  destruct r1 as [err|].
  - exists ([], Some err), w1, e1.
    split; [|repeat split; auto; destruct (fin a) as [[? []]|]; cbn; auto;
             discriminate].
    eapply bind_eq; [|reflexivity].
    eapply run_events_eq;
      [eapply bind_eq; [exact R1|reflexivity]|apply app_nil_r].
  - destruct (await_spec (option_map fst (fin a)) w1 D1)
      as (r2 & w2 & A & D2 & L2 & P2 & N2).
    assert (Hfin : exists r,
               (late <- await (option_map fst (fin a)) ;;
                match late, fin a with
                | Some err, _ => ret ([], Some err)
                | None, Some (_, Data _ payload) =>
                    w <- get ;;
                    if (0 <? readLimit w) &&
                       (readLimit w <? Z.of_nat (length payload))
                    then ret ([], Some ErrReadLimit)
                    else ret (payload, None)
                | None, Some (_, Close code) => ret ([], Some (CloseError code))
                | None, Some (_, Fail err) => ret ([], Some err)
                | None, None => block
                end) w1 = (Done r, w2, []) /\
               match fin a with
               | Some (_, Data _ _) => True
               | _ => snd r <> None
               end).
    { destruct r2 as [err|].
      - exists ([], Some err).
        split; [|destruct (fin a) as [[? []]|]; cbn; auto; discriminate].
        eapply run_events_eq; [eapply bind_eq; [exact A|reflexivity]|reflexivity].
      - destruct (fin a) as [[t [mt payload|code|err]]|] eqn:F.
        + destruct ((0 <? readLimit w2) &&
                    (readLimit w2 <? Z.of_nat (length payload))) eqn:Lim;
            (eexists; split; [|exact I]);
            (eapply run_events_eq; [eapply bind_eq; [exact A|]|reflexivity]);
            unfold bind, get; rewrite Lim; reflexivity.
        + eexists. split.
          * eapply run_events_eq;
              [eapply bind_eq; [exact A|reflexivity]|reflexivity].
          * discriminate.
        + eexists. split.
          * eapply run_events_eq;
              [eapply bind_eq; [exact A|reflexivity]|reflexivity].
          * discriminate.
        + specialize (N2 eq_refl). discriminate. }
    destruct Hfin as (r & Hfin & Hn).
    exists r, w2, e1. split; [|repeat split; auto; congruence].
    eapply bind_eq; [|reflexivity].
    eapply run_events_eq;
      [eapply bind_eq; [exact R1|exact Hfin]|apply app_nil_r].
Qed.

(** ** The read pump *)

Lemma readPump_body_err message err k w :
  readPump_body (message, Some err) k w = (Done tt, w, logged err).
Proof.
  unfold readPump_body, logged, bind.
  destruct (IsUnexpectedCloseError err _); reflexivity.
Qed.

Lemma logged_quiet err :
  none cleanup_event (logged err) = true /\
  pongs_extend_deadline (logged err) /\
  broadcasts (logged err) = [] /\ reads_ok (logged err) = [].
Proof.
  unfold logged. destruct (IsUnexpectedCloseError err _); cbn; auto.
Qed.

(** The loop of [readPump], entered with a read deadline and the pong
    handler installed: it ends, on a read that returns an error. *)
Lemma readPump_loop_spec tape : forall w,
  has_deadline w -> pongHandler w = readPump_func1 ->
  exists w' body msg err,
    readPump_loop tape w =
      (Done tt, w', body ++ EvReadMessage msg (Some err) :: logged err) /\
    none cleanup_event body = true /\
    pongs_extend_deadline body /\
    broadcasts body = map normalize (reads_ok body) /\
    readLimit w' = readLimit w.
Proof.
  assert (Stop : forall a w k,
    has_deadline w -> pongHandler w = readPump_func1 ->
    forall r w1 ctl,
      ReadMessage a w = (Done r, w1, ctl ++ [EvReadMessage (fst r) (snd r)]) ->
      readLimit w1 = readLimit w ->
      forallb control_event ctl = true -> pongs_extend_deadline ctl ->
      forall err, snd r = Some err ->
      exists w' body msg err,
        (r <- ReadMessage a ;; readPump_body r k) w =
          (Done tt, w', body ++ EvReadMessage msg (Some err) :: logged err) /\
        none cleanup_event body = true /\
        pongs_extend_deadline body /\
        broadcasts body = map normalize (reads_ok body) /\
        readLimit w' = readLimit w).
  { intros a w k D P [m e] w1 ctl R L C X err E. cbn in E. subst e.
    destruct (control_events_silent _ C) as (Q & B & Ro).
    exists w1, ctl, m, err. rewrite B, Ro. repeat split; auto.
    eapply run_events_eq;
      [eapply bind_eq; [exact R|apply readPump_body_err]|].
    now rewrite <- app_assoc. }
  induction tape as [|a tape IH]; intros w D P; cbn [readPump_loop].
  - destruct (ReadMessage_spec (mkArrival [] None) w D P)
      as (r & w1 & ctl & R & D1 & L1 & P1 & C & X & N).
    destruct (snd r) as [err|] eqn:E; [|now destruct N].
    rewrite <- E in R. now apply (Stop _ _ _ D P _ _ _ R L1 C X err).
  - destruct (ReadMessage_spec a w D P)
      as (r & w1 & ctl & R & D1 & L1 & P1 & C & X & N).
    destruct (snd r) as [err|] eqn:E.
    + rewrite <- E in R. now apply (Stop _ _ _ D P _ _ _ R L1 C X err).
    + destruct r as [m e]. cbn in E. subst e. cbn [fst snd] in R.
      destruct (IH w1 D1 P1) as (w2 & body & msg & err & R2 & Q2 & X2 & B2 & L2).
      destruct (control_events_silent _ C) as (Q & B & Ro).
      exists w2,
        ((ctl ++ [EvReadMessage m None]) ++ [EvBroadcast (normalize m)] ++ body),
        msg, err.
      split.
      { eapply run_events_eq;
          [eapply bind_eq;
             [exact R|eapply bind_eq; [reflexivity|exact R2]]|].
        now rewrite <- !app_assoc. }
      rewrite !none_app, !broadcasts_app, !reads_ok_app, Q, Q2, B, Ro, B2.
      repeat split; auto; [|congruence].
      apply pongs_extend_deadline_app; [|exact X2].
      apply pongs_extend_deadline_app; [exact X|exact I].
Qed.

(** A run of [readPump]: the three settings of lines 59-65, the loop, the
    read error that ends it, and the deferred calls. *)
Lemma readPump_run tape w :
  exists w' body msg err,
    readPump tape w =
      (Done tt, w',
       [EvSetReadLimit maxMessageSize;
        EvSetReadDeadline (time.Add (now w) pongWait);
        EvSetPongHandler readPump_func1] ++
       (body ++ EvReadMessage msg (Some err) :: logged err) ++
       [EvUnregister; EvConnClose]) /\
    none cleanup_event body = true /\
    pongs_extend_deadline body /\
    broadcasts body = map normalize (reads_ok body) /\
    readLimit w' = maxMessageSize.
Proof.
  set (w0 := set_pongHandler readPump_func1
               (set_readDeadline (Some (time.Add (now w) pongWait))
                  (set_readLimit maxMessageSize w))).
  assert (D : has_deadline w0) by (eexists; reflexivity).
  destruct (readPump_loop_spec tape w0 D eq_refl)
    as (w' & body & msg & err & R & Q & X & B & L).
  exists w', body, msg, err. split; [|auto].
  unfold readPump, defer.
  eapply run_events_eq.
  - eapply bind_eq.
    + eapply bind_eq; [reflexivity|].
      eapply bind_eq; [reflexivity|].
      eapply bind_eq; [reflexivity|].
      eapply bind_eq; [reflexivity|]. exact R.
    + reflexivity.
  - cbn [app]. rewrite ?app_nil_r. reflexivity.
Qed.

(** [readPump] is its loop between the settings of lines 59-65 and the
    deferred calls. *)
Lemma readPump_unfold tape w :
  let w0 := set_pongHandler readPump_func1
              (set_readDeadline (Some (time.Add (now w) pongWait))
                 (set_readLimit maxMessageSize w)) in
  let pro := [EvSetReadLimit maxMessageSize;
              EvSetReadDeadline (time.Add (now w) pongWait);
              EvSetPongHandler readPump_func1] in
  readPump tape w =
    match result (readPump_loop tape w0) with
    | Done _ =>
        (Done tt, world (readPump_loop tape w0),
         pro ++ events (readPump_loop tape w0) ++ [EvUnregister; EvConnClose])
    | Blocked =>
        (Blocked, world (readPump_loop tape w0),
         pro ++ events (readPump_loop tape w0))
    end.
Proof.
  intros w0 pro.
  unfold readPump, defer, bind, SetReadLimit, SetReadDeadline, SetPongHandler,
    time_Now, bind, modify, emit, get, ret, hub_unregister, conn_Close.
  subst w0 pro.
  destruct (readPump_loop tape _) as [[[[]|] w'] evs];
    cbn [result world events fst snd app]; rewrite ?app_nil_r; reflexivity.
Qed.

(** ** C4 *)

(** C4.  [readPump] returns for every sequence of arrivals, and only
    after a read has returned an error [err], whatever the error is (a
    close frame with any code, the size limit, a timeout, a failure of
    the network).  It then sends one unregister request for its client
    to the hub and closes the connection: these are the last two events
    of the run, and neither occurs before. *)
Theorem readPump_unregisters_once_then_closes
        (tape : list Arrival) (w : World) :
  exists w' body msg err,
    readPump tape w =
      (Done tt, w',
       (body ++ EvReadMessage msg (Some err) :: logged err) ++
       [EvUnregister; EvConnClose]) /\
    none cleanup_event (body ++ EvReadMessage msg (Some err) :: logged err)
      = true.
Proof.
  destruct (readPump_run tape w) as (w' & body & msg & err & R & Q & _).
  exists w',
    ([EvSetReadLimit maxMessageSize;
      EvSetReadDeadline (time.Add (now w) pongWait);
      EvSetPongHandler readPump_func1] ++ body), msg, err.
  split.
  - rewrite R. now rewrite <- !app_assoc.
  - destruct (logged_quiet err) as (Ql & _).
    rewrite !none_app, Q. cbn. exact Ql.
Qed.

(** ** C9 *)

(** C9.  The pong handler of [readPump] sets the read deadline to the
    current time plus [pongWait], which is 60 seconds, and returns nil.
    In a run of [readPump] the read deadline is set to the starting time
    plus [pongWait] before the first read, the handler is installed, and
    every pong read at a time [t] is followed at once by the deadline
    being set to [t + pongWait] and the handler returning nil. *)
Theorem pong_extends_read_deadline
        (tape : list Arrival) (w : World) (appData : list byte) :
  readPump_func1_body appData w =
    (Done None,
     set_readDeadline (Some (now w + 60 * time.Second)) w,
     [EvSetReadDeadline (now w + 60 * time.Second)]) /\
  pongs_extend_deadline (events (readPump tape w)) /\
  pongWait = 60 * time.Second /\
  exists rest,
    events (readPump tape w) =
      EvSetReadLimit maxMessageSize ::
      EvSetReadDeadline (now w + 60 * time.Second) ::
      EvSetPongHandler readPump_func1 :: rest /\
    reads_ok rest = reads_ok (events (readPump tape w)).
Proof.
  split; [reflexivity|].
  destruct (readPump_run tape w) as (w' & body & msg & err & R & _ & X & _).
  rewrite R. cbn [events snd]. split; [|split; [reflexivity|]].
  - apply (pongs_extend_deadline_app [_; _; _]); [cbn; auto|].
    apply pongs_extend_deadline_app; [|cbn; auto].
    apply pongs_extend_deadline_app; [exact X|].
    cbn. apply logged_quiet.
  - eexists. split; reflexivity.
Qed.

(** ** C7 *)

(** A data message longer than the read limit is read as the error
    [ErrReadLimit]: the call does what it does when the network fails
    with that error. *)
Lemma ReadMessage_oversize cs t mt payload w :
  has_deadline w -> pongHandler w = readPump_func1 ->
  readLimit w = maxMessageSize ->
  maxMessageSize < Z.of_nat (length payload) ->
  ReadMessage (mkArrival cs (Some (t, Data mt payload))) w =
  ReadMessage (mkArrival cs (Some (t, Fail ErrReadLimit))) w.
Proof.
  intros D P L H. unfold ReadMessage. cbn [ctrl fin].
  destruct (ReadMessage_control_spec cs w D P)
    as (r1 & w1 & e1 & R1 & D1 & L1 & P1 & _).
  destruct (await_spec (Some t) w1 D1) as (r2 & w2 & A & _ & L2 & _).
  assert (Lim : (0 <? readLimit w2) &&
                (readLimit w2 <? Z.of_nat (length payload)) = true).
  { rewrite L2, L1, L. apply andb_true_intro. split.
    - reflexivity.
    - now apply Z.ltb_lt. }
  unfold bind. rewrite R1.
  destruct r1 as [err|]; [reflexivity|].
  cbn [option_map fst]. rewrite A.
  destruct r2 as [err|]; [reflexivity|].
  unfold get. now rewrite Lim.
Qed.

Lemma readPump_loop_oversize cs t mt payload post pre : forall w,
  has_deadline w -> pongHandler w = readPump_func1 ->
  readLimit w = maxMessageSize ->
  maxMessageSize < Z.of_nat (length payload) ->
  readPump_loop (pre ++ mkArrival cs (Some (t, Data mt payload)) :: post) w =
  readPump_loop (pre ++ [mkArrival cs (Some (t, Fail ErrReadLimit))]) w.
Proof.
  intros w D P L H. revert w D P L.
  induction pre as [|a pre IH]; intros w D P L; cbn [app readPump_loop].
  - unfold bind. rewrite (ReadMessage_oversize _ _ _ _ _ D P L H).
    destruct (ReadMessage_spec (mkArrival cs (Some (t, Fail ErrReadLimit))) w D P)
      as ([m e] & w1 & ctl & R & _ & _ & _ & _ & _ & N).
    rewrite R. cbn in N. destruct e as [err|]; [|now destruct N].
    now rewrite !readPump_body_err.
  - destruct (ReadMessage_spec a w D P)
      as ([m e] & w1 & ctl & R & D1 & L1 & P1 & _).
    unfold bind. rewrite R. destruct e as [err|].
    + now rewrite !readPump_body_err.
    + unfold readPump_body, bind, hub_broadcast, emit.
      rewrite (IH w1 D1 P1); [reflexivity|congruence].
Qed.

(** A data message within the read limit, arriving before the deadline
    with no control frame before it, is read. *)
Lemma ReadMessage_within t mt payload d w :
  readDeadline w = Some d -> t <= d ->
  Z.of_nat (length payload) <= readLimit w ->
  ReadMessage (mkArrival [] (Some (t, Data mt payload))) w =
    (Done (payload, None), set_now (Z.max (now w) t) w,
     [EvReadMessage payload None]).
Proof.
  intros D Ht L. unfold ReadMessage.
  cbn [ctrl fin ReadMessage_control option_map fst].
  unfold await, elapse, modify, get, ret, emit, bind.
  rewrite D. destruct (Z.ltb_spec d t) as [X|_]; [lia|].
  assert (R : readLimit (set_now (Z.max (now w) t) w) = readLimit w)
    by reflexivity.
  rewrite R.
  destruct (Z.ltb_spec (readLimit w) (Z.of_nat (length payload))) as [X|_];
    [lia|].
  now rewrite andb_false_r.
Qed.

(** C7.  [maxMessageSize] is 512 and [readPump] sets it as the read limit
    before anything else.  A data message of more than 512 bytes, at any
    place of the input, is read as the error [ErrReadLimit]: the pump
    runs as it does when the network fails there, so what arrives later
    is not read, and the run ends with the unregister request and the
    close of the connection.  When the message is the first frame to
    arrive, within the deadline, nothing else happens at all; a message
    of at most 512 bytes in its place is read and broadcast. *)
Theorem oversize_message_ends_read_pump
        (pre : list Arrival) (cs : list (time.Time * ControlFrame))
        (t : time.Time) (mt : Z) (payload : list byte)
        (post : list Arrival) (w : World) :
  maxMessageSize < Z.of_nat (length payload) ->
  let big := mkArrival cs (Some (t, Data mt payload)) in
  maxMessageSize = 512 /\
  (exists rest,
     events (readPump (pre ++ big :: post) w) = EvSetReadLimit 512 :: rest) /\
  readLimit (world (readPump (pre ++ big :: post) w)) = 512 /\
  readPump (pre ++ big :: post) w =
    readPump (pre ++ [mkArrival cs (Some (t, Fail ErrReadLimit))]) w /\
  (exists body,
     events (readPump (pre ++ big :: post) w) =
       body ++ [EvUnregister; EvConnClose]) /\
  (t <= now w + pongWait ->
   events (readPump (mkArrival [] (Some (t, Data mt payload)) :: post) w) =
     [EvSetReadLimit 512;
      EvSetReadDeadline (now w + pongWait);
      EvSetPongHandler readPump_func1;
      EvReadMessage [] (Some ErrReadLimit);
      EvUnregister; EvConnClose]) /\
  (forall small,
     Z.of_nat (length small) <= maxMessageSize -> t <= now w + pongWait ->
     exists rest,
       events (readPump (mkArrival [] (Some (t, Data mt small)) :: post) w) =
         [EvSetReadLimit 512;
          EvSetReadDeadline (now w + pongWait);
          EvSetPongHandler readPump_func1;
          EvReadMessage small None;
          EvBroadcast (normalize small)] ++ rest).
Proof.
  intros H big.
  set (w0 := set_pongHandler readPump_func1
               (set_readDeadline (Some (time.Add (now w) pongWait))
                  (set_readLimit maxMessageSize w))).
  assert (D : has_deadline w0) by (eexists; reflexivity).
  assert (Eq : forall pre cs,
    readPump (pre ++ mkArrival cs (Some (t, Data mt payload)) :: post) w =
    readPump (pre ++ [mkArrival cs (Some (t, Fail ErrReadLimit))]) w).
  { intros pre' cs'. subst w0. rewrite !readPump_unfold. cbv zeta.
    now rewrite (readPump_loop_oversize cs' t mt payload post pre' _ D eq_refl
                   eq_refl H). }
  destruct (readPump_run (pre ++ big :: post) w)
    as (w' & body & msg & err & R & _ & _ & _ & L).
  split; [reflexivity|].
  split; [rewrite R; eexists; reflexivity|].
  split; [now rewrite R|].
  split; [apply Eq|].
  split.
  { rewrite R. cbn [events snd]. eexists. now rewrite app_assoc. }
  split.
  - intros Ht. specialize (Eq [] []). cbn [app] in Eq. rewrite Eq.
    assert (E : (time.Add (now w) pongWait <? t) = false)
      by (now apply Z.ltb_ge).
    unfold readPump, defer, readPump_loop, ReadMessage, bind.
    cbn in E |- *. rewrite E. reflexivity.
  - intros small Hs Ht. rewrite readPump_unfold. cbv zeta. fold w0.
    assert (Rd : ReadMessage (mkArrival [] (Some (t, Data mt small))) w0 =
                 (Done (small, None), set_now (Z.max (now w0) t) w0,
                  [EvReadMessage small None]))
      by (apply (ReadMessage_within t mt small (now w + pongWait));
          [reflexivity|exact Ht|exact Hs]).
    assert (Lp : readPump_loop
                   (mkArrival [] (Some (t, Data mt small)) :: post) w0 =
                 (result (readPump_loop post (set_now (Z.max (now w0) t) w0)),
                  world (readPump_loop post (set_now (Z.max (now w0) t) w0)),
                  [EvReadMessage small None] ++
                  [EvBroadcast (normalize small)] ++
                  events (readPump_loop post (set_now (Z.max (now w0) t) w0)))).
    { cbn [readPump_loop].
      eapply bind_eq; [exact Rd|]. unfold readPump_body.
      eapply bind_eq; [reflexivity|apply run_eta]. }
    rewrite Lp. cbn [result world events fst snd].
    destruct (result (readPump_loop post _)); cbn [events snd app];
      eexists; reflexivity.
Qed.



Lemma closed_queue_close_message_then_exit_witness :
  events (writePump [WakeSend 1] world_closed) =
    [EvNewTicker pingPeriod] ++ EvRecv [] false ::
    [EvSetWriteDeadline (1 + writeWait);
     EvWriteMessage websocket.CloseMessage [] None;
     EvTickerStop; EvConnClose] /\
  result (writePump [WakeSend 1] world_closed) = Done tt /\
  exists t e,
    [EvSetWriteDeadline (1 + writeWait);
     EvWriteMessage websocket.CloseMessage [] None;
     EvTickerStop; EvConnClose] =
    [EvSetWriteDeadline t; EvWriteMessage websocket.CloseMessage [] e;
     EvTickerStop; EvConnClose].
Proof.
  split; [reflexivity|].
  apply (closed_queue_close_message_then_exit [WakeSend 1] world_closed
           [EvNewTicker pingPeriod] []). reflexivity.
Defined.

Lemma coalesced_frame_newline_separated_witness :
  hd None (netTape world_two_queued) = None /\
  exists c w' t r2 mid r3 q,
    writePump_message [x68; x69] true world_two_queued =
      (Done c, w',
       EvSetWriteDeadline t :: EvNextWriter websocket.TextMessage None ::
       EvWrite [x68; x69] r2 :: mid ++ [EvWriterClose r3]) /\
    forallb drain_event mid = true /\
    recvs mid = map (fun m => (m, true)) q /\
    writes (EvWrite [x68; x69] r2 :: mid) =
      [x68; x69] :: flat_map (fun m => [newline; m]) q /\
    concat (writes (EvWrite [x68; x69] r2 :: mid)) =
      join newline ([x68; x69] :: q) /\
    newline = [x0a].
Proof.
  split; [reflexivity|].
  apply (coalesced_frame_newline_separated [x68; x69] world_two_queued).
  reflexivity.
Defined.

Lemma oversize_message_ends_read_pump_witness :
  maxMessageSize < Z.of_nat (length (repeat x61 513)) /\
  events (readPump [mkArrival [] (Some (1, Data 1 (repeat x61 513)))]
                   world_idle) =
    [EvSetReadLimit 512;
     EvSetReadDeadline (0 + pongWait);
     EvSetPongHandler readPump_func1;
     EvReadMessage [] (Some ErrReadLimit);
     EvUnregister; EvConnClose].
Proof.
  split; [reflexivity|].
  apply (oversize_message_ends_read_pump [] [] 1 1 (repeat x61 513) []
           world_idle); [reflexivity|].
  vm_compute. discriminate.
Defined.

(** ** C8 *)

(** C8.  The ping period is shorter than the pong wait; it is nine tenths
    of it, and with [pongWait] at 60 seconds it is 54 seconds. *)
Theorem pingPeriod_is_54_seconds :
  pingPeriod < pongWait /\
  pongWait = 60 * time.Second /\
  10 * pingPeriod = 9 * pongWait /\
  pingPeriod = 54 * time.Second /\
  time.Second = 1000000000.
Proof. repeat split. Qed.

(** ** Bytes *)

Lemma all_bytes_complete (P : byte -> bool) :
  forallb P all_bytes = true -> forall b, P b = true.
Proof.
  intros H b. rewrite forallb_forall in H. apply H.
  assert (E : existsb (Byte.eqb b) all_bytes = true)
    by (destruct b; vm_compute; reflexivity).
  apply existsb_exists in E as (x & Hx & E).
  apply Byte.byte_dec_bl in E. now subst x.
Qed.

(** ** UTF-8 decoding *)

Import utf8.

Lemma u8_range b : 0 <= u8 b <= 255.
Proof. unfold u8. pose proof (Byte.to_N_bounded b). lia. Qed.

Lemma first_cases b :
  first b = as_ /\ u8 b < 0x80 \/ first b = xx \/
  first b = s1 \/ first b = s2 \/ first b = s3 \/ first b = s4 \/
  first b = s5 /\ u8 b = 0xF0 \/
  first b = s6 /\ 0xF1 <= u8 b <= 0xF3 \/
  first b = s7 /\ u8 b = 0xF4.
Proof.
  unfold first. cbv zeta.
  repeat match goal with
         | |- context [?a <? ?c] => destruct (Z.ltb_spec a c)
         | |- context [?a =? ?c] => destruct (Z.eqb_spec a c)
         end; try tauto; try (right; right; right; right; right; right; tauto);
    intuition lia.
Qed.

Lemma DecodeRune_as p0 t : first p0 = as_ -> DecodeRune (p0 :: t) = (u8 p0, 1%nat).
Proof.
  intros H. unfold DecodeRune. cbn [at_ nth length]. rewrite H.
  change (as_ <=? as_) with true.
  change (Z.shiftr (int32 (Z.shiftl as_ 31)) 31) with 0.
  change (Z.lnot 0) with (-1). cbn [Nat.ltb Nat.leb].
  now rewrite Z.land_m1_r, Z.land_0_r, Z.lor_0_r.
Qed.

Lemma DecodeRune_xx p0 t : first p0 = xx -> DecodeRune (p0 :: t) = (RuneError, 1%nat).
Proof.
  intros H. unfold DecodeRune. cbn [at_ nth length]. rewrite H.
  change (as_ <=? xx) with true.
  change (Z.shiftr (int32 (Z.shiftl xx 31)) 31) with (-1).
  change (Z.lnot (-1)) with 0. cbn [Nat.ltb Nat.leb].
  now rewrite Z.land_m1_r, Z.land_0_r, Z.lor_0_l.
Qed.

Lemma DecodeRune_sz2 p0 t :
  first p0 = s1 ->
  DecodeRune (p0 :: t) =
    match t with
    | b1 :: _ =>
        if bad (locb, hicb) b1 then (RuneError, 1%nat) else (rune2 p0 b1, 2%nat)
    | [] => (RuneError, 1%nat)
    end.
Proof.
  intros H. unfold DecodeRune. cbn [at_ nth length]. rewrite H.
  change (as_ <=? s1) with false.
  change (Z.to_nat (Z.land s1 7)) with 2%nat.
  change (acceptRanges (Z.shiftr s1 4)) with (locb, hicb).
  destruct t as [|b1 t]; cbn [length Nat.ltb Nat.leb fst snd nth]; reflexivity.
Qed.

Lemma DecodeRune_sz3 p0 t x :
  first p0 = x -> In x [s2; s3; s4] ->
  DecodeRune (p0 :: t) =
    match t with
    | b1 :: b2 :: _ =>
        if bad (acceptRanges (Z.shiftr x 4)) b1 then (RuneError, 1%nat)
        else if bad (locb, hicb) b2 then (RuneError, 1%nat)
        else (rune3 p0 b1 b2, 3%nat)
    | _ => (RuneError, 1%nat)
    end.
Proof.
  intros H Hx. unfold DecodeRune. cbn [at_ nth length]. rewrite H.
  assert (E : (as_ <=? x) = false /\ Z.to_nat (Z.land x 7) = 3%nat)
    by (destruct Hx as [<-|[<-|[<-|[]]]]; split; reflexivity).
  destruct E as [-> ->].
  destruct t as [|b1 [|b2 t]]; cbn [length Nat.ltb Nat.leb fst snd nth]; reflexivity.
Qed.

Lemma DecodeRune_sz4 p0 t x :
  first p0 = x -> In x [s5; s6; s7] ->
  DecodeRune (p0 :: t) =
    match t with
    | b1 :: b2 :: b3 :: _ =>
        if bad (acceptRanges (Z.shiftr x 4)) b1 then (RuneError, 1%nat)
        else if bad (locb, hicb) b2 then (RuneError, 1%nat)
        else if bad (locb, hicb) b3 then (RuneError, 1%nat)
        else (rune4 p0 b1 b2 b3, 4%nat)
    | _ => (RuneError, 1%nat)
    end.
Proof.
  intros H Hx. unfold DecodeRune. cbn [at_ nth length]. rewrite H.
  assert (E : (as_ <=? x) = false /\ Z.to_nat (Z.land x 7) = 4%nat)
    by (destruct Hx as [<-|[<-|[<-|[]]]]; split; reflexivity).
  destruct E as [-> ->].
  destruct t as [|b1 [|b2 [|b3 t]]]; cbn [length Nat.ltb Nat.leb fst snd nth]; reflexivity.
Qed.

Lemma cont_bytes_complete (P : byte -> bool) :
  forallb P cont_bytes = true ->
  forall b, bad (locb, hicb) b = false -> P b = true.
Proof.
  intros H b Hb.
  assert (G : bad (locb, hicb) b || P b = true).
  { apply (all_bytes_complete (fun b => bad (locb, hicb) b || P b)).
    unfold cont_bytes in H. rewrite forallb_forall in H |- *.
    intros x Hx. destruct (bad (locb, hicb) x) eqn:E; [reflexivity|].
    apply H, filter_In. now rewrite E. }
  now rewrite Hb in G.
Qed.

Lemma space_rune_ok_1 : forallb (fun b0 => space_rune_ok [b0]) all_bytes = true.
Proof. vm_compute. reflexivity. Qed.

Lemma space_rune_ok_2 :
  forallb (fun b0 =>
             if Z.land (first b0) 7 =? 2 then
               forallb (fun b1 => space_rune_ok [b0; b1]) cont_bytes
             else true) all_bytes = true.
Proof. vm_compute. reflexivity. Qed.

Lemma space_rune_ok_3 :
  forallb (fun b0 =>
             if Z.land (first b0) 7 =? 3 then
               forallb (fun b1 =>
                          forallb (fun b2 => space_rune_ok [b0; b1; b2])
                                  cont_bytes) cont_bytes
             else true) all_bytes = true.
Proof. vm_compute. reflexivity. Qed.

Lemma accept_cont x b :
  In x [s1; s2; s3; s4; s5; s6; s7] ->
  bad (acceptRanges (Z.shiftr x 4)) b = false -> bad (locb, hicb) b = false.
Proof.
  intros Hx. unfold bad.
  assert (E : locb <= fst (acceptRanges (Z.shiftr x 4)) /\
              snd (acceptRanges (Z.shiftr x 4)) <= hicb).
  { repeat (destruct Hx as [<-|Hx]; [vm_compute; split; discriminate|]).
    destruct Hx. }
  destruct E as [E1 E2]. intros H. apply orb_false_elim in H as [H1 H2].
  apply Z.ltb_ge in H1, H2.
  apply orb_false_intro; apply Z.ltb_ge; cbn [fst snd]; lia.
Qed.

Lemma land_le_l a b : 0 <= a -> Z.land a b <= a.
Proof.
  intros Ha. pose proof (Zbitwise.Z.sub_land_same_l a b) as E.
  assert (0 <= Z.land a (Z.lnot b)) by (apply Z.land_nonneg; auto).
  lia.
Qed.

Lemma land_mask x m : 0 <= m -> 0 <= Z.land x m <= m.
Proof.
  intros Hm. split; [apply Z.land_nonneg; auto|].
  rewrite Z.land_comm. now apply land_le_l.
Qed.

Lemma lor_bounds a b :
  0 <= a -> 0 <= b -> a <= Z.lor a b /\ b <= Z.lor a b /\ Z.lor a b <= a + b.
Proof.
  intros Ha Hb. pose proof (Zbitwise.Z.add_lor_land a b) as E.
  pose proof (land_le_l a b Ha). pose proof (land_le_l b a Hb).
  rewrite Z.land_comm in H0.
  assert (0 <= Z.land a b) by (apply Z.land_nonneg; auto).
  lia.
Qed.

Lemma IsSpace_big r : 0x3000 < r < 2 ^ 32 -> unicode.IsSpace r = false.
Proof.
  intros H. unfold unicode.IsSpace, uint32, unicode.MaxLatin1.
  rewrite Z.mod_small by lia.
  destruct (Z.leb_spec r 0xFF); [lia|].
  destruct (Z.leb_spec r 0x3000); [lia|]. reflexivity.
Qed.

Lemma rune4_big p0 b1 b2 b3 x :
  first p0 = x -> In x [s5; s6; s7] ->
  bad (acceptRanges (Z.shiftr x 4)) b1 = false ->
  0x3000 < rune4 p0 b1 b2 b3 < 2 ^ 32.
Proof.
  intros H Hx Hb.
  assert (A : 1 <= Z.land (u8 p0) mask4 \/ 16 <= Z.land (u8 b1) maskx).
  { assert (P0 : ((first p0 =? s5) || (1 <=? Z.land (u8 p0) mask4)) = true).
    { destruct Hx as [<-|Hx]; [now rewrite H, Z.eqb_refl|].
      revert H.
      assert (G : (negb ((first p0 =? s6) || (first p0 =? s7)) ||
                   ((first p0 =? s5) || (1 <=? Z.land (u8 p0) mask4))) = true)
        by (apply (all_bytes_complete
                     (fun p0 => negb ((first p0 =? s6) || (first p0 =? s7)) ||
                                ((first p0 =? s5) ||
                                 (1 <=? Z.land (u8 p0) mask4))));
            vm_compute; reflexivity).
      intros H. rewrite H in G |- *.
      destruct Hx as [<-|[<-|[]]]; exact G. }
    apply orb_prop in P0 as [P0|P0].
    - right. apply Z.eqb_eq in P0. rewrite H in P0. rewrite P0 in Hb.
      change (acceptRanges (Z.shiftr s5 4)) with (0x90, hicb) in Hb.
      assert (G : (bad (0x90, hicb) b1 || (16 <=? Z.land (u8 b1) maskx)) = true)
        by (apply (all_bytes_complete
                     (fun b1 => bad (0x90, hicb) b1 ||
                                (16 <=? Z.land (u8 b1) maskx)));
            vm_compute; reflexivity).
      rewrite Hb in G. now apply Z.leb_le in G.
    - left. now apply Z.leb_le in P0. }
  unfold rune4.
  pose proof (land_mask (u8 p0) mask4 ltac:(discriminate)) as B0.
  pose proof (land_mask (u8 b1) maskx ltac:(discriminate)) as B1.
  pose proof (land_mask (u8 b2) maskx ltac:(discriminate)) as B2.
  pose proof (land_mask (u8 b3) maskx ltac:(discriminate)) as B3.
  rewrite !Z.shiftl_mul_pow2 by discriminate.
  set (a := Z.land (u8 p0) mask4) in *. set (b := Z.land (u8 b1) maskx) in *.
  set (c := Z.land (u8 b2) maskx) in *. set (d := Z.land (u8 b3) maskx) in *.
  unfold mask4, maskx in *.
  pose proof (lor_bounds (a * 2 ^ 18) (b * 2 ^ 12) ltac:(lia) ltac:(lia)) as L1.
  pose proof (lor_bounds (Z.lor (a * 2 ^ 18) (b * 2 ^ 12)) (c * 2 ^ 6)
                         ltac:(lia) ltac:(lia)) as L2.
  pose proof (lor_bounds (Z.lor (Z.lor (a * 2 ^ 18) (b * 2 ^ 12)) (c * 2 ^ 6)) d
                         ltac:(lia) ltac:(lia)) as L3.
  lia.
Qed.

Lemma starts_with_spec e : forall s,
  starts_with e s = true <-> exists rest, s = e ++ rest.
Proof.
  induction e as [|a e IH]; intros s; cbn.
  - split; [intros _; now exists s | reflexivity].
  - destruct s as [|b s].
    + split; [discriminate | intros [rest H]; discriminate].
    + split.
      * intros H. apply andb_prop in H as [H1 H2].
        apply Byte.byte_dec_bl in H1. apply IH in H2 as [rest ->].
        exists rest. now subst.
      * intros [rest H]. injection H as -> ->.
        apply andb_true_intro. split; [now apply Byte.byte_dec_lb|].
        apply IH. now exists rest.
Qed.

Lemma first_ascii b : u8 b < RuneSelf -> first b = as_.
Proof.
  intros H. unfold first. cbv zeta.
  destruct (Z.ltb_spec (u8 b) 128); [reflexivity|]. unfold RuneSelf in H. lia.
Qed.

(** What [space_rune_ok] says, for a list that begins with [q] and is
    decoded as [q] is. *)
Lemma space_rune_ok_elim q t :
  space_rune_ok q = true ->
  DecodeRune (q ++ t) = DecodeRune q ->
  unicode.IsSpace (fst (DecodeRune (q ++ t))) = true ->
  exists e rest,
    In e white_space /\ q ++ t = e ++ rest /\
    snd (DecodeRune (q ++ t)) = length e.
Proof.
  unfold space_rune_ok. intros H E S. rewrite E in S |- *.
  destruct (DecodeRune q) as [r sz]. cbn [fst snd] in *. rewrite S in H.
  cbn [implb] in H. apply existsb_exists in H as (e & He & H).
  apply andb_prop in H as [H1 H2]. apply starts_with_spec in H1 as [rest ->].
  apply Nat.eqb_eq in H2. exists e, (rest ++ t).
  rewrite <- app_assoc. auto.
Qed.

Lemma IsSpace_RuneError : unicode.IsSpace RuneError = false.
Proof. reflexivity. Qed.

Lemma DecodeRune_space_sz3 p0 t x :
  first p0 = x -> In x [s2; s3; s4] ->
  unicode.IsSpace (fst (DecodeRune (p0 :: t))) = true ->
  exists e rest,
    In e white_space /\ p0 :: t = e ++ rest /\
    snd (DecodeRune (p0 :: t)) = length e.
Proof.
  intros F X.
  pose proof (all_bytes_complete _ space_rune_ok_3 p0) as K3. cbv beta in K3.
  assert (E : (Z.land (first p0) 7 =? 3) = true)
    by (rewrite F; destruct X as [<-|[<-|[<-|[]]]]; reflexivity).
  rewrite E in K3.
  assert (A : In x [s1; s2; s3; s4; s5; s6; s7])
    by (destruct X as [<-|[<-|[<-|[]]]]; cbn; auto 8).
  rewrite (DecodeRune_sz3 _ t _ F X).
  destruct t as [|b1 [|b2 t]]; try discriminate.
  destruct (bad (acceptRanges (Z.shiftr x 4)) b1) eqn:B1; [discriminate|].
  destruct (bad (locb, hicb) b2) eqn:B2; [discriminate|].
  assert (D : forall t', DecodeRune (p0 :: b1 :: b2 :: t') =
                         (rune3 p0 b1 b2, 3%nat))
    by (intros t'; now rewrite (DecodeRune_sz3 _ _ _ F X), B1, B2).
  rewrite <- (D t).
  apply (space_rune_ok_elim [p0; b1; b2] t).
  - apply (cont_bytes_complete
             (fun b2 => space_rune_ok [p0; b1; b2])); [|exact B2].
    apply (cont_bytes_complete
             (fun b1 => forallb (fun b2 => space_rune_ok [p0; b1; b2])
                                cont_bytes)); [exact K3|].
    exact (accept_cont _ _ A B1).
  - cbn [app]. now rewrite !D.
Qed.

Lemma DecodeRune_space_sz4 p0 t x :
  first p0 = x -> In x [s5; s6; s7] ->
  unicode.IsSpace (fst (DecodeRune (p0 :: t))) = false.
Proof.
  intros F X. rewrite (DecodeRune_sz4 _ t _ F X).
  destruct t as [|b1 [|b2 [|b3 t]]]; try reflexivity.
  destruct (bad (acceptRanges (Z.shiftr x 4)) b1) eqn:B1; [reflexivity|].
  destruct (bad (locb, hicb) b2); [reflexivity|].
  destruct (bad (locb, hicb) b3); [reflexivity|].
  apply IsSpace_big. exact (rune4_big _ _ b2 b3 _ F X B1).
Qed.

(** A rune that is white space was decoded from an entry of
    [white_space]. *)
Lemma DecodeRune_space p :
  unicode.IsSpace (fst (DecodeRune p)) = true ->
  exists e rest,
    In e white_space /\ p = e ++ rest /\ snd (DecodeRune p) = length e.
Proof.
  destruct p as [|p0 t]; [discriminate|].
  pose proof (all_bytes_complete _ space_rune_ok_1 p0) as K1.
  pose proof (all_bytes_complete _ space_rune_ok_2 p0) as K2.
  cbv beta in K1, K2.
  destruct (first_cases p0)
    as [[F _]|[F|[F|[F|[F|[F|[[F _]|[[F _]|[F _]]]]]]]]].
  - apply (space_rune_ok_elim [p0] t K1). cbn [app].
    now rewrite (DecodeRune_as _ t), (DecodeRune_as _ []).
  - apply (space_rune_ok_elim [p0] t K1). cbn [app].
    now rewrite (DecodeRune_xx _ t), (DecodeRune_xx _ []).
  - rewrite F in K2. change (Z.land s1 7 =? 2) with true in K2. cbv iota in K2.
    destruct t as [|b1 t].
    + now apply (space_rune_ok_elim [p0] [] K1).
    + rewrite (DecodeRune_sz2 _ _ F).
      destruct (bad (locb, hicb) b1) eqn:B1; [discriminate|].
      assert (D : forall t', DecodeRune (p0 :: b1 :: t') = (rune2 p0 b1, 2%nat))
        by (intros t'; now rewrite (DecodeRune_sz2 _ _ F), B1).
      rewrite <- (D t).
      apply (space_rune_ok_elim [p0; b1] t).
      * now apply (cont_bytes_complete _ K2).
      * cbn [app]. now rewrite !D.
  - apply (DecodeRune_space_sz3 _ _ _ F). cbn; auto.
  - apply (DecodeRune_space_sz3 _ _ _ F). cbn; auto.
  - apply (DecodeRune_space_sz3 _ _ _ F). cbn; auto.
  - intros H. rewrite (DecodeRune_space_sz4 _ _ _ F) in H; [discriminate|].
    cbn; auto.
  - intros H. rewrite (DecodeRune_space_sz4 _ _ _ F) in H; [discriminate|].
    cbn; auto.
  - intros H. rewrite (DecodeRune_space_sz4 _ _ _ F) in H; [discriminate|].
    cbn; auto.
Qed.

(** An entry of [white_space] is decoded as a white-space rune of its
    length, whatever follows it. *)
Lemma white_space_decodes e rest :
  In e white_space ->
  exists r, DecodeRune (e ++ rest) = (r, length e) /\
            unicode.IsSpace r = true.
Proof.
  intros H. unfold white_space in H.
  repeat (destruct H as [<-|H];
          [eexists; split; [vm_compute; reflexivity|reflexivity]|]).
  destruct H.
Qed.

(** The four ways [DecodeRune] goes, by the first byte. *)
Lemma lead_cases p0 :
  (exists r, forall t, DecodeRune (p0 :: t) = (r, 1%nat)) \/
  first p0 = s1 \/
  (exists x, first p0 = x /\ In x [s2; s3; s4]) \/
  (exists x, first p0 = x /\ In x [s5; s6; s7]).
Proof.
  destruct (first_cases p0)
    as [[F _]|[F|[F|[F|[F|[F|[[F _]|[[F _]|[F _]]]]]]]]].
  - left. exists (u8 p0). intros t. now apply DecodeRune_as.
  - left. exists RuneError. intros t. now apply DecodeRune_xx.
  - auto.
  - right; right; left. exists s2. cbn; auto.
  - right; right; left. exists s3. cbn; auto.
  - right; right; left. exists s4. cbn; auto.
  - right; right; right. exists s5. cbn; auto.
  - right; right; right. exists s6. cbn; auto.
  - right; right; right. exists s7. cbn; auto.
Qed.

Lemma accept_bad x b :
  In x [s1; s2; s3; s4; s5; s6; s7] ->
  bad (locb, hicb) b = true -> bad (acceptRanges (Z.shiftr x 4)) b = true.
Proof.
  intros Hx Hb. destruct (bad (acceptRanges (Z.shiftr x 4)) b) eqn:E; [reflexivity|].
  rewrite (accept_cont _ _ Hx E) in Hb. discriminate.
Qed.

(** The width decoded is at least one and at most the number of bytes. *)
Lemma DecodeRune_width p0 t :
  (1 <= snd (DecodeRune (p0 :: t)) <= S (length t))%nat.
Proof.
  destruct (lead_cases p0) as [[r F]|[F|[(x & F & X)|(x & F & X)]]].
  - rewrite F. cbn. lia.
  - rewrite (DecodeRune_sz2 _ _ F).
    destruct t as [|b1 t]; [cbn; lia|].
    destruct (bad _ b1); cbn; lia.
  - rewrite (DecodeRune_sz3 _ _ _ F X).
    destruct t as [|b1 [|b2 t]]; try (cbn; lia).
    destruct (bad _ b1); [cbn; lia|]. destruct (bad _ b2); cbn; lia.
  - rewrite (DecodeRune_sz4 _ _ _ F X).
    destruct t as [|b1 [|b2 [|b3 t]]]; try (cbn; lia).
    destruct (bad _ b1); [cbn; lia|]. destruct (bad _ b2); [cbn; lia|].
    destruct (bad _ b3); cbn; lia.
Qed.

(** A rune of several bytes that fills [q] is decoded the same with
    anything after it. *)
Lemma DecodeRune_ext q r n rest :
  DecodeRune q = (r, n) -> n = length q -> (2 <= n)%nat ->
  DecodeRune (q ++ rest) = (r, n).
Proof.
  destruct q as [|p0 t]; [cbn; intros; lia|].
  intros D L N. cbn [app]. revert D.
  destruct (lead_cases p0) as [[r1 F]|[F|[(x & F & X)|(x & F & X)]]].
  - rewrite !F. intros [= <- <-]. lia.
  - rewrite !(DecodeRune_sz2 _ _ F).
    destruct t as [|b1 t]; [intros [= <- <-]; lia|]. cbn [app].
    destruct (bad _ b1); [intros [= <- <-]; lia|]. auto.
  - rewrite !(DecodeRune_sz3 _ _ _ F X).
    destruct t as [|b1 [|b2 t]]; try (intros [= <- <-]; lia). cbn [app].
    destruct (bad _ b1); [intros [= <- <-]; lia|].
    destruct (bad _ b2); [intros [= <- <-]; lia|]. auto.
  - rewrite !(DecodeRune_sz4 _ _ _ F X).
    destruct t as [|b1 [|b2 [|b3 t]]]; try (intros [= <- <-]; lia). cbn [app].
    destruct (bad _ b1); [intros [= <- <-]; lia|].
    destruct (bad _ b2); [intros [= <- <-]; lia|].
    destruct (bad _ b3); [intros [= <- <-]; lia|]. auto.
Qed.

(** A byte that no continuation byte follows is decoded with width one. *)
Lemma DecodeRune_lone p0 rest :
  match rest with [] => True | c :: _ => bad (locb, hicb) c = true end ->
  snd (DecodeRune (p0 :: rest)) = 1%nat.
Proof.
  intros H.
  destruct (lead_cases p0) as [[r1 F]|[F|[(x & F & X)|(x & F & X)]]].
  - now rewrite F.
  - rewrite (DecodeRune_sz2 _ _ F). destruct rest as [|c t]; [reflexivity|].
    now rewrite H.
  - rewrite (DecodeRune_sz3 _ _ _ F X).
    destruct rest as [|c [|c2 t]]; try reflexivity.
    rewrite accept_bad; [reflexivity| |exact H].
    destruct X as [<-|[<-|[<-|[]]]]; cbn; auto 8.
  - rewrite (DecodeRune_sz4 _ _ _ F X).
    destruct rest as [|c [|c2 [|c3 t]]]; try reflexivity.
    rewrite accept_bad; [reflexivity| |exact H].
    destruct X as [<-|[<-|[<-|[]]]]; cbn; auto 8.
Qed.

(** A rune of several bytes begins with a byte that is not ASCII. *)
Lemma DecodeRune_multi_lead p0 t :
  (2 <= snd (DecodeRune (p0 :: t)))%nat -> RuneSelf <= u8 p0.
Proof.
  intros H. destruct (Z.lt_ge_cases (u8 p0) RuneSelf) as [A|A]; [|exact A].
  rewrite (DecodeRune_as _ _ (first_ascii _ A)) in H. cbn in H. lia.
Qed.

(** The entries of [white_space], by their shape. *)
Lemma white_space_shape e :
  In e white_space ->
  (exists c, e = [c] /\ u8 c < RuneSelf /\ bytes.asciiSpace c = true) \/
  (exists l c1, e = [l; c1] /\ RuneStart l = true /\ RuneStart c1 = false /\
                RuneSelf <= u8 l /\ RuneSelf <= u8 c1) \/
  (exists l c1 c2, e = [l; c1; c2] /\ RuneStart l = true /\
                   RuneStart c1 = false /\ RuneStart c2 = false /\
                   RuneSelf <= u8 l /\ RuneSelf <= u8 c2).
Proof.
  intros H. unfold white_space in H.
  repeat (destruct H as [<-|H];
          [first
             [ left; eexists; split; [reflexivity|];
               split; [reflexivity|reflexivity]
             | right; left; eexists _, _; split; [reflexivity|];
               repeat split; try reflexivity; discriminate
             | right; right; eexists _, _, _; split; [reflexivity|];
               repeat split; try reflexivity; discriminate ]|]).
  destruct H.
Qed.

(** The first byte of an entry of [white_space] is not a continuation
    byte. *)
Lemma white_space_head e rest :
  In e white_space ->
  match e ++ rest with [] => True | c :: _ => bad (locb, hicb) c = true end.
Proof.
  intros H. unfold white_space in H.
  repeat (destruct H as [<-|H]; [reflexivity|]). destruct H.
Qed.

(** ** Decoding backwards *)

Lemma scanStart_bounds k : forall p z,
  z - Z.of_nat k <= scanStart p k z <= z.
Proof.
  induction k as [|k IH]; intros p z; cbn [scanStart]; [lia|].
  destruct (RuneStart _); [lia|]. specialize (IH p (z - 1)). lia.
Qed.

Lemma slice_to_end p start :
  slice p start (length p) = skipn start p.
Proof.
  unfold slice. apply firstn_all2. rewrite length_skipn. lia.
Qed.

Lemma skipn_last p :
  p <> [] -> skipn (length p - 1) p = [at_ p (length p - 1)].
Proof.
  intros H. destruct (exists_last H) as (pre & c & ->).
  rewrite length_app. cbn [length].
  replace (length pre + 1 - 1)%nat with (length pre) by lia.
  unfold at_. rewrite skipn_app, skipn_all, Nat.sub_diag, app_nth2, Nat.sub_diag
    by lia.
  reflexivity.
Qed.

(** The three outcomes of [DecodeLastRune] on a sequence that is not
    empty: an ASCII byte, a byte that ends no rune, a rune decoded from
    the last [size] bytes. *)
Lemma DecodeLastRune_cases p :
  p <> [] ->
  let c := at_ p (length p - 1) in
  (1 <= snd (DecodeLastRune p) <= length p)%nat /\
  (u8 c < RuneSelf /\ DecodeLastRune p = (u8 c, 1%nat) \/
   RuneSelf <= u8 c /\ DecodeLastRune p = (RuneError, 1%nat) \/
   RuneSelf <= u8 c /\
   DecodeRune (skipn (length p - snd (DecodeLastRune p)) p) = DecodeLastRune p).
Proof.
  intros Hp c.
  assert (L : (1 <= length p)%nat) by (destruct p; [easy|cbn; lia]).
  unfold DecodeLastRune.
  destruct (Nat.eqb_spec (length p) 0) as [E|_]; [lia|]. cbv zeta. fold c.
  destruct (Z.ltb_spec (u8 c) RuneSelf) as [A|A]; [cbn; split; [lia|auto]|].
  set (k := Z.to_nat (_ - Z.max 0 _)).
  set (start := Z.to_nat (Z.max 0 (scanStart p k _))).
  assert (St : (start < length p)%nat).
  { subst start.
    pose proof (scanStart_bounds k p (Z.of_nat (length p - 1) - 1)). lia. }
  rewrite slice_to_end.
  destruct (DecodeRune (skipn start p)) as [r size] eqn:D.
  destruct (Nat.eqb_spec (start + size) (length p)) as [E|E]; cbn [negb fst snd].
  - assert (W : (1 <= size)%nat).
    { destruct (skipn start p) as [|p0 t] eqn:K.
      - apply (f_equal (@length _)) in K. rewrite length_skipn in K. cbn in K. lia.
      - pose proof (DecodeRune_width p0 t) as W. rewrite D in W. cbn in W. lia. }
    split; [lia|]. right; right. split; [exact A|].
    replace (length p - size)%nat with start by lia. exact D.
  - split; [lia|]. right; left. auto.
Qed.

Lemma DecodeLastRune_ascii p :
  p <> [] -> u8 (at_ p (length p - 1)) < RuneSelf ->
  DecodeLastRune p = (u8 (at_ p (length p - 1)), 1%nat).
Proof.
  intros Hp A. destruct (DecodeLastRune_cases p Hp) as [_ [[_ H]|[[B _]|[B _]]]];
    [exact H|lia|lia].
Qed.

(** A rune that is white space was decoded from an entry of
    [white_space] at the end. *)
Lemma DecodeLastRune_space p :
  p <> [] ->
  unicode.IsSpace (fst (DecodeLastRune p)) = true ->
  exists pre e,
    In e white_space /\ p = pre ++ e /\ snd (DecodeLastRune p) = length e.
Proof.
  intros Hp S.
  destruct (DecodeLastRune_cases p Hp) as [W [[A H]|[[_ H]|[_ H]]]].
  - rewrite H in S |- *. cbn [fst snd] in *.
    pose proof (DecodeRune_as _ [] (first_ascii _ A)) as D.
    destruct (DecodeRune_space [at_ p (length p - 1)]) as (e & rest & He & E & Le).
    { now rewrite D. }
    rewrite D in Le. cbn in Le.
    assert (rest = []) as ->.
    { apply (f_equal (@length _)) in E. rewrite length_app in E. cbn in E.
      destruct rest; [reflexivity|cbn in E; lia]. }
    rewrite app_nil_r in E. exists (firstn (length p - 1) p), e.
    repeat split; auto.
    rewrite <- E, <- (skipn_last p Hp). symmetry. apply firstn_skipn.
  - rewrite H in S. discriminate.
  - set (size := snd (DecodeLastRune p)) in *.
    destruct (DecodeRune_space (skipn (length p - size) p))
      as (e & rest & He & E & Le).
    { now rewrite H. }
    rewrite H in Le. fold size in Le.
    assert (rest = []) as ->.
    { apply (f_equal (@length _)) in E.
      rewrite length_app, length_skipn in E.
      destruct rest; [reflexivity|cbn in E; lia]. }
    rewrite app_nil_r in E. exists (firstn (length p - size) p), e.
    repeat split; auto. rewrite <- E. symmetry. apply firstn_skipn.
Qed.

Lemma at_app_r pre l i : at_ (pre ++ l) (length pre + i) = at_ l i.
Proof. unfold at_. apply app_nth2_plus. Qed.

Lemma slice_app_r pre e :
  slice (pre ++ e) (length pre) (length pre + length e) = e.
Proof.
  unfold slice. rewrite skipn_app, skipn_all, Nat.sub_diag.
  cbn [app skipn]. replace (length pre + length e - length pre)%nat
    with (length e) by lia.
  apply firstn_all.
Qed.

(** An entry of [white_space] at the end is decoded, backwards, as a
    white-space rune of its length. *)
Lemma white_space_decodes_last pre e :
  In e white_space ->
  exists r, DecodeLastRune (pre ++ e) = (r, length e) /\
            unicode.IsSpace r = true.
Proof.
  intros He.
  destruct (white_space_decodes e [] He) as (r & D & Sp).
  rewrite app_nil_r in D. exists r. split; [|exact Sp].
  assert (Hp : pre ++ e <> []).
  { destruct (white_space_shape e He) as [(c & -> & _)|[(l & c1 & -> & _)|
      (l & c1 & c2 & -> & _)]]; now destruct pre. }
  destruct (white_space_shape e He)
    as [(c & -> & A & _)|[(l & c1 & -> & R0 & R1 & _ & A)|
        (l & c1 & c2 & -> & R0 & R1 & R2 & _ & A)]].
  - pose proof (DecodeLastRune_ascii (pre ++ [c]) Hp) as H.
    rewrite length_app in H. cbn [length] in H.
    replace (length pre + 1 - 1)%nat with (length pre + 0)%nat in H by lia.
    rewrite at_app_r in H. cbn [at_ nth] in H.
    rewrite (H A). rewrite (DecodeRune_as _ [] (first_ascii _ A)) in D.
    now injection D as <-.
  - unfold DecodeLastRune. rewrite length_app. cbn [length].
    destruct (Nat.eqb_spec (length pre + 2) 0) as [E|_]; [lia|]. cbv zeta.
    replace (length pre + 2 - 1)%nat with (length pre + 1)%nat by lia.
    rewrite at_app_r. cbn [at_ nth].
    destruct (Z.ltb_spec (u8 c1) RuneSelf) as [B|_]; [lia|].
    set (k := Z.to_nat (_ - Z.max 0 _)).
    assert (K : exists k', k = S k').
    { subst k. unfold UTFMax.
      destruct (Z.to_nat _) eqn:E; [lia|eauto]. }
    destruct K as [k' ->]. cbn [scanStart].
    replace (Z.to_nat (Z.of_nat (length pre + 1) - 1))
      with (length pre + 0)%nat by lia.
    rewrite at_app_r. cbn [at_ nth]. rewrite R0.
    replace (Z.to_nat (Z.max 0 (Z.of_nat (length pre + 1) - 1)))
      with (length pre) by lia.
    change (length pre + 2)%nat with (length pre + length [l; c1])%nat.
    rewrite (slice_app_r pre [l; c1]), D. cbn [length].
    now rewrite Nat.eqb_refl.
  - unfold DecodeLastRune. rewrite length_app. cbn [length].
    destruct (Nat.eqb_spec (length pre + 3) 0) as [E|_]; [lia|]. cbv zeta.
    replace (length pre + 3 - 1)%nat with (length pre + 2)%nat by lia.
    rewrite at_app_r. cbn [at_ nth].
    destruct (Z.ltb_spec (u8 c2) RuneSelf) as [B|_]; [lia|].
    set (k := Z.to_nat (_ - Z.max 0 _)).
    assert (K : exists k', k = S (S k')).
    { subst k. unfold UTFMax.
      destruct (Z.to_nat _) as [|[|k']] eqn:E; [lia|lia|eauto]. }
    destruct K as [k' ->]. cbn [scanStart].
    replace (Z.to_nat (Z.of_nat (length pre + 2) - 1))
      with (length pre + 1)%nat by lia.
    rewrite at_app_r. cbn [at_ nth]. rewrite R1.
    replace (Z.to_nat (Z.of_nat (length pre + 2) - 1 - 1))
      with (length pre + 0)%nat by lia.
    rewrite at_app_r. cbn [at_ nth]. rewrite R0.
    replace (Z.to_nat (Z.max 0 (Z.of_nat (length pre + 2) - 1 - 1)))
      with (length pre) by lia.
    change (length pre + 3)%nat with (length pre + length [l; c1; c2])%nat.
    rewrite (slice_app_r pre [l; c1; c2]), D. cbn [length].
    now rewrite Nat.eqb_refl.
Qed.

(** ** White space at the ends of a sequence *)

Lemma spaces_app a b : spaces a -> spaces b -> spaces (a ++ b).
Proof.
  induction 1 as [|e rest He _ IH]; intros Hb; [exact Hb|].
  rewrite <- app_assoc. constructor; auto.
Qed.

Lemma spaces_one e : In e white_space -> spaces e.
Proof.
  intros H. rewrite <- (app_nil_r e). constructor; [exact H|constructor].
Qed.

Lemma spaces_head s :
  spaces s ->
  match s with [] => True | c :: _ => bad (locb, hicb) c = true end.
Proof.
  induction 1 as [|e rest He _ IH]; [exact I|].
  pose proof (white_space_head e rest He) as H.
  exact H.
Qed.

Lemma has_space_prefix_true s :
  has_space_prefix s = true <->
  exists e rest, In e white_space /\ s = e ++ rest.
Proof.
  unfold has_space_prefix. rewrite existsb_exists. split.
  - intros (e & He & H). apply starts_with_spec in H as [rest ->]. eauto.
  - intros (e & rest & He & ->). exists e. split; [exact He|].
    apply starts_with_spec. eauto.
Qed.

Lemma has_space_suffix_true s :
  has_space_suffix s = true <->
  exists pre e, In e white_space /\ s = pre ++ e.
Proof.
  unfold has_space_suffix. rewrite existsb_exists. split.
  - intros (e & He & H). apply starts_with_spec in H as [rest H].
    exists (rev rest), e. split; [exact He|].
    rewrite <- (rev_involutive s), H, rev_app_distr, rev_involutive.
    reflexivity.
  - intros (pre & e & He & ->). exists e. split; [exact He|].
    apply starts_with_spec. exists (rev pre). apply rev_app_distr.
Qed.

Lemma has_space_prefix_false s :
  (forall e rest, In e white_space -> s <> e ++ rest) ->
  has_space_prefix s = false.
Proof.
  intros H. destruct (has_space_prefix s) eqn:E; [|reflexivity].
  apply has_space_prefix_true in E as (e & rest & He & ->).
  now destruct (H e rest He).
Qed.

Lemma has_space_suffix_false s :
  (forall pre e, In e white_space -> s <> pre ++ e) ->
  has_space_suffix s = false.
Proof.
  intros H. destruct (has_space_suffix s) eqn:E; [|reflexivity].
  apply has_space_suffix_true in E as (pre & e & He & ->).
  now destruct (H pre e He).
Qed.

(** A sequence whose first rune is not white space has no white space
    in front; one whose last rune is not white space has none behind. *)
Lemma no_space_rune_no_prefix s :
  unicode.IsSpace (fst (DecodeRune s)) = false -> has_space_prefix s = false.
Proof.
  intros H. apply has_space_prefix_false. intros e rest He ->.
  destruct (white_space_decodes e rest He) as (r & D & Sp).
  rewrite D in H. cbn in H. congruence.
Qed.

Lemma no_space_rune_no_suffix s :
  unicode.IsSpace (fst (DecodeLastRune s)) = false ->
  has_space_suffix s = false.
Proof.
  intros H. apply has_space_suffix_false. intros pre e He ->.
  destruct (white_space_decodes_last pre e He) as (r & D & Sp).
  rewrite D in H. cbn in H. congruence.
Qed.

(** ** Slices *)

Lemma skipn_at s start :
  (start < length s)%nat ->
  skipn start s = at_ s start :: skipn (S start) s.
Proof.
  revert start. induction s as [|a s IH]; intros start H; [cbn in H; lia|].
  destruct start as [|start]; [reflexivity|].
  cbn [skipn]. cbn in H. rewrite IH by lia. reflexivity.
Qed.

Lemma slice_nil s a : slice s a a = [].
Proof. unfold slice. now rewrite Nat.sub_diag. Qed.

Lemma slice_0 s k : slice s 0 k = firstn k s.
Proof. unfold slice. now rewrite Nat.sub_0_r. Qed.

Lemma slice_app s a b c :
  (a <= b <= c)%nat -> (c <= length s)%nat ->
  slice s a c = slice s a b ++ slice s b c.
Proof.
  intros H L. unfold slice.
  rewrite <- (firstn_skipn (b - a) (skipn a s)) at 1.
  rewrite firstn_app, firstn_firstn, length_firstn, length_skipn, skipn_skipn.
  replace (Nat.min (c - a) (b - a)) with (b - a)%nat by lia.
  replace (b - a + a)%nat with b by lia.
  replace (c - a - Nat.min (b - a) (length s - a))%nat with (c - b)%nat by lia.
  reflexivity.
Qed.

Lemma skipn_slice s a b :
  (a <= b <= length s)%nat -> skipn a s = slice s a b ++ skipn b s.
Proof.
  intros H. rewrite <- !slice_to_end. apply slice_app; lia.
Qed.

Lemma firstn_slice s a b :
  (a <= b <= length s)%nat -> firstn b s = firstn a s ++ slice s a b.
Proof.
  intros H. rewrite <- !slice_0. apply slice_app; lia.
Qed.

Lemma slice_length s a b :
  (a <= b <= length s)%nat -> length (slice s a b) = (b - a)%nat.
Proof.
  intros H. unfold slice. rewrite length_firstn, length_skipn. lia.
Qed.

Lemma skipn_firstn_slice s a b : skipn a (firstn b s) = slice s a b.
Proof. unfold slice. apply skipn_firstn_comm. Qed.

Lemma at_firstn s i n : (i < n)%nat -> at_ (firstn n s) i = at_ s i.
Proof. intros H. unfold at_. now apply nth_firstn_lt || (rewrite nth_firstn; destruct (Nat.ltb_spec i n); [reflexivity|lia]). Qed.

(** ** bytes.TrimLeftFunc and bytes.TrimRightFunc with unicode.IsSpace *)

Import bytes.

(** What one iteration of [indexFunc] decodes is the first rune of the
    rest. *)
Lemma indexFunc_step s start :
  (start < length s)%nat ->
  (if RuneSelf <=? u8 (at_ s start) then DecodeRune (skipn start s)
   else (u8 (at_ s start), 1%nat)) = DecodeRune (skipn start s).
Proof.
  intros H. destruct (Z.leb_spec RuneSelf (u8 (at_ s start))) as [A|A];
    [reflexivity|].
  rewrite (skipn_at _ _ H). symmetry. apply DecodeRune_as. now apply first_ascii.
Qed.

Lemma indexFunc_loop_spec fuel : forall s start,
  (length s - start <= fuel)%nat -> (start <= length s)%nat ->
  (indexFunc_loop fuel s unicode.IsSpace false start = -1 /\
   spaces (skipn start s)) \/
  (exists k,
     indexFunc_loop fuel s unicode.IsSpace false start = Z.of_nat k /\
     (start <= k < length s)%nat /\
     spaces (slice s start k) /\
     has_space_prefix (skipn k s) = false).
Proof.
  induction fuel as [|fuel IH]; intros s start F L; cbn [indexFunc_loop].
  - left. split; [reflexivity|]. rewrite skipn_all2 by lia. constructor.
  - destruct (Nat.ltb_spec start (length s)) as [Lt|Ge].
    2:{ left. split; [reflexivity|]. rewrite skipn_all2 by lia. constructor. }
    rewrite (indexFunc_step _ _ Lt).
    destruct (DecodeRune (skipn start s)) as [r wid] eqn:D.
    destruct (unicode.IsSpace r) eqn:Sp; cbn [Bool.eqb].
    + destruct (DecodeRune_space (skipn start s)) as (e & rest & He & E & Le).
      { now rewrite D. }
      rewrite D in Le. cbn [snd] in Le.
      assert (Ln : (1 <= length e)%nat).
      { destruct (white_space_shape e He)
          as [(c & -> & _)|[(l & c1 & -> & _)|(l & c1 & c2 & -> & _)]];
          cbn; lia. }
      assert (Lr : (start + wid <= length s)%nat).
      { apply (f_equal (@length _)) in E.
        rewrite length_app, length_skipn in E. lia. }
      assert (Er : skipn (start + wid) s = rest).
      { rewrite Nat.add_comm, <- skipn_skipn, E, Le, skipn_app, skipn_all,
          Nat.sub_diag.
        reflexivity. }
      assert (Es : slice s start (start + wid) = e).
      { unfold slice. rewrite E.
        replace (start + wid - start)%nat with (length e) by lia.
        rewrite firstn_app, firstn_all, Nat.sub_diag. cbn.
        apply app_nil_r. }
      destruct (IH s (start + wid)%nat ltac:(lia) Lr)
        as [[R Hs]|(k & R & Hk & Hs & Hp)].
      * left. split; [exact R|]. rewrite E. constructor; [exact He|].
        now rewrite <- Er.
      * right. exists k. split; [exact R|]. split; [lia|]. split; [|exact Hp].
        rewrite (slice_app s start (start + wid) k) by lia.
        rewrite Es. constructor; [exact He|exact Hs].
    + right. exists start. split; [reflexivity|]. split; [lia|].
      rewrite slice_nil. split; [constructor|].
      apply no_space_rune_no_prefix. now rewrite D.
Qed.

(** [TrimLeftFunc(s, unicode.IsSpace)] removes white space in front, and
    all of it. *)
Lemma TrimLeftFunc_spec s :
  exists pre,
    s = pre ++ TrimLeftFunc s unicode.IsSpace /\ spaces pre /\
    has_space_prefix (TrimLeftFunc s unicode.IsSpace) = false.
Proof.
  unfold TrimLeftFunc, indexFunc.
  destruct (indexFunc_loop_spec (length s) s 0 ltac:(lia) ltac:(lia))
    as [[R Hs]|(k & R & Hk & Hs & Hp)]; rewrite R.
  - exists s. cbn. rewrite app_nil_r. auto.
  - destruct (Z.eqb_spec (Z.of_nat k) (-1)) as [E|_]; [lia|].
    rewrite Nat2Z.id. exists (firstn k s).
    rewrite firstn_skipn, <- slice_0. auto.
Qed.

(** What one iteration of [lastIndexFunc] decodes is the last rune of
    [s[0:i]]. *)
Lemma lastIndexFunc_step s i :
  (0 < i <= length s)%nat ->
  (if RuneSelf <=? u8 (at_ s (i - 1)) then DecodeLastRune (slice s 0 i)
   else (u8 (at_ s (i - 1)), 1%nat)) = DecodeLastRune (firstn i s).
Proof.
  intros H. rewrite slice_0.
  destruct (Z.leb_spec RuneSelf (u8 (at_ s (i - 1)))) as [A|A];
    [reflexivity|].
  assert (Hl : length (firstn i s) = i) by (rewrite length_firstn; lia).
  assert (Hp : firstn i s <> []).
  { intros E. rewrite E in Hl. cbn in Hl. lia. }
  pose proof (DecodeLastRune_ascii _ Hp) as D.
  rewrite Hl, at_firstn in D by lia. symmetry. now apply D.
Qed.

Lemma lastIndexFunc_loop_spec fuel : forall s i,
  (i <= fuel)%nat -> (i <= length s)%nat ->
  (lastIndexFunc_loop fuel s unicode.IsSpace false i = -1 /\
   spaces (firstn i s)) \/
  (exists k sz,
     lastIndexFunc_loop fuel s unicode.IsSpace false i = Z.of_nat k /\
     (1 <= sz)%nat /\ (k + sz <= i)%nat /\
     spaces (slice s (k + sz) i) /\
     has_space_suffix (firstn (k + sz) s) = false /\
     redecodes s k sz).
Proof.
  induction fuel as [|fuel IH]; intros s i F L; cbn [lastIndexFunc_loop].
  - left. split; [reflexivity|]. replace i with 0%nat by lia. constructor.
  - destruct (Nat.ltb_spec 0 i) as [Lt|Ge].
    2:{ left. split; [reflexivity|]. replace i with 0%nat by lia. constructor. }
    rewrite (lastIndexFunc_step s i) by lia.
    assert (Hl : length (firstn i s) = i) by (rewrite length_firstn; lia).
    assert (Hp : firstn i s <> []).
    { intros E. rewrite E in Hl. cbn in Hl. lia. }
    destruct (DecodeLastRune_cases _ Hp) as [W C]. rewrite Hl in W, C.
    rewrite at_firstn in C by lia.
    destruct (DecodeLastRune (firstn i s)) as [r size] eqn:D.
    cbn [fst snd] in W, C.
    destruct (unicode.IsSpace r) eqn:Sp; cbn [Bool.eqb].
    + destruct (DecodeLastRune_space _ Hp) as (pre & e & He & E & Le).
      { now rewrite D. }
      rewrite D in Le. cbn [snd] in Le.
      assert (Es : slice s (i - size) i = e).
      { rewrite <- skipn_firstn_slice, E.
        apply (f_equal (@length _)) in E. rewrite Hl, length_app in E.
        replace (i - size)%nat with (length pre) by lia.
        now rewrite skipn_app, skipn_all, Nat.sub_diag. }
      destruct (IH s (i - size)%nat ltac:(lia) ltac:(lia))
        as [[R Hs]|(k & sz & R & Hz & Hk & Hs & Hx & Hr)].
      * left. split; [exact R|].
        rewrite (firstn_slice s (i - size) i) by lia.
        apply spaces_app; [exact Hs|]. rewrite Es. now apply spaces_one.
      * right. exists k, sz. split; [exact R|]. split; [exact Hz|].
        split; [lia|]. split; [|auto].
        rewrite (slice_app s (k + sz) (i - size) i) by lia.
        apply spaces_app; [exact Hs|]. rewrite Es. now apply spaces_one.
    + right. exists (i - size)%nat, size. split; [reflexivity|].
      split; [lia|]. split; [lia|].
      replace (i - size + size)%nat with i by lia.
      rewrite slice_nil. split; [constructor|].
      split; [apply no_space_rune_no_suffix; now rewrite D|].
      rewrite skipn_firstn_slice in C.
      assert (Hc : length (slice s (i - size) i) = size)
        by (rewrite slice_length; lia).
      unfold redecodes. replace (i - size + size)%nat with i by lia.
      destruct C as [[A [= -> ->]]|[[A [= -> ->]]|[A C]]].
      * split; [reflexivity|]. intros tail Ht.
        destruct (slice s (i - 1) i) as [|c [|c' t]] eqn:K;
          try (cbn in Hc; lia).
        cbn [app]. now apply DecodeRune_lone.
      * split; [reflexivity|]. intros tail Ht.
        destruct (slice s (i - 1) i) as [|c [|c' t]] eqn:K;
          try (cbn in Hc; lia).
        cbn [app]. now apply DecodeRune_lone.
      * destruct (slice s (i - size) i) as [|c t] eqn:K; [cbn in Hc; lia|].
        assert (Hat : at_ s (i - size) = c).
        { assert (E : slice s (i - size) i =
                      at_ s (i - size) :: slice s (S (i - size)) i).
          { unfold slice. rewrite skipn_at by lia.
            replace (i - (i - size))%nat with (S (i - S (i - size))) by lia.
            reflexivity. }
          rewrite K in E. now injection E as ->. }
        split.
        -- intros B. rewrite Hat in B.
           pose proof (DecodeRune_as _ t (first_ascii _ B)) as Da.
           rewrite Da in C. now injection C as _ <-.
        -- intros tail Ht.
           destruct (Nat.le_gt_cases 2 size) as [G|G].
           ++ now rewrite (DecodeRune_ext _ _ _ tail C (eq_sym Hc) G).
           ++ destruct t as [|c' t]; [|cbn in Hc; lia].
              replace size with 1%nat by lia. cbn [app].
              now apply DecodeRune_lone.
Qed.

(** [TrimRightFunc(s, unicode.IsSpace)] removes white space behind, and
    all of it. *)
Lemma TrimRightFunc_spec s :
  exists suf,
    s = TrimRightFunc s unicode.IsSpace ++ suf /\ spaces suf /\
    has_space_suffix (TrimRightFunc s unicode.IsSpace) = false.
Proof.
  unfold TrimRightFunc, lastIndexFunc.
  destruct (lastIndexFunc_loop_spec (length s) s (length s) ltac:(lia)
              ltac:(lia))
    as [[R Hs]|(k & sz & R & Hz & Hk & Hs & Hx & Hr1 & Hr2)]; rewrite R.
  - cbn [Z.leb andb Z.compare]. change (Z.to_nat (-1 + 1)) with 0%nat.
    rewrite slice_nil. exists s. rewrite firstn_all in Hs. auto.
  - rewrite slice_to_end in Hs. rewrite Nat2Z.id.
    assert (E : (if (0 <=? Z.of_nat k) && (RuneSelf <=? u8 (at_ s k))
                 then Z.of_nat k +
                      Z.of_nat (snd (DecodeRune (skipn k s)))
                 else Z.of_nat k + 1) = Z.of_nat (k + sz)).
    { destruct (Z.leb_spec 0 (Z.of_nat k)) as [_|B]; [|lia]. cbn [andb].
      destruct (Z.leb_spec RuneSelf (u8 (at_ s k))) as [A|A].
      - rewrite (skipn_slice s k (k + sz)) by lia.
        rewrite (Hr2 _ (spaces_head _ Hs)). lia.
      - rewrite (Hr1 A). lia. }
    rewrite E, Nat2Z.id, slice_0. exists (skipn (k + sz) s).
    rewrite firstn_skipn. auto.
Qed.

(** *** The loops end within the iterations they are given *)

(** [indexFunc] and [lastIndexFunc] move by at least one byte in each
    iteration; with [len(s)] iterations or more the result is the
    same. *)
Lemma indexFunc_loop_fuel f truth s n : forall fuel1 fuel2 start,
  (length s - start <= n)%nat -> (n <= fuel1)%nat -> (n <= fuel2)%nat ->
  indexFunc_loop fuel1 s f truth start = indexFunc_loop fuel2 s f truth start.
Proof.
  induction n as [|n IH]; intros fuel1 fuel2 start L F1 F2.
  - destruct fuel1, fuel2; cbn [indexFunc_loop]; try reflexivity;
      destruct (Nat.ltb_spec start (length s)); try reflexivity; lia.
  - destruct fuel1 as [|fuel1]; [lia|]. destruct fuel2 as [|fuel2]; [lia|].
    cbn [indexFunc_loop].
    destruct (Nat.ltb_spec start (length s)) as [Lt|Ge]; [|reflexivity].
    rewrite (indexFunc_step _ _ Lt).
    rewrite (skipn_at _ _ Lt).
    pose proof (DecodeRune_width (at_ s start) (skipn (S start) s)) as W.
    destruct (DecodeRune _) as [r wid]. cbn [snd] in W.
    destruct (Bool.eqb (f r) truth); [reflexivity|].
    apply IH; lia.
Qed.

Lemma lastIndexFunc_loop_fuel f truth s n : forall fuel1 fuel2 i,
  (i <= n)%nat -> (i <= length s)%nat ->
  (n <= fuel1)%nat -> (n <= fuel2)%nat ->
  lastIndexFunc_loop fuel1 s f truth i = lastIndexFunc_loop fuel2 s f truth i.
Proof.
  induction n as [|n IH]; intros fuel1 fuel2 i L Ls F1 F2.
  - destruct fuel1, fuel2; cbn [lastIndexFunc_loop]; try reflexivity;
      destruct (Nat.ltb_spec 0 i); try reflexivity; lia.
  - destruct fuel1 as [|fuel1]; [lia|]. destruct fuel2 as [|fuel2]; [lia|].
    cbn [lastIndexFunc_loop].
    destruct (Nat.ltb_spec 0 i) as [Lt|Ge]; [|reflexivity].
    rewrite (lastIndexFunc_step s i) by lia.
    assert (Hl : length (firstn i s) = i) by (rewrite length_firstn; lia).
    assert (Hp : firstn i s <> []).
    { intros E. rewrite E in Hl. cbn in Hl. lia. }
    destruct (DecodeLastRune_cases _ Hp) as [W _]. rewrite Hl in W.
    destruct (DecodeLastRune _) as [r size]. cbn [snd] in W.
    destruct (Bool.eqb (f r) truth); [reflexivity|].
    apply IH; lia.
Qed.

(** ** bytes.TrimFunc and bytes.TrimSpace *)

Lemma trimmed_extend a b m t :
  spaces a -> spaces b -> trimmed m t -> trimmed (a ++ m ++ b) t.
Proof.
  intros Ha Hb (pre & suf & -> & Hp & Hs & Np & Ns).
  exists (a ++ pre), (suf ++ b). rewrite <- !app_assoc.
  repeat split; auto using spaces_app.
Qed.

Lemma TrimFunc_spec s : trimmed s (TrimFunc s unicode.IsSpace).
Proof.
  unfold TrimFunc.
  destruct (TrimLeftFunc_spec s) as (pre & E1 & Hp & Np).
  destruct (TrimRightFunc_spec (TrimLeftFunc s unicode.IsSpace))
    as (suf & E2 & Hs & Ns).
  set (t1 := TrimLeftFunc s unicode.IsSpace) in *.
  set (t := TrimRightFunc t1 unicode.IsSpace) in *.
  exists pre, suf. rewrite <- E2. repeat split; auto.
  apply has_space_prefix_false. intros e rest He E.
  assert (X : has_space_prefix t1 = true).
  { apply has_space_prefix_true. exists e, (rest ++ suf).
    split; [exact He|]. now rewrite E2, E, <- app_assoc. }
  congruence.
Qed.

Lemma asciiSpace_white c : asciiSpace c = true -> In [c] white_space.
Proof.
  destruct c; try discriminate; intros _; cbn; auto 10.
Qed.

Lemma IsSpace_ascii c :
  u8 c < RuneSelf -> unicode.IsSpace (u8 c) = asciiSpace c.
Proof.
  intros H.
  assert (G : (RuneSelf <=? u8 c) ||
              Bool.eqb (unicode.IsSpace (u8 c)) (asciiSpace c) = true)
    by (apply (all_bytes_complete
                 (fun c => (RuneSelf <=? u8 c) ||
                           Bool.eqb (unicode.IsSpace (u8 c)) (asciiSpace c)));
        vm_compute; reflexivity).
  destruct (Z.leb_spec RuneSelf (u8 c)) as [A|_]; [lia|].
  now apply eqb_prop in G.
Qed.

Lemma slice_one s i :
  (i < length s)%nat -> slice s i (S i) = [at_ s i].
Proof.
  intros H. unfold slice. rewrite skipn_at by lia.
  replace (S i - i)%nat with 1%nat by lia. reflexivity.
Qed.

Lemma TrimSpace_start_spec k : forall s start,
  (start + k = length s)%nat -> spaces (firstn start s) ->
  match TrimSpace_start s k start with
  | inl t => trimmed s t
  | inr start' =>
      (start <= start' <= length s)%nat /\ spaces (firstn start' s) /\
      ((start' < length s)%nat ->
       u8 (at_ s start') < RuneSelf /\ asciiSpace (at_ s start') = false)
  end.
Proof.
  induction k as [|k IH]; intros s start L Hs; cbn [TrimSpace_start].
  - split; [lia|]. split; [exact Hs|]. lia.
  - destruct (Z.leb_spec RuneSelf (u8 (at_ s start))) as [A|A].
    + rewrite slice_to_end.
      rewrite <- (firstn_skipn start s) at 1.
      rewrite <- (app_nil_r (skipn start s)) at 1.
      apply trimmed_extend; [exact Hs|constructor|apply TrimFunc_spec].
    + destruct (asciiSpace (at_ s start)) eqn:Sp; cbn [negb].
      * assert (H := IH s (S start) ltac:(lia)).
        assert (X : spaces (firstn (S start) s)).
        { rewrite (firstn_slice s start (S start)) by lia.
          apply spaces_app; [exact Hs|]. rewrite slice_one by lia.
          now apply spaces_one, asciiSpace_white. }
        specialize (H X).
        destruct (TrimSpace_start s k (S start)) as [t|start']; [exact H|].
        destruct H as (H1 & H2 & H3). split; [lia|]. auto.
      * split; [lia|]. split; [exact Hs|]. auto.
Qed.

Lemma TrimSpace_stop_spec stop : forall s start,
  (start <= stop <= length s)%nat ->
  spaces (firstn start s) -> spaces (skipn stop s) ->
  match TrimSpace_stop s start stop with
  | inl t => trimmed s t
  | inr stop' =>
      (start <= stop' <= stop)%nat /\ spaces (skipn stop' s) /\
      ((start < stop')%nat ->
       u8 (at_ s (stop' - 1)) < RuneSelf /\
       asciiSpace (at_ s (stop' - 1)) = false)
  end.
Proof.
  induction stop as [|stop IH]; intros s start L Hp Hs; cbn [TrimSpace_stop].
  - split; [lia|]. split; [exact Hs|]. lia.
  - destruct (Nat.ltb_spec start (S stop)) as [Lt|Ge].
    2:{ split; [lia|]. split; [exact Hs|]. lia. }
    destruct (Z.leb_spec RuneSelf (u8 (at_ s stop))) as [A|A].
    + rewrite <- (firstn_skipn start s) at 1.
      rewrite (skipn_slice s start (S stop)) by lia.
      apply trimmed_extend; [exact Hp|exact Hs|apply TrimFunc_spec].
    + destruct (asciiSpace (at_ s stop)) eqn:Sp; cbn [negb].
      * assert (X : spaces (skipn stop s)).
        { rewrite skipn_at by lia.
          apply (spaces_cons [at_ s stop]); [|exact Hs].
          now apply asciiSpace_white. }
        assert (H := IH s start ltac:(lia) Hp X).
        destruct (TrimSpace_stop s start stop) as [t|stop']; [exact H|].
        destruct H as (H1 & H2 & H3). split; [lia|]. auto.
      * split; [lia|]. split; [exact Hs|].
        intros _. replace (S stop - 1)%nat with stop by lia. auto.
Qed.

Lemma at_slice s a b i :
  (a + i < b)%nat -> at_ (slice s a b) i = at_ s (a + i).
Proof.
  intros H. unfold slice, at_.
  rewrite nth_firstn, nth_skipn.
  destruct (Nat.ltb_spec i (b - a)); [reflexivity|lia].
Qed.

(** [bytes.TrimSpace] returns its argument without the white space
    around it. *)
Lemma TrimSpace_spec s : trimmed s (TrimSpace s).
Proof.
  unfold TrimSpace.
  pose proof (TrimSpace_start_spec (length s) s 0 eq_refl spaces_nil) as H1.
  destruct (TrimSpace_start s (length s) 0) as [t|start]; [exact H1|].
  destruct H1 as (L1 & S1 & A1).
  pose proof (TrimSpace_stop_spec (length s) s start ltac:(lia) S1) as H2.
  rewrite skipn_all in H2. specialize (H2 spaces_nil).
  destruct (TrimSpace_stop s start (length s)) as [t|stop]; [exact H2|].
  destruct H2 as (L2 & S2 & A2).
  destruct (Nat.eqb_spec start stop) as [E|E].
  - subst stop. exists (firstn start s), (skipn start s).
    cbn [app]. rewrite firstn_skipn. auto.
  - assert (Lt : (start < stop)%nat) by lia.
    destruct (A1 ltac:(lia)) as [B1 C1]. destruct (A2 Lt) as [B2 C2].
    exists (firstn start s), (skipn stop s).
    split.
    { rewrite <- (firstn_skipn start s) at 1.
      now rewrite (skipn_slice s start stop) by lia. }
    split; [exact S1|]. split; [exact S2|].
    assert (Hl : length (slice s start stop) = (stop - start)%nat)
      by (apply slice_length; lia).
    split.
    + apply no_space_rune_no_prefix.
      assert (K : slice s start stop = at_ s start :: slice s (S start) stop).
      { rewrite (slice_app s start (S start) stop) by lia.
        now rewrite slice_one by lia. }
      rewrite K, (DecodeRune_as _ _ (first_ascii _ B1)). cbn [fst].
      now rewrite IsSpace_ascii.
    + apply no_space_rune_no_suffix.
      assert (Hp : slice s start stop <> []).
      { intros K. rewrite K in Hl. cbn in Hl. lia. }
      pose proof (DecodeLastRune_ascii _ Hp) as D.
      rewrite Hl, at_slice in D by lia.
      replace (start + (stop - start - 1))%nat with (stop - 1)%nat in D by lia.
      rewrite (D B2). cbn [fst]. now rewrite IsSpace_ascii.
Qed.

(** ** bytes.Replace of one byte by another *)

Lemma HasPrefix_one s c :
  HasPrefix s [c] = match s with [] => false | b :: _ => Byte.eqb c b end.
Proof.
  destruct s as [|b s]; [reflexivity|]. cbn. unfold byte_eqb.
  now destruct s; rewrite andb_true_r.
Qed.

Lemma Index_one c s :
  Index s [c] = -1 /\ ~ In c s \/
  exists pre post,
    s = pre ++ c :: post /\ ~ In c pre /\ Index s [c] = Z.of_nat (length pre).
Proof.
  induction s as [|b s IH].
  - left. split; [reflexivity|auto].
  - cbn [Index]. rewrite HasPrefix_one.
    destruct (Byte.eqb c b) eqn:E.
    + apply Byte.byte_dec_bl in E. subst b. right. exists [], s. auto.
    + apply Byte.eqb_false in E.
      destruct IH as [[R N]|(pre & post & -> & N & R)]; rewrite R.
      * left. split; [reflexivity|]. intros [H|H]; [now subst|auto].
      * right. exists (b :: pre), post. split; [reflexivity|].
        split; [intros [H|H]; [now subst|auto]|].
        destruct (Z.ltb_spec (Z.of_nat (length pre)) 0); [lia|].
        cbn [length]. lia.
Qed.

Lemma Count_loop_one c fuel : forall s n,
  (length s < fuel)%nat ->
  Count_loop fuel s [c] n = n + Z.of_nat (count_occ Byte.byte_eq_dec s c).
Proof.
  induction fuel as [|fuel IH]; intros s n L; [lia|]. cbn [Count_loop].
  destruct (Index_one c s) as [[R N]|(pre & post & -> & N & R)]; rewrite R.
  - cbn. apply (count_occ_not_In Byte.byte_eq_dec) in N. rewrite N. lia.
  - destruct (Z.eqb_spec (Z.of_nat (length pre)) (-1)) as [E|_]; [lia|].
    rewrite Nat2Z.id. cbn [length].
    replace (length pre + 1)%nat with (length (pre ++ [c]))
      by (rewrite length_app; reflexivity).
    replace (pre ++ c :: post) with ((pre ++ [c]) ++ post)
      by (now rewrite <- app_assoc).
    rewrite skipn_app, skipn_all, Nat.sub_diag. cbn [app skipn].
    rewrite IH by (rewrite !length_app in L; cbn in L; lia).
    rewrite !count_occ_app. apply (count_occ_not_In Byte.byte_eq_dec) in N.
    rewrite N. cbn.
    destruct (Byte.byte_eq_dec c c); [lia|congruence].
Qed.

Lemma map_replace_absent c d s :
  ~ In c s -> map (fun b => if Byte.eqb b c then d else b) s = s.
Proof.
  induction s as [|b s IH]; intros N; [reflexivity|]. cbn.
  destruct (Byte.eqb b c) eqn:E.
  - apply Byte.byte_dec_bl in E. subst b. destruct N. now left.
  - rewrite IH; [reflexivity|]. intros H. apply N. now right.
Qed.

Lemma Replace_loop_one c d k : forall i s start,
  (start <= length s)%nat ->
  count_occ Byte.byte_eq_dec (skipn start s) c = k ->
  Replace_loop k i s start [c] [d] =
    map (fun b => if Byte.eqb b c then d else b) (skipn start s).
Proof.
  induction k as [|k IH]; intros i s start L C; cbn [Replace_loop].
  - apply (count_occ_not_In Byte.byte_eq_dec) in C.
    now rewrite map_replace_absent.
  - cbn [length Nat.eqb].
    destruct (Index_one c (skipn start s)) as [[R N]|(pre & post & E & N & R)].
    + apply (count_occ_not_In Byte.byte_eq_dec) in N. lia.
    + rewrite R.
      replace (Z.to_nat (Z.of_nat start + Z.of_nat (length pre)))
        with (start + length pre)%nat by lia.
      assert (Ll : (start + length pre + 1 <= length s)%nat).
      { apply (f_equal (@length _)) in E.
        rewrite length_skipn, length_app in E. cbn in E. lia. }
      assert (E1 : slice s start (start + length pre) = pre).
      { unfold slice. rewrite E.
        replace (start + length pre - start)%nat with (length pre) by lia.
        rewrite firstn_app, firstn_all, Nat.sub_diag. cbn. apply app_nil_r. }
      assert (E2 : skipn (start + length pre + 1) s = post).
      { replace (start + length pre + 1)%nat
          with (length (pre ++ [c]) + start)%nat
          by (rewrite length_app; cbn; lia).
        rewrite <- skipn_skipn, E.
        replace (pre ++ c :: post) with ((pre ++ [c]) ++ post)
          by (now rewrite <- app_assoc).
        now rewrite skipn_app, skipn_all, Nat.sub_diag. }
      rewrite E1, IH; [|lia|].
      * rewrite E2, E, map_app, (map_replace_absent _ _ _ N). cbn [map app].
        now rewrite (@Byte.byte_dec_lb c c eq_refl).
      * rewrite E2. rewrite E, count_occ_app in C.
        apply (count_occ_not_In Byte.byte_eq_dec) in N.
        rewrite N in C.
        cbn in C. destruct (Byte.byte_eq_dec c c); [lia|congruence].
Qed.

(** [bytes.Replace(s, newline, space, -1)] turns every line break of [s]
    into a space and leaves the other bytes. *)
Lemma Replace_newline s :
  Replace s newline space (-1) = map newline_to_space s.
Proof.
  unfold Replace, newline, space, Count. cbn [length Nat.eqb Z.eqb].
  rewrite Count_loop_one by lia. cbn [Z.add].
  set (k := count_occ Byte.byte_eq_dec s x0a).
  destruct (Z.eqb_spec (Z.of_nat k) 0) as [E|E].
  - symmetry. apply map_replace_absent.
    apply (count_occ_not_In Byte.byte_eq_dec). subst k. lia.
  - cbn [Z.ltb Z.compare orb]. rewrite Nat2Z.id.
    now rewrite (Replace_loop_one x0a x20 k 0 s 0 ltac:(lia) eq_refl).
Qed.

(** ** Normalization *)

Lemma white_space_nonempty e : In e white_space -> e <> [].
Proof.
  intros He.
  destruct (white_space_shape e He)
    as [(c & -> & _)|[(l & c1 & -> & _)|(l & c1 & c2 & -> & _)]]; discriminate.
Qed.

Lemma spaces_last s :
  spaces s -> s = [] \/ exists pre e, In e white_space /\ s = pre ++ e.
Proof.
  induction 1 as [|e rest He _ IH]; [now left|]. right.
  destruct IH as [->|(pre & e' & He' & ->)].
  - exists [], e. rewrite app_nil_r. auto.
  - exists (e ++ pre), e'. rewrite <- app_assoc. auto.
Qed.

(** A sequence with no white space around it is what trimming leaves
    of it. *)
Lemma trimmed_fixed s t :
  trimmed s t -> has_space_prefix s = false -> has_space_suffix s = false ->
  t = s.
Proof.
  intros (pre & suf & -> & Hp & Hs & _) Np Ns.
  destruct Hp as [|e rest He _].
  - destruct (spaces_last _ Hs) as [->|(pre & e & He & ->)].
    + cbn. now rewrite app_nil_r.
    + assert (X : has_space_suffix ([] ++ t ++ pre ++ e) = true).
      { apply has_space_suffix_true. exists (t ++ pre), e.
        split; [exact He|]. cbn. now rewrite <- app_assoc. }
      congruence.
  - assert (X : has_space_prefix ((e ++ rest) ++ t ++ suf) = true).
    { apply has_space_prefix_true. exists e, (rest ++ t ++ suf).
      split; [exact He|]. now rewrite <- app_assoc. }
    congruence.
Qed.

Lemma newline_in_white_space : In [x0a] white_space.
Proof. cbn. auto. Qed.

(** A normalized message has no line break at all. *)
Lemma normalized_no_newline s : normalized s -> ~ In x0a s.
Proof.
  intros (Hi & Np & Ns) H.
  destruct s as [|a t]; [exact H|].
  destruct H as [->|H].
  - assert (X : has_space_prefix (x0a :: t) = true)
      by (apply has_space_prefix_true; exists [x0a], t;
          split; [apply newline_in_white_space|reflexivity]).
    congruence.
  - assert (Ht : t <> []) by (intros ->; exact H).
    destruct (exists_last Ht) as (mid & z & ->).
    apply in_app_or in H as [H|[->|[]]].
    + unfold no_interior_newline, interior in Hi. cbn [tl] in Hi.
      rewrite removelast_last in Hi.
      rewrite forallb_forall in Hi. specialize (Hi _ H). discriminate.
    + assert (X : has_space_suffix (a :: mid ++ [x0a]) = true)
        by (apply has_space_suffix_true; exists (a :: mid), [x0a];
            split; [apply newline_in_white_space|reflexivity]).
      congruence.
Qed.

Lemma newline_to_space_no_newline s : ~ In x0a (map newline_to_space s).
Proof.
  intros H. apply in_map_iff in H as (b & E & _). unfold newline_to_space in E.
  destruct (Byte.eqb b x0a) eqn:B; [discriminate|].
  apply Byte.eqb_false in B. congruence.
Qed.

(** ** C1 *)

(** C1.  Every payload that [readPump] reads is handed to the hub
    normalized, in order.  The normalized message is the payload with
    every line break turned into a space and with the white space around
    it removed: white space only is removed, in front and behind, none
    is left at either end, and no line break is left anywhere.  For the
    bytes of ["  hello\nworld  \n"] the message broadcast is
    ["hello world"]. *)
Theorem ingress_normalization :
  (forall tape w,
     broadcasts (events (readPump tape w)) =
       map normalize (reads_ok (events (readPump tape w)))) /\
  (forall message,
     normalize message = bytes.TrimSpace (map newline_to_space message)) /\
  (forall message,
     trimmed (map newline_to_space message) (normalize message)) /\
  (forall message, ~ In x0a (normalize message)) /\
  normalize hello_raw = hello_normalized /\
  broadcasts
    (events (readPump
               [mkArrival [] (Some (1, Data websocket.TextMessage hello_raw))]
               world_idle)) = [hello_normalized].
Proof.
  assert (N : forall message,
             normalize message = bytes.TrimSpace (map newline_to_space message))
    by (intros message; unfold normalize; now rewrite Replace_newline).
  assert (T : forall message,
             trimmed (map newline_to_space message) (normalize message))
    by (intros message; rewrite N; apply TrimSpace_spec).
  split; [|split; [exact N|split; [exact T|split; [|split; reflexivity]]]].
  - intros tape w.
    destruct (readPump_run tape w) as (w' & body & msg & err & R & _ & _ & B & _).
    rewrite R. cbn [events snd].
    destruct (logged_quiet err) as (_ & _ & Bl & Rl).
    rewrite !broadcasts_app, !reads_ok_app.
    change (EvReadMessage msg (Some err) :: logged err)
      with ([EvReadMessage msg (Some err)] ++ logged err).
    rewrite !broadcasts_app, !reads_ok_app, Bl, Rl, B. cbn.
    now rewrite !app_nil_r.
  - intros message H. destruct (T message) as (pre & suf & E & _).
    apply (newline_to_space_no_newline message). rewrite E.
    apply in_or_app. right. apply in_or_app. now left.
Qed.

(** ** C2 *)

(** C2.  A message with no line break inside and no white space in front
    or behind is left as it is by the normalization of [readPump]. *)
Theorem normalize_fixes_normalized (s : list byte) :
  normalized s -> normalize s = s.
Proof.
  intros H. pose proof (normalized_no_newline s H) as N.
  destruct H as (_ & Np & Ns).
  unfold normalize. rewrite Replace_newline.
  assert (E : map newline_to_space s = s) by (now apply map_replace_absent).
  rewrite E. apply trimmed_fixed; [apply TrimSpace_spec|exact Np|exact Ns].
Qed.

Lemma normalize_fixes_normalized_witness :
  normalized hello_normalized /\ normalize hello_normalized = hello_normalized.
Proof.
  assert (H : normalized hello_normalized)
    by (repeat split; reflexivity).
  split; [exact H|]. apply (normalize_fixes_normalized hello_normalized H).
Defined.

(** * The write pump, wake-up by wake-up *)

Ltac same_events :=
  repeat (progress (cbn [app]; rewrite ?app_nil_r, <- ?app_assoc));
  reflexivity.


(** A tick: the ping, and then the next wake-up unless the ping failed. *)
Lemma writePump_loop_tick t wakes w :
  let w0 := set_now (Z.max (now w) t) w in
  let d := time.Add (now w0) writeWait in
  let w1 := set_netTape (tl (netTape w)) (set_writeDeadline (Some d) w0) in
  let evs := [EvSetWriteDeadline d;
              EvWriteMessage websocket.PingMessage [] (hd None (netTape w))] in
  writePump_loop (WakeTick t :: wakes) w =
    match hd None (netTape w) with
    | Some _ => (Done tt, w1, evs)
    | None =>
        (result (writePump_loop wakes w1), world (writePump_loop wakes w1),
         evs ++ events (writePump_loop wakes w1))
    end.
Proof.
  intros w0 d w1 evs. cbn [writePump_loop].
  pose proof (writePump_tick_run w0) as T. fold d in T.
  change (netTape w0) with (netTape w) in T. fold w1 in T. fold evs in T.
  destruct (hd None (netTape w)) as [e|].
  - eapply run_events_eq;
      [eapply bind_eq; [reflexivity|eapply bind_eq; [exact T|reflexivity]]|].
    cbn [app]. now rewrite app_nil_r.
  - eapply run_events_eq;
      [eapply bind_eq; [reflexivity|eapply bind_eq; [exact T|apply run_eta]]|].
    reflexivity.
Qed.

(** The drain always comes to its end. *)
Lemma writePump_coalesce_run w :
  writePump_coalesce w =
    (Done tt, world (writePump_coalesce w), events (writePump_coalesce w)).
Proof.
  destruct (coalesce_spec w) as (w' & evs & q & C & _). now rewrite C.
Qed.

Lemma hub_sync_run w :
  hub_sync w = (Done tt, world (hub_sync w), events (hub_sync w)).
Proof.
  destruct (hub_sync_spec w) as (w' & evs & H & _). now rewrite H.
Qed.

(** The branch of the receive with a message in hand. *)
Lemma writePump_message_run message w :
  let d := time.Add (now w) writeWait in
  let w2 := set_writeDeadline (Some d) w in
  let w3 := set_netTape (tl (tl (netTape w))) w2 in
  let c := writePump_coalesce w3 in
  let w4 := world c in
  writePump_message message true w =
    match hd None (netTape w) with
    | Some e =>
        (Done Return, set_netTape (tl (netTape w)) w2,
         [EvSetWriteDeadline d; EvNextWriter websocket.TextMessage (Some e)])
    | None =>
        (Done (match hd None (netTape w4) with
               | Some _ => Return
               | None => Continue
               end),
         set_netTape (tl (netTape w4)) w4,
         [EvSetWriteDeadline d; EvNextWriter websocket.TextMessage None;
          EvWrite message (hd None (tl (netTape w)))] ++
         events c ++ [EvWriterClose (hd None (netTape w4))])
    end.
Proof.
  intros d w2 w3 c w4. unfold writePump_message. cbn [negb].
  destruct (hd None (netTape w)) as [e|] eqn:E.
  - eapply run_events_eq.
    + eapply bind_eq; [reflexivity|].
      eapply bind_eq; [reflexivity|].
      eapply bind_eq; [reflexivity|].
      cbn [netTape set_writeDeadline]. rewrite E. reflexivity.
    + cbn [app netTape set_writeDeadline]. now rewrite E.
  - eapply run_events_eq.
    + eapply bind_eq; [reflexivity|].
      eapply bind_eq; [reflexivity|].
      eapply bind_eq; [reflexivity|].
      cbn [netTape set_writeDeadline]. rewrite E.
      eapply bind_eq; [apply w_Write_run|].
      eapply bind_eq; [apply (writePump_coalesce_run w3)|].
      eapply bind_eq; [reflexivity|].
      fold c. fold w4.
      destruct (hd None (netTape w4)); reflexivity.
    + cbn [app netTape set_writeDeadline]. rewrite E. reflexivity.
Qed.

(** A wake-up of the receive: what the hub has done meanwhile, and then
    one of five courses. *)
Lemma writePump_loop_send t wakes w :
  let w0 := set_now (Z.max (now w) t) w in
  let h := hub_sync w0 in
  let w1 := world h in
  let d := time.Add (now w1) writeWait in
  writePump_loop (WakeSend t :: wakes) w =
    match buf (send w1) with
    | [] =>
        if closed (send w1) then
          (Done tt,
           set_netTape (tl (netTape w1)) (set_writeDeadline (Some d) w1),
           events h ++
           [EvRecv [] false; EvSetWriteDeadline d;
            EvWriteMessage websocket.CloseMessage [] (hd None (netTape w1))])
        else (Blocked, w1, events h)
    | m :: rest =>
        let w2 := set_writeDeadline (Some d)
                    (set_send (mkChan rest (closed (send w1))) w1) in
        match hd None (netTape w1) with
        | Some e =>
            (Done tt, set_netTape (tl (netTape w1)) w2,
             events h ++
             [EvRecv m true; EvSetWriteDeadline d;
              EvNextWriter websocket.TextMessage (Some e)])
        | None =>
            let w3 := set_netTape (tl (tl (netTape w1))) w2 in
            let c := writePump_coalesce w3 in
            let w4 := world c in
            let w5 := set_netTape (tl (netTape w4)) w4 in
            let evs :=
              events h ++
              [EvRecv m true; EvSetWriteDeadline d;
               EvNextWriter websocket.TextMessage None;
               EvWrite m (hd None (tl (netTape w1)))] ++
              events c ++ [EvWriterClose (hd None (netTape w4))] in
            match hd None (netTape w4) with
            | Some _ => (Done tt, w5, evs)
            | None =>
                (result (writePump_loop wakes w5),
                 world (writePump_loop wakes w5),
                 evs ++ events (writePump_loop wakes w5))
            end
        end
    end.
Proof.
  intros w0 h w1 d. cbn [writePump_loop].
  pose proof (hub_sync_run w0) as H. fold h in H. fold w1 in H.
  assert (R : recv_send w0 =
              match buf (send w1) with
              | [] =>
                  if closed (send w1)
                  then (Done ([], false), w1, events h ++ [EvRecv [] false])
                  else (Blocked, w1, events h)
              | m :: rest =>
                  (Done (m, true),
                   set_send (mkChan rest (closed (send w1))) w1,
                   events h ++ [EvRecv m true])
              end).
  { unfold recv_send.
    destruct (buf (send w1)) as [|m rest] eqn:B.
    - destruct (closed (send w1)) eqn:C.
      + eapply bind_eq; [exact H|]. unfold bind, get. rewrite B, C. reflexivity.
      + eapply run_events_eq; [eapply bind_eq; [exact H|]|apply app_nil_r].
        unfold bind, get. rewrite B, C. reflexivity.
    - eapply bind_eq; [exact H|]. unfold bind, get. rewrite B. reflexivity. }
  destruct (buf (send w1)) as [|m rest].
  - destruct (closed (send w1)).
    + eapply run_events_eq.
      * eapply bind_eq; [reflexivity|].
        eapply bind_eq; [exact R|].
        eapply bind_eq; [apply writePump_message_closed|reflexivity].
      * same_events.
    + eapply run_events_eq.
      * eapply bind_eq; [reflexivity|]. eapply bind_Blocked. exact R.
      * reflexivity.
  - set (w1' := set_send (mkChan rest (closed (send w1))) w1) in *.
    pose proof (writePump_message_run m w1') as S. cbv zeta in S.
    change (netTape w1') with (netTape w1) in S.
    change (now w1') with (now w1) in S. fold d in S.
    destruct (hd None (netTape w1)) as [e|].
    + eapply run_events_eq.
      * eapply bind_eq; [reflexivity|].
        eapply bind_eq; [exact R|].
        eapply bind_eq; [exact S|reflexivity].
      * same_events.
    + cbv zeta.
      set (c := writePump_coalesce _) in *.
      destruct (hd None (netTape (world c))) as [e|].
      * eapply run_events_eq.
        -- eapply bind_eq; [reflexivity|].
           eapply bind_eq; [exact R|].
           eapply bind_eq; [exact S|reflexivity].
        -- same_events.
      * eapply run_events_eq.
        -- eapply bind_eq; [reflexivity|].
           eapply bind_eq; [exact R|].
           eapply bind_eq; [exact S|apply run_eta].
        -- same_events.
Qed.

(** ** The channel, again *)

Lemma hub_sync_facts w :
  buf (send (world (hub_sync w))) =
    buf (send w) ++ hub_sends (events (hub_sync w)) /\
  forallb hub_event (events (hub_sync w)) = true /\
  netTape (world (hub_sync w)) = netTape w /\
  now (world (hub_sync w)) = now w /\
  ((length (buf (send w)) <= sendCap)%nat ->
   (length (buf (send (world (hub_sync w)))) <= sendCap)%nat).
Proof.
  destruct (hub_sync_spec w) as (w' & evs & H & B & Q & N & C & L).
  rewrite H. cbn [world events fst snd]. auto.
Qed.

Lemma recv_send_run w :
  let h := hub_sync w in
  let w1 := world h in
  recv_send w =
    match buf (send w1) with
    | [] =>
        if closed (send w1)
        then (Done ([], false), w1, events h ++ [EvRecv [] false])
        else (Blocked, w1, events h)
    | m :: rest =>
        (Done (m, true), set_send (mkChan rest (closed (send w1))) w1,
         events h ++ [EvRecv m true])
    end.
Proof.
  intros h w1. pose proof (hub_sync_run w) as H. fold h in H. fold w1 in H.
  unfold recv_send.
  destruct (buf (send w1)) as [|m rest] eqn:B.
  - destruct (closed (send w1)) eqn:C.
    + eapply bind_eq; [exact H|]. unfold bind, get. rewrite B, C. reflexivity.
    + eapply run_events_eq; [eapply bind_eq; [exact H|]|apply app_nil_r].
      unfold bind, get. rewrite B, C. reflexivity.
  - eapply bind_eq; [exact H|]. unfold bind, get. rewrite B. reflexivity.
Qed.

(** ** Events that a projection of the trace does not see *)

Lemma received_app a b : received (a ++ b) = received a ++ received b.
Proof. apply flat_map_app. Qed.

Lemma lens_app a b : lens (a ++ b) = lens a ++ lens b.
Proof. apply flat_map_app. Qed.

Lemma write_deadlines_app a b :
  write_deadlines (a ++ b) = write_deadlines a ++ write_deadlines b.
Proof. apply flat_map_app. Qed.

Lemma hub_events_unseen evs :
  forallb hub_event evs = true ->
  received evs = [] /\ lens evs = [] /\ write_deadlines evs = [] /\
  (forall b rest, payloads b (evs ++ rest) = payloads b rest) /\
  (forall b rest, separators b (evs ++ rest) = separators b rest).
Proof.
  induction evs as [|e evs IH]; cbn [forallb]; [now auto|].
  intros H. apply andb_prop in H as [He H].
  destruct (IH H) as (R & L & D & P & S).
  unfold received, lens, write_deadlines in *.
  destruct e; try discriminate; cbn; auto.
Qed.

(** ** The drain, with everything it does *)

Lemma writePump_drain_run q : forall later w,
  buf (send w) = q ++ later ->
  exists w' evs,
    writePump_drain (length q) w = (Done tt, w', evs) /\
    forallb drain_event evs = true /\
    received evs = q /\
    lens evs = [] /\
    write_deadlines evs = [] /\
    buf (send w') = later ++ hub_sends evs /\
    now w' = now w /\
    ((length (buf (send w)) <= sendCap)%nat ->
     (length (buf (send w')) <= sendCap)%nat) /\
    (forall rest, payloads false (evs ++ rest) = q ++ payloads false rest) /\
    (forall rest,
       separators false (evs ++ rest) =
         repeat newline (length q) ++ separators false rest).
Proof.
  induction q as [|m q IH]; intros later w E.
  - exists w, []. cbn. rewrite app_nil_r. repeat split; auto.
  - cbn [length writePump_drain].
    set (wa := set_netTape (tl (netTape w)) w).
    pose proof (recv_send_run wa) as R. cbv zeta in R.
    destruct (hub_sync_facts wa) as (B & Q & N & C & L).
    set (h := hub_sync wa) in *. set (w1 := world h) in *.
    change (buf (send wa)) with (buf (send w)) in B, L. rewrite E in B.
    cbn [app] in B. rewrite B in R.
    set (w2 := set_send _ w1) in R.
    set (wb := set_netTape (tl (netTape w2)) w2).
    assert (E2 : buf (send wb) = q ++ (later ++ hub_sends (events h)))
      by (cbn; now rewrite app_assoc).
    destruct (IH _ _ E2) as (w3 & evs & D & Dr & Rc & Ln & Wd & B3 & C3 & L3 & P3 & S3).
    destruct (hub_events_unseen _ Q) as (Rh & Lh & Dh & Ph & Sh).
    destruct (hub_events_silent _ Q) as (_ & _ & Dq).
    exists w3,
      ([EvWrite newline (hd None (netTape w))] ++
       (events h ++ [EvRecv m true]) ++
       [EvWrite m (hd None (netTape w2))] ++ evs).
    split.
    { eapply bind_eq; [apply w_Write_run|].
      eapply bind_eq; [exact R|].
      eapply bind_eq; [apply w_Write_run|]. exact D. }
    rewrite !forallb_app, !received_app, !lens_app, !write_deadlines_app,
      !hub_sends_app, Dq, Dr, Rh, Rc, Lh, Ln, Dh, Wd.
    repeat split; auto.
    + rewrite B3. cbn. now rewrite app_nil_r, app_assoc.
    + rewrite C3. cbn. exact C.
    + intros Hc. apply L3. specialize (L Hc). rewrite B in L.
      cbn [length] in L. rewrite E2.
      rewrite <- app_assoc in L. lia.
    + intros rest. rewrite <- !app_assoc. cbn [app payloads].
      rewrite Ph. cbn [app payloads]. now rewrite P3.
    + intros rest. rewrite <- !app_assoc. cbn [app separators repeat].
      rewrite Sh. cbn [app separators]. now rewrite S3.
Qed.

(** Lines 107-111 with everything they do. *)
Lemma coalesce_run w :
  exists w' evs,
    writePump_coalesce w = (Done tt, w', evs) /\
    forallb drain_event evs = true /\
    buf (send w) ++ hub_sends evs = received evs ++ buf (send w') /\
    now w' = now w /\
    write_deadlines evs = [] /\
    ((length (buf (send w)) <= sendCap)%nat ->
     (length (buf (send w')) <= sendCap)%nat /\
     Forall (fun n => (n <= sendCap)%nat) (lens evs)) /\
    (forall rest,
       payloads false (evs ++ rest) = received evs ++ payloads false rest) /\
    (forall rest,
       separators false (evs ++ rest) =
         repeat newline (length (received evs)) ++ separators false rest).
Proof.
  pose proof (hub_sync_run w) as H.
  destruct (hub_sync_facts w) as (B & Q & N & C & L).
  set (h := hub_sync w) in *. set (w1 := world h) in *.
  destruct (writePump_drain_run (buf (send w1)) [] w1 (eq_sym (app_nil_r _)))
    as (w' & evs & D & Dr & Rc & Ln & Wd & B' & C' & L' & P' & S').
  destruct (hub_events_unseen _ Q) as (Rh & Lh & Dh & Ph & Sh).
  destruct (hub_events_silent _ Q) as (_ & _ & Dq).
  exists w', ((events h ++ [EvLen (length (buf (send w1)))]) ++ evs).
  split.
  { unfold writePump_coalesce, len_send.
    eapply bind_eq; [|exact D].
    eapply bind_eq; [exact H|]. reflexivity. }
  rewrite !forallb_app, !received_app, !lens_app, !write_deadlines_app,
    !hub_sends_app, Dq, Dr, Rh, Rc, Lh, Ln, Dh, Wd.
  repeat split; auto.
  - cbn. rewrite B', B. cbn. now rewrite !app_nil_r, <- !app_assoc.
  - congruence.
  - cbn. constructor; [|constructor]. auto.
  - intros rest. rewrite <- !app_assoc, Ph. cbn [app payloads]. apply P'.
  - intros rest. rewrite <- !app_assoc, Sh. cbn [app separators]. apply S'.
Qed.

(** * The write pump: how a run ends *)

Lemma drain_events_calm evs :
  forallb drain_event evs = true ->
  none lifecycle_event evs = true /\ none last_write evs = true /\
  none starts_write evs = true.
Proof.
  induction evs as [|e evs IH]; cbn [forallb]; [now auto|].
  intros H. apply andb_prop in H as [He H]. destruct (IH H) as (A & B & C).
  unfold none in *. cbn [forallb]. rewrite A, B, C.
  destruct e; try discriminate; auto.
Qed.

Lemma hub_events_calm evs :
  forallb hub_event evs = true ->
  none lifecycle_event evs = true /\ none last_write evs = true /\
  none starts_write evs = true.
Proof.
  intros H. apply drain_events_calm. now apply hub_events_silent.
Qed.

Ltac loop_step wakes IH w :=
  induction wakes as [|[t|t] wakes IH]; intros w;
  [|rewrite writePump_loop_send|rewrite writePump_loop_tick]; cbv zeta.

(** The loop of [writePump] ends on the close message or on an error
    that the pump looks at, and on nothing else. *)
Lemma writePump_loop_exit wakes : forall w,
  match result (writePump_loop wakes w) with
  | Done _ =>
      exists body last,
        events (writePump_loop wakes w) = body ++ [last] /\
        none lifecycle_event (body ++ [last]) = true /\
        none last_write body = true /\ last_write last = true
  | Blocked =>
      none lifecycle_event (events (writePump_loop wakes w)) = true /\
      none last_write (events (writePump_loop wakes w)) = true
  end.
Proof.
  loop_step wakes IH w.
  - cbn. auto.
  - destruct (hub_sync_facts (set_now (Z.max (now w) t) w)) as (_ & Q & _).
    set (h := hub_sync _) in *. set (w1 := world h) in *.
    destruct (hub_events_calm _ Q) as (Qa & Qb & _).
    destruct (buf (send w1)) as [|m rest].
    + destruct (closed (send w1)); cbn [result events fst snd]; [|now auto].
      eexists (events h ++ [_; _]), _. split; [same_events|].
      rewrite !none_app, Qa, Qb. cbn. auto.
    + destruct (hd None (netTape w1)) as [e|]; cbn [result events fst snd].
      * eexists (events h ++ [_; _]), _. split; [same_events|].
        rewrite !none_app, Qa, Qb. cbn. auto.
      * set (w3 := set_netTape _ _).
        destruct (coalesce_run w3) as (w4 & cev & C & Dr & _).
        rewrite C. cbn [world events fst snd].
        destruct (drain_events_calm _ Dr) as (Da & Db & _).
        destruct (hd None (netTape w4)) as [e|]; cbn [result events fst snd].
        -- eexists (events h ++ [_; _; _; _] ++ cev), _.
           split; [same_events|].
           rewrite !none_app, Qa, Qb, Da, Db. cbn. auto.
        -- specialize (IH (set_netTape (tl (netTape w4)) w4)).
           destruct (result (writePump_loop wakes _)).
           ++ destruct IH as (body & last & E & La & Lb & Lc). rewrite E.
              rewrite none_app in La. apply andb_prop in La as [La1 La2].
              eexists (events h ++ [_; _; _; _] ++ cev ++ [_] ++ body), last.
              split; [same_events|].
              rewrite !none_app, Qa, Qb, Da, Db, La1, La2, Lb. cbn. auto.
           ++ destruct IH as (La & Lb).
              rewrite !none_app, Qa, Qb, Da, Db, La, Lb. cbn. auto.
  - destruct (hd None (netTape w)) as [e|]; cbn [result events fst snd].
    + exists [EvSetWriteDeadline (time.Add (Z.max (now w) t) writeWait)], 
        (EvWriteMessage websocket.PingMessage [] (Some e)).
      cbn. auto.
    + match goal with |- context [writePump_loop wakes ?x] =>
        specialize (IH x) end.
      destruct (result (writePump_loop wakes _)).
      * destruct IH as (body & last & E & La & Lb & Lc). rewrite E.
        rewrite none_app in La. apply andb_prop in La as [La1 La2].
        eexists ([_; _] ++ body), last.
        split; [same_events|].
        rewrite !none_app, La1, La2, Lb. cbn. auto.
      * destruct IH as (La & Lb).
        rewrite !none_app, La, Lb. cbn. auto.
Qed.

(** * The write pump: the write deadline *)

Lemma guarded_mono evs b : guarded false evs = true -> guarded b evs = true.
Proof.
  destruct evs as [|e evs]; [reflexivity|]. cbn [guarded].
  destruct (starts_write e); [discriminate|]. now destruct b.
Qed.

Lemma guarded_calm a : forall b c,
  none starts_write a = true -> guarded false c = true ->
  guarded b (a ++ c) = true.
Proof.
  induction a as [|e a IH]; intros b c Ha Hc.
  - now apply guarded_mono.
  - cbn in Ha. apply andb_prop in Ha as [He Ha]. cbn [app guarded].
    apply negb_true_iff in He. rewrite He. now apply IH.
Qed.

Lemma writePump_loop_deadlines wakes : forall w,
  guarded false (events (writePump_loop wakes w)) = true /\
  exists k,
    write_deadlines (events (writePump_loop wakes w)) =
      map (fun t => time.Add t writeWait)
          (firstn k (wake_clock (now w) wakes)).
Proof.
  loop_step wakes IH w.
  - split; [reflexivity|]. now exists 0%nat.
  - destruct (hub_sync_facts (set_now (Z.max (now w) t) w))
      as (_ & Q & _ & Hn & _).
    set (h := hub_sync _) in *. set (w1 := world h) in *.
    cbn [now set_now] in Hn. rewrite Hn.
    destruct (hub_events_calm _ Q) as (_ & _ & Qs).
    destruct (hub_events_unseen _ Q) as (_ & _ & Qd & _).
    cbn [wake_clock].
    destruct (buf (send w1)) as [|m rest].
    + destruct (closed (send w1)); cbn [events snd].
      * split; [now apply guarded_calm|]. exists 1%nat.
        rewrite write_deadlines_app, Qd. reflexivity.
      * split; [rewrite <- (app_nil_r (events h)); now apply guarded_calm|].
        exists 0%nat. now rewrite Qd.
    + destruct (hd None (netTape w1)) as [e|]; cbn [events snd].
      * split; [now apply guarded_calm|]. exists 1%nat.
        rewrite write_deadlines_app, Qd. reflexivity.
      * set (w3 := set_netTape _ _).
        destruct (coalesce_run w3) as (w4 & cev & C & Dr & _ & Cn & Cd & _).
        rewrite C. cbn [world events fst snd].
        destruct (drain_events_calm _ Dr) as (_ & _ & Ds).
        change (now w3) with (now w1) in Cn. rewrite Hn in Cn.
        destruct (hd None (netTape w4)) as [e|]; cbn [events snd].
        -- split.
           ++ apply guarded_calm; [exact Qs|]. cbn [app guarded starts_write
                sets_write_deadline andb]. now apply guarded_calm.
           ++ exists 1%nat. rewrite !write_deadlines_app, Qd, Cd. reflexivity.
        -- destruct (IH (set_netTape (tl (netTape w4)) w4)) as (G & k & D).
           change (now (set_netTape (tl (netTape w4)) w4)) with (now w4) in D.
           rewrite Cn in D. split.
           ++ rewrite <- app_assoc.
              apply guarded_calm; [exact Qs|]. cbn [app guarded starts_write
                sets_write_deadline andb]. rewrite <- !app_assoc.
              apply guarded_calm; [exact Ds|]. exact G.
           ++ exists (S k). rewrite !write_deadlines_app, Qd, Cd, D. reflexivity.
  - cbn [wake_clock now set_now].
    destruct (hd None (netTape w)) as [e|]; cbn [events snd].
    + split; [reflexivity|]. now exists 1%nat.
    + match goal with |- context [writePump_loop wakes ?x] =>
        destruct (IH x) as (G & k & D) end.
      cbn [now set_now set_netTape set_writeDeadline] in D. split.
      * cbn [app guarded starts_write sets_write_deadline andb]. exact G.
      * exists (S k). rewrite write_deadlines_app, D. reflexivity.
Qed.

(** * The write pump: the queue and what is written *)

Lemma repeat_app' {A} (x : A) n m : repeat x n ++ repeat x m = repeat x (n + m).
Proof. symmetry. apply repeat_app. Qed.

Lemma writePump_loop_queue wakes : forall w,
  let r := writePump_loop wakes w in
  buf (send w) ++ hub_sends (events r) =
    received (events r) ++ buf (send (world r)) /\
  ((length (buf (send w)) <= sendCap)%nat ->
   (length (buf (send (world r))) <= sendCap)%nat /\
   Forall (fun n => (n <= sendCap)%nat) (lens (events r))) /\
  (exists lost,
     received (events r) = payloads false (events r) ++ lost /\
     (lost = [] \/
      exists pre m d e,
        lost = [m] /\ result r = Done tt /\
        events r = pre ++ [EvRecv m true; EvSetWriteDeadline d;
                           EvNextWriter websocket.TextMessage (Some e)])) /\
  exists k, separators false (events r) = repeat newline k.
Proof.
  loop_step wakes IH w.
  - cbn. rewrite app_nil_r. repeat split; auto.
    + exists []. auto.
    + now exists 0%nat.
  - destruct (hub_sync_facts (set_now (Z.max (now w) t) w))
      as (B & Q & _ & _ & L).
    set (h := hub_sync _) in *. set (w1 := world h) in *.
    change (buf (send (set_now (Z.max (now w) t) w))) with (buf (send w))
      in B, L.
    destruct (hub_events_unseen _ Q) as (Rh & Lh & _ & Ph & Sh).
    assert (Lr : (length (buf (send w)) <= sendCap)%nat ->
                 (length (buf (send w1)) <= sendCap)%nat) by exact L.
    clear L. revert Lr B.
    destruct (buf (send w1)) as [|m rest] eqn:E; intros Lr B.
    + destruct (closed (send w1)); cbn [result world events fst snd].
      * rewrite hub_sends_app, received_app, lens_app, Ph, Sh, Rh, Lh.
        change (buf (send (set_netTape _ _))) with (buf (send w1)).
        change (hub_sends [_; _; _]) with (@nil (list byte)).
        rewrite E, app_nil_r, <- B. cbn [app]. repeat split; auto.
        -- exists []. auto.
        -- now exists 0%nat.
      * pose proof (Ph false []) as Ph0. pose proof (Sh false []) as Sh0.
        rewrite app_nil_r in Ph0, Sh0.
        rewrite Ph0, Sh0, Rh, Lh, E, app_nil_r, <- B. cbn [app].
        repeat split; auto.
        -- exists []. auto.
        -- now exists 0%nat.
    + assert (Lr' : (length (buf (send w)) <= sendCap)%nat ->
                    (length rest <= sendCap)%nat)
        by (intros Hc; specialize (Lr Hc); cbn in Lr; lia).
      destruct (hd None (netTape w1)) as [e|]; cbn [result world events fst snd].
      * rewrite hub_sends_app, received_app, lens_app, Ph, Sh, Rh, Lh.
        change (buf (send (set_netTape _ _))) with rest.
        change (hub_sends [_; _; _]) with (@nil (list byte)).
        rewrite app_nil_r, <- B. repeat split; auto.
        -- exists [m]. split; [reflexivity|]. right.
           exists (events h), m, (time.Add (now w1) writeWait), e. auto.
        -- now exists 0%nat.
      * set (w3 := set_netTape _ _).
        assert (B3 : buf (send w3) = rest) by reflexivity.
        destruct (coalesce_run w3)
          as (w4 & cev & C & _ & Bc & _ & _ & Lc & Pc & Sc).
        rewrite C. cbn [world events fst snd]. rewrite B3 in Bc, Lc.
        destruct (hd None (netTape w4)) as [e|];
          cbn [result world events fst snd].
        -- rewrite !hub_sends_app, !received_app, !lens_app, Ph, Sh, Rh, Lh.
           cbn [app payloads separators]. rewrite Pc, Sc.
           cbn [app payloads separators].
           change (buf (send (set_netTape _ _))) with (buf (send w4)).
           change (hub_sends [_; _; _; _]) with (@nil (list byte)).
           change (hub_sends [_]) with (@nil (list byte)).
           change (received [EvRecv m true; _; _; _]) with [m].
           change (received [_]) with (@nil (list byte)).
           change (lens [_; _; _; _]) with (@nil nat).
           change (lens [_]) with (@nil nat).
           cbn [app]. rewrite !app_nil_r.
           repeat split.
           ++ rewrite app_assoc, <- B. cbn [app]. now rewrite Bc.
           ++ now apply Lc, Lr'.
           ++ now apply Lc, Lr'.
           ++ exists []. rewrite app_nil_r. auto.
           ++ eexists. reflexivity.
        -- set (w5 := set_netTape (tl (netTape w4)) w4).
           destruct (IH w5) as (Bi & Li & (lost & Pi & Xi) & (k & Si)).
           cbv zeta in Bi, Li, Pi, Xi, Si.
           change (buf (send w5)) with (buf (send w4)) in Bi, Li.
           rewrite <- !app_assoc.
           rewrite !hub_sends_app, !received_app, !lens_app, Ph, Sh, Rh, Lh.
           cbn [app payloads separators].
           rewrite Pc, Sc.
           cbn [app payloads separators].
           change (hub_sends [_; _; _; _]) with (@nil (list byte)).
           change (hub_sends [_]) with (@nil (list byte)).
           change (received [EvRecv m true; _; _; _]) with [m].
           change (received [_]) with (@nil (list byte)).
           change (lens [_; _; _; _]) with (@nil nat).
           change (lens [_]) with (@nil nat).
           cbn [app]. rewrite Si, repeat_app'.
           repeat split.
           ++ rewrite !app_assoc, <- B. cbn [app]. rewrite <- !app_assoc.
              rewrite (app_assoc rest), Bc, <- app_assoc, Bi.
              rewrite <- ?app_assoc. reflexivity.
           ++ now apply Li, Lc, Lr'.
           ++ apply Forall_app. split; [now apply Lc, Lr'|].
              now apply Li, Lc, Lr'.
           ++ exists lost. split.
              ** rewrite Pi. now rewrite <- !app_assoc.
              ** destruct Xi as [->|(pre & m' & d & e & -> & Rr & Er)];
                   [now left|right].
                 eexists (events h ++ [_; _; _; _] ++ cev ++ [_] ++ pre),
                   m', d, e.
                 repeat split; auto. rewrite Er. same_events.
           ++ eexists. reflexivity.
  - destruct (hd None (netTape w)) as [e|]; cbn [result world events fst snd].
    + cbn. rewrite app_nil_r. repeat split; auto.
      * exists []. auto.
      * now exists 0%nat.
    + match goal with |- context [writePump_loop wakes ?x] =>
        destruct (IH x) as (Bi & Li & (lost & Pi & Xi) & (k & Si)) end.
      cbv zeta in Bi, Li, Pi, Xi, Si.
      cbn [send set_netTape set_writeDeadline set_now] in Bi, Li.
      rewrite !hub_sends_app, !received_app, !lens_app.
      cbn [app payloads separators].
      change (hub_sends [_; _]) with (@nil (list byte)).
      change (received [_; _]) with (@nil (list byte)).
      change (lens [_; _]) with (@nil nat).
      cbn [app].
      repeat split; auto.
      * now apply Li.
      * now apply Li.
      * exists lost. split; [exact Pi|].
        destruct Xi as [->|(pre & m' & d & e & -> & Rr & Er)];
          [now left|right].
        eexists ([_; _] ++ pre), m', d, e.
        repeat split; auto. rewrite Er. same_events.
      * now exists k.
Qed.

(** ** Ticks only *)

Lemma net_ok_hd w : net_ok w = true -> hd None (netTape w) = None.
Proof.
  unfold net_ok. destruct (netTape w) as [|[e|] l]; cbn; auto. discriminate.
Qed.

Lemma net_ok_tl w w' :
  netTape w' = tl (netTape w) -> net_ok w = true -> net_ok w' = true.
Proof.
  unfold net_ok. intros ->. destruct (netTape w) as [|[e|] l]; cbn; auto.
  discriminate.
Qed.

Lemma writePump_loop_idle ts : forall w,
  net_ok w = true ->
  result (writePump_loop (map WakeTick ts) w) = Blocked /\
  events (writePump_loop (map WakeTick ts) w) =
    flat_map (fun t => [EvSetWriteDeadline (time.Add t writeWait);
                        EvWriteMessage websocket.PingMessage [] None])
             (wake_clock (now w) (map WakeTick ts)) /\
  send (world (writePump_loop (map WakeTick ts) w)) = send w /\
  hubTape (world (writePump_loop (map WakeTick ts) w)) = hubTape w.
Proof.
  induction ts as [|t ts IH]; intros w N; [cbn; auto|].
  cbn [map]. rewrite writePump_loop_tick. cbv zeta.
  rewrite (net_ok_hd w N).
  match goal with |- context [writePump_loop (map WakeTick ts) ?x] =>
    destruct (IH x) as (R & E & S & H) end.
  { now apply (net_ok_tl w). }
  cbn [result world events fst snd wake_clock flat_map].
  rewrite R, E, S, H. repeat split; auto.
Qed.

(** ** The deferred calls, at the end of a trace *)

Lemma payloads_tail evs : forall b,
  payloads b (evs ++ [EvTickerStop; EvConnClose]) = payloads b evs /\
  separators b (evs ++ [EvTickerStop; EvConnClose]) = separators b evs.
Proof.
  induction evs as [|e evs IH]; intros b; [now cbn|].
  destruct (IH b) as (Pb & Sb). destruct (IH true) as (Pt & St).
  destruct (IH false) as (Pf & Sf).
  destruct e as [| | | | | | | | | | | | | | | | | | | ? [|] | |];
    cbn [app payloads separators]; rewrite ?Pb, ?Sb, ?Pt, ?St, ?Pf, ?Sf; auto.
Qed.

Lemma guarded_tail evs : forall b,
  guarded b evs = true ->
  guarded b (evs ++ [EvTickerStop; EvConnClose]) = true.
Proof.
  induction evs as [|e evs IH]; intros b H; [reflexivity|].
  cbn [app guarded] in H |- *. apply andb_prop in H as [H1 H2].
  rewrite H1. now apply IH.
Qed.

(** * The write pump: the message writer *)

Lemma framed_hub a : forall b c,
  forallb hub_event a = true -> framed b (a ++ c) = framed b c.
Proof.
  induction a as [|e a IH]; intros b c H; [reflexivity|].
  cbn [forallb] in H. apply andb_prop in H as [He H].
  destruct e; try discriminate; cbn [app framed]; now apply IH.
Qed.

Lemma framed_drain a : forall c,
  forallb drain_event a = true -> framed true (a ++ c) = framed true c.
Proof.
  induction a as [|e a IH]; intros c H; [reflexivity|].
  cbn [forallb] in H. apply andb_prop in H as [He H].
  destruct e as [| | | | | | | | | | | | | | | | | | | ? [|] | |];
    try discriminate; cbn [app framed andb]; now apply IH.
Qed.

Lemma writePump_loop_framed wakes : forall w,
  framed false (events (writePump_loop wakes w)) = true /\
  framed false (events (writePump_loop wakes w) ++
                [EvTickerStop; EvConnClose]) = true.
Proof.
  loop_step wakes IH w.
  - now cbn.
  - destruct (hub_sync_facts (set_now (Z.max (now w) t) w)) as (_ & Q & _).
    set (h := hub_sync _) in *. set (w1 := world h) in *.
    destruct (buf (send w1)) as [|m rest].
    + destruct (closed (send w1)); cbn [events snd].
      * rewrite <- ?app_assoc, !(framed_hub _ _ _ Q). now cbn.
      * rewrite !(framed_hub _ _ _ Q).
        rewrite <- (app_nil_r (events h)), (framed_hub _ _ _ Q). now cbn.
    + destruct (hd None (netTape w1)) as [e|]; cbn [events snd].
      * rewrite <- ?app_assoc, !(framed_hub _ _ _ Q). now cbn.
      * set (w3 := set_netTape _ _).
        destruct (coalesce_run w3) as (w4 & cev & C & Dr & _).
        rewrite C. cbn [world events fst snd].
        destruct (hd None (netTape w4)) as [e|]; cbn [events snd].
        -- rewrite <- ?app_assoc, !(framed_hub _ _ _ Q).
           cbn [app framed negb andb].
           rewrite <- ?app_assoc, !(framed_drain _ _ Dr). now cbn.
        -- destruct (IH (set_netTape (tl (netTape w4)) w4)) as (F1 & F2).
           rewrite <- ?app_assoc, !(framed_hub _ _ _ Q).
           cbn [app framed negb andb].
           rewrite <- ?app_assoc, !(framed_drain _ _ Dr).
           cbn [app framed negb andb]. auto.
  - destruct (hd None (netTape w)) as [e|]; cbn [events snd].
    + now cbn.
    + match goal with |- context [writePump_loop wakes ?x] =>
        destruct (IH x) as (F1 & F2) end.
      cbn [app framed negb andb]. auto.
Qed.

(** * The write pump as a whole: further properties *)

(** X1.  [writePump] creates its ticker first, with period [pingPeriod].
    When it returns, the last thing its loop has done is to write the
    close message or a write whose error the pump looks at, and nothing
    of the kind has happened before; the ticker is then stopped and the
    connection closed, once each, as the last two events.  While it has
    not returned neither has happened. *)
Theorem writePump_returns_after_close_or_failure
        (wakes : list Wake) (w : World) :
  match result (writePump wakes w) with
  | Done _ =>
      exists body last,
        events (writePump wakes w) =
          EvNewTicker pingPeriod :: body ++
          [last; EvTickerStop; EvConnClose] /\
        none lifecycle_event (body ++ [last]) = true /\
        none last_write body = true /\ last_write last = true
  | Blocked =>
      exists body,
        events (writePump wakes w) = EvNewTicker pingPeriod :: body /\
        none lifecycle_event body = true /\ none last_write body = true
  end.
Proof.
  rewrite writePump_run. pose proof (writePump_loop_exit wakes w) as H.
  destruct (result (writePump_loop wakes w)) as [[]|];
    cbn [result events fst snd].
  - destruct H as (body & last & E & La & Lb & Lc). exists body, last.
    rewrite E, <- app_assoc. auto.
  - destruct H as (La & Lb). eexists. eauto.
Qed.

(** X2.  Every write of a frame by [writePump] (a [WriteMessage], a
    [NextWriter]) comes directly after the write deadline has been set,
    and each deadline set is the time at which the pump woke up plus
    [writeWait], ten seconds: one deadline for each wake-up served. *)
Theorem write_deadline_set_before_every_frame
        (wakes : list Wake) (w : World) :
  guarded false (events (writePump wakes w)) = true /\
  (exists k,
     write_deadlines (events (writePump wakes w)) =
       map (fun t => t + 10 * time.Second)
           (firstn k (wake_clock (now w) wakes))) /\
  writeWait = 10 * time.Second.
Proof.
  destruct (writePump_loop_deadlines wakes w) as (G & k & D).
  rewrite writePump_run.
  destruct (result (writePump_loop wakes w)) as [[]|];
    cbn [result events fst snd]; (split; [|split; [exists k|reflexivity]]).
  - cbn [guarded starts_write sets_write_deadline andb].
    now apply guarded_tail.
  - change (EvNewTicker pingPeriod :: ?x) with ([EvNewTicker pingPeriod] ++ x).
    rewrite !write_deadlines_app, D. cbn. now rewrite app_nil_r.
  - exact G.
  - exact D.
Qed.

(** X3.  On a connection with nothing to send, where every write
    succeeds, [writePump] answers each tick of its ticker with one ping
    under a fresh write deadline and does nothing else: it neither
    returns nor takes anything from the queue. *)
Theorem idle_pump_pings_once_per_tick (ts : list time.Time) (w : World) :
  net_ok w = true ->
  result (writePump (map WakeTick ts) w) = Blocked /\
  events (writePump (map WakeTick ts) w) =
    EvNewTicker pingPeriod ::
    flat_map (fun t => [EvSetWriteDeadline (time.Add t writeWait);
                        EvWriteMessage websocket.PingMessage [] None])
             (wake_clock (now w) (map WakeTick ts)) /\
  send (world (writePump (map WakeTick ts) w)) = send w /\
  hubTape (world (writePump (map WakeTick ts) w)) = hubTape w.
Proof.
  intros N. destruct (writePump_loop_idle ts w N) as (R & E & S & H).
  rewrite writePump_run, R. cbn [result world events fst snd].
  rewrite E. auto.
Qed.

(** X5.  Every message that [writePump] receives from the queue is the
    payload of the next write to the message writer, so the messages
    are written once each and in the order of the queue; every other
    write is the newline separator.  The one exception is a message
    received when [NextWriter] fails: the pump returns and that message
    is not written. *)
Theorem received_messages_are_written_in_order
        (wakes : list Wake) (w : World) :
  exists lost k,
    received (events (writePump wakes w)) =
      payloads false (events (writePump wakes w)) ++ lost /\
    separators false (events (writePump wakes w)) = repeat newline k /\
    (lost = [] \/
     exists pre m d e,
       lost = [m] /\
       events (writePump wakes w) =
         pre ++ [EvRecv m true; EvSetWriteDeadline d;
                 EvNextWriter websocket.TextMessage (Some e);
                 EvTickerStop; EvConnClose]).
Proof.
  destruct (writePump_loop_queue wakes w)
    as (_ & _ & (lost & P & X) & (k & S)).
  exists lost, k. rewrite writePump_run.
  destruct (result (writePump_loop wakes w)) as [[]|] eqn:R;
    cbn [result world events fst snd].
  - destruct (payloads_tail (events (writePump_loop wakes w)) false)
      as (Pt & St).
    cbn [payloads separators]. rewrite Pt, St.
    change (received (EvNewTicker pingPeriod :: ?x)) with (received x).
    rewrite received_app. cbn [received flat_map app]. rewrite app_nil_r.
    repeat split; auto.
    destruct X as [->|(pre & m & d & e & -> & _ & E)]; [now left|right].
    exists (EvNewTicker pingPeriod :: pre), m, d, e.
    split; [reflexivity|]. rewrite E. cbn [app]. now rewrite <- app_assoc.
  - repeat split; auto.
    destruct X as [->|(pre & m & d & e & -> & X & E)]; [now left|].
    cbv zeta in X. congruence.
Qed.

(** X7.  [writePump] keeps to the discipline of the transport's
    message writer: it has at most one writer open at a time, it writes
    only to an open writer, it calls [NextWriter] and [WriteMessage]
    only when none is open, and it closes every writer it has got
    before it next waits in the [select] or returns, so that no frame
    is left unfinished. *)
Theorem every_message_writer_is_closed (wakes : list Wake) (w : World) :
  framed false (events (writePump wakes w)) = true.
Proof.
  destruct (writePump_loop_framed wakes w) as (F1 & F2).
  rewrite writePump_run.
  destruct (result (writePump_loop wakes w)) as [[]|];
    cbn [events snd framed]; assumption.
Qed.

Lemma idle_pump_pings_once_per_tick_witness :
  net_ok world_idle = true /\
  result (writePump (map WakeTick [54000000000; 108000000000]) world_idle) =
    Blocked /\
  events (writePump (map WakeTick [54000000000; 108000000000]) world_idle) =
    EvNewTicker pingPeriod ::
    flat_map (fun t => [EvSetWriteDeadline (time.Add t writeWait);
                        EvWriteMessage websocket.PingMessage [] None])
             (wake_clock (now world_idle)
                         (map WakeTick [54000000000; 108000000000])) /\
  send (world (writePump (map WakeTick [54000000000; 108000000000])
                         world_idle)) = send world_idle /\
  hubTape (world (writePump (map WakeTick [54000000000; 108000000000])
                            world_idle)) = hubTape world_idle.
Proof.
  assert (H : net_ok world_idle = true) by reflexivity.
  split; [exact H|].
  apply (idle_pump_pings_once_per_tick [54000000000; 108000000000]
           world_idle H).
Defined.

(** * The read pump: the size of what it reads *)

Lemma ReadMessage_limit a w :
  has_deadline w -> pongHandler w = readPump_func1 -> 0 < readLimit w ->
  forall m,
    result (ReadMessage a w) = Done (m, None) ->
    Z.of_nat (length m) <= readLimit w.
Proof.
  intros D P L m. unfold ReadMessage.
  destruct (ReadMessage_control_spec (ctrl a) w D P)
    as (r1 & w1 & e1 & R1 & D1 & L1 & _).
  destruct (await_spec (option_map fst (fin a)) w1 D1)
    as (r2 & w2 & A & _ & L2 & _).
  unfold bind at 1 2. rewrite R1.
  destruct r1 as [err|]; [cbn; discriminate|].
  unfold bind at 1. rewrite A.
  destruct r2 as [err|]; [cbn; discriminate|].
  destruct (fin a) as [[t [mt payload|code|err]]|]; try (cbn; discriminate).
  unfold bind at 1, get at 1.
  destruct (Z.ltb_spec 0 (readLimit w2)) as [_|X]; [|lia].
  destruct (Z.ltb_spec (readLimit w2) (Z.of_nat (length payload))) as [X|X];
    cbn; [discriminate|].
  intros [= <-]. lia.
Qed.

Lemma normalize_trimmed message :
  trimmed (map newline_to_space message) (normalize message).
Proof. unfold normalize. rewrite Replace_newline. apply TrimSpace_spec. Qed.

Lemma normalize_length message :
  (length (normalize message) <= length message)%nat.
Proof.
  destruct (normalize_trimmed message) as (pre & suf & E & _).
  apply (f_equal (@length byte)) in E.
  rewrite length_map, !length_app in E. lia.
Qed.

(** * The read pump: the loop, once more *)

Lemma control_events_body evs :
  forallb control_event evs = true -> forallb body_event evs = true.
Proof.
  induction evs as [|e evs IH]; cbn [forallb]; [auto|].
  intros H. apply andb_prop in H as [He H]. rewrite (IH H).
  now destruct e.
Qed.

Lemma readPump_loop_body tape : forall w,
  has_deadline w -> pongHandler w = readPump_func1 -> 0 < readLimit w ->
  exists w' body msg err,
    readPump_loop tape w =
      (Done tt, w', body ++ EvReadMessage msg (Some err) :: logged err) /\
    forallb body_event body = true /\
    Forall (fun m => Z.of_nat (length m) <= readLimit w) (broadcasts body).
Proof.
  assert (Stop : forall a w k,
    forall r w1 ctl,
      ReadMessage a w = (Done r, w1, ctl ++ [EvReadMessage (fst r) (snd r)]) ->
      forallb control_event ctl = true ->
      forall err, snd r = Some err ->
      exists w' body msg err,
        (r <- ReadMessage a ;; readPump_body r k) w =
          (Done tt, w', body ++ EvReadMessage msg (Some err) :: logged err) /\
        forallb body_event body = true /\
        Forall (fun m => Z.of_nat (length m) <= readLimit w)
               (broadcasts body)).
  { intros a w k [m e] w1 ctl R C err E. cbn in E. subst e.
    destruct (control_events_silent _ C) as (_ & B & _).
    exists w1, ctl, m, err. rewrite B.
    repeat split; auto using control_events_body.
    eapply run_events_eq;
      [eapply bind_eq; [exact R|apply readPump_body_err]|].
    now rewrite <- app_assoc. }
  induction tape as [|a tape IH]; intros w D P L; cbn [readPump_loop].
  - destruct (ReadMessage_spec (mkArrival [] None) w D P)
      as (r & w1 & ctl & R & D1 & L1 & P1 & C & X & N).
    destruct (snd r) as [err|] eqn:E; [|now destruct N].
    rewrite <- E in R. now apply (Stop _ _ _ _ _ _ R C err).
  - destruct (ReadMessage_spec a w D P)
      as (r & w1 & ctl & R & D1 & L1 & P1 & C & X & N).
    destruct (snd r) as [err|] eqn:E.
    + rewrite <- E in R. now apply (Stop _ _ _ _ _ _ R C err).
    + destruct r as [m e]. cbn in E. subst e. cbn [fst snd] in R.
      assert (L1' : 0 < readLimit w1) by lia.
      destruct (IH w1 D1 P1 L1') as (w2 & body & msg & err & R2 & Q2 & B2).
      destruct (control_events_silent _ C) as (_ & B & _).
      pose proof (ReadMessage_limit a w D P L m) as Lm. rewrite R in Lm.
      specialize (Lm eq_refl).
      exists w2,
        ((ctl ++ [EvReadMessage m None]) ++ [EvBroadcast (normalize m)] ++ body),
        msg, err.
      split.
      { eapply run_events_eq;
          [eapply bind_eq;
             [exact R|eapply bind_eq; [reflexivity|exact R2]]|].
        now rewrite <- !app_assoc. }
      rewrite !forallb_app, !broadcasts_app, (control_events_body _ C), Q2, B.
      repeat split; auto.
      cbn. constructor.
      * pose proof (normalize_length m). lia.
      * rewrite L1 in B2. exact B2.
Qed.

(** * [ReadMessage], by what the control frames have left *)

Lemma ReadMessage_after_control cs fin_ w r w1 e1 :
  ReadMessage_control cs w = (Done r, w1, e1) ->
  ReadMessage (mkArrival cs fin_) w =
    match r with
    | Some err => (Done ([], Some err), w1, e1 ++ [EvReadMessage [] (Some err)])
    | None =>
        match readDeadline w1, fin_ with
        | None, None => (Blocked, w1, e1)
        | Some d, None =>
            (Done ([], Some ErrTimeout), set_now (Z.max (now w1) d) w1,
             e1 ++ [EvReadMessage [] (Some ErrTimeout)])
        | dl, Some (t, f) =>
            if match dl with Some d => d <? t | None => false end then
              (Done ([], Some ErrTimeout),
               set_now (Z.max (now w1) (match dl with Some d => d | None => t end)) w1,
               e1 ++ [EvReadMessage [] (Some ErrTimeout)])
            else
              let w2 := set_now (Z.max (now w1) t) w1 in
              match f with
              | Data _ payload =>
                  if (0 <? readLimit w1) &&
                     (readLimit w1 <? Z.of_nat (length payload))
                  then (Done ([], Some ErrReadLimit), w2,
                        e1 ++ [EvReadMessage [] (Some ErrReadLimit)])
                  else (Done (payload, None), w2,
                        e1 ++ [EvReadMessage payload None])
              | Close code =>
                  (Done ([], Some (CloseError code)), w2,
                   e1 ++ [EvReadMessage [] (Some (CloseError code))])
              | Fail err =>
                  (Done ([], Some err), w2,
                   e1 ++ [EvReadMessage [] (Some err)])
              end
        end
    end.
Proof.
  intros R. unfold ReadMessage. cbn [ctrl fin].
  unfold bind at 1 2. rewrite R.
  destruct r as [err|]; [cbn; now rewrite app_nil_r|].
  unfold await, bind, get, elapse, modify, ret, emit, block.
  destruct (readDeadline w1) as [d|], fin_ as [[t f]|]; cbn [option_map fst snd];
    try (destruct (d <? t)); try destruct f as [mt payload|code|err];
    cbn [readLimit set_now fst snd app];
    try destruct ((0 <? readLimit w1) && _);
    cbn [fst snd app]; rewrite ?app_nil_r; reflexivity.
Qed.

(** * Pings, pongs and the read deadline *)

Lemma await_in_time t w d :
  readDeadline w = Some d -> t <= d ->
  await (Some t) w = (Done None, set_now (Z.max (now w) t) w, []).
Proof.
  intros D H. unfold await, bind, get, elapse, modify, ret. rewrite D.
  destruct (Z.ltb_spec d t); [lia|reflexivity].
Qed.

Lemma await_late t w d :
  readDeadline w = Some d -> d < t ->
  await (Some t) w = (Done (Some ErrTimeout), set_now (Z.max (now w) d) w, []).
Proof.
  intros D H. unfold await, bind, get, elapse, modify, ret. rewrite D.
  destruct (Z.ltb_spec d t); [reflexivity|lia].
Qed.


(** Pongs of at most 125 bytes, each within [pongWait] of the one
    before: each moves the deadline, and the read goes on. *)
Lemma ReadMessage_control_pongs cs : forall w t,
  Forall (fun c => Z.of_nat (length (snd c)) <=
                   websocket.maxControlFramePayloadSize) cs ->
  readDeadline w = Some (now w + pongWait) ->
  pongHandler w = readPump_func1 ->
  in_time (now w) (map fst cs ++ [t]) ->
  exists w',
    ReadMessage_control (map (fun c => (fst c, Pong (snd c))) cs) w =
      (Done None, w', pong_events cs) /\
    readDeadline w' = Some (now w' + pongWait) /\
    pongHandler w' = readPump_func1 /\
    readLimit w' = readLimit w /\
    now w' <= t <= now w' + pongWait.
Proof.
  induction cs as [|[t1 a] cs IH]; intros w t Sz D P T.
  - exists w. cbn in T |- *. repeat split; auto; lia.
  - inversion Sz as [|c cs0 Sa Scs]; subst. cbn [snd] in Sa.
    cbn [map fst snd app in_time] in T. destruct T as [T1 T].
    cbn [map fst snd ReadMessage_control control_payload].
    set (w1 := set_now (Z.max (now w) t1) w).
    assert (N1 : now w1 = t1) by (cbn; lia).
    set (w2 := set_readDeadline (Some (time.Add (now w1) pongWait)) w1).
    destruct (IH w2 t Scs) as (w' & R & D' & P' & L' & T').
    { cbn. reflexivity. }
    { exact P. }
    { change (now w2) with (now w1). now rewrite N1. }
    exists w'. split; [|auto].
    eapply run_events_eq.
    + eapply bind_eq; [apply (await_in_time t1 w _ D); lia|].
      cbv beta iota.
      rewrite (proj2 (Z.ltb_ge _ _) Sa).
      eapply bind_eq; [apply handlePong_run; exact P|exact R].
    + cbn [app pong_events flat_map fst snd]. fold w1. now rewrite N1.
Qed.

(** * The read pump as a whole: further properties *)

Lemma readPump_run_body tape w :
  exists w' body msg err,
    readPump tape w =
      (Done tt, w',
       readPump_prologue w ++
       (body ++ EvReadMessage msg (Some err) :: logged err) ++
       [EvUnregister; EvConnClose]) /\
    forallb body_event body = true /\
    Forall (fun m => Z.of_nat (length m) <= maxMessageSize) (broadcasts body).
Proof.
  set (w0 := set_pongHandler readPump_func1
               (set_readDeadline (Some (time.Add (now w) pongWait))
                  (set_readLimit maxMessageSize w))).
  assert (D : has_deadline w0) by (eexists; reflexivity).
  destruct (readPump_loop_body tape w0 D eq_refl eq_refl)
    as (w' & body & msg & err & R & Q & B).
  exists w', body, msg, err. split; [|auto].
  rewrite readPump_unfold. cbv zeta. fold w0. rewrite R.
  reflexivity.
Qed.

Lemma body_events_unseen evs :
  forallb body_event evs = true ->
  read_errors evs = [] /\ logs evs = [].
Proof.
  induction evs as [|e evs IH]; cbn [forallb]; [now auto|].
  intros H. apply andb_prop in H as [He H]. destruct (IH H) as (A & B).
  unfold read_errors, logs in *. cbn [flat_map].
  rewrite A, B.
  destruct e as [| | | | | |? [?|] | | | | | | | | | | | | | | |];
    try discriminate; auto.
Qed.

Lemma logged_unexpected err :
  logged err = if unexpected err then [EvLog err] else [].
Proof.
  unfold logged, unexpected, IsUnexpectedCloseError.
  destruct err as [code| | |]; try reflexivity.
  cbn [existsb]. unfold websocket.CloseGoingAway, websocket.CloseAbnormalClosure.
  rewrite orb_false_r, negb_orb. reflexivity.
Qed.

(** X8.  [readPump] stops at the first read that returns an error: that
    read is the only failed one of the run, and after it come only the
    deferred calls, preceded by one line of the log when the error is a
    close frame of the peer with a code other than 1001 (going away) and
    1006 (abnormal closure).  A time-out, a message over the size limit,
    a failure of the network and a close with one of these two codes
    are not logged; nothing is logged before. *)
Theorem readPump_logs_unexpected_close_only
        (tape : list Arrival) (w : World) :
  exists pre msg err,
    events (readPump tape w) =
      pre ++ EvReadMessage msg (Some err) ::
      (if unexpected err then [EvLog err] else []) ++
      [EvUnregister; EvConnClose] /\
    read_errors pre = [] /\ logs pre = [].
Proof.
  destruct (readPump_run_body tape w)
    as (w' & body & msg & err & R & Q & _).
  destruct (body_events_unseen _ Q) as (A & B).
  exists (readPump_prologue w ++ body), msg, err.
  rewrite R. cbn [events snd]. rewrite logged_unexpected. split.
  - now rewrite <- !app_assoc.
  - unfold read_errors, logs in *. rewrite !flat_map_app, A, B. auto.
Qed.

(** X9.  No message that [readPump] hands to the hub is longer than
    [maxMessageSize], 512 bytes: what is read is within the read
    limit, and normalizing it does not make it longer. *)
Theorem broadcast_messages_within_size_limit
        (tape : list Arrival) (w : World) :
  Forall (fun m => Z.of_nat (length m) <= 512)
         (broadcasts (events (readPump tape w))).
Proof.
  destruct (readPump_run_body tape w)
    as (w' & body & msg & err & R & _ & B).
  rewrite R. cbn [events snd].
  rewrite !broadcasts_app.
  change (EvReadMessage msg (Some err) :: logged err)
    with ([EvReadMessage msg (Some err)] ++ logged err).
  rewrite !broadcasts_app.
  destruct (logged_quiet err) as (_ & _ & Bl & _). rewrite Bl.
  cbn. rewrite !app_nil_r. exact B.
Qed.

Lemma pongWait_pos : 0 < pongWait.
Proof. reflexivity. Qed.


(** X12.  Pongs keep the connection open.  When pongs of at most 125
    bytes arrive, the first within [pongWait] of the start of
    [readPump] and each within [pongWait] of the one before, a message
    of at most 512 bytes that arrives within [pongWait] of the last
    pong is read and broadcast, however long after the start that is;
    each pong has moved the read deadline to its own arrival time plus
    [pongWait]. *)
Theorem pongs_keep_the_connection_open
        (cs : list (time.Time * list byte))
        (t : time.Time) (mt : Z) (payload : list byte)
        (post : list Arrival) (w : World) :
  Forall (fun c => Z.of_nat (length (snd c)) <=
                   websocket.maxControlFramePayloadSize) cs ->
  in_time (now w) (map fst cs ++ [t]) ->
  Z.of_nat (length payload) <= maxMessageSize ->
  exists rest,
    events
      (readPump (mkArrival (map (fun c => (fst c, Pong (snd c))) cs)
                           (Some (t, Data mt payload)) :: post) w) =
      readPump_prologue w ++ pong_events cs ++
      [EvReadMessage payload None; EvBroadcast (normalize payload)] ++ rest.
Proof.
  intros Sz T Hs. rewrite readPump_unfold. cbv zeta.
  set (w0 := set_pongHandler _ _).
  destruct (ReadMessage_control_pongs cs w0 t Sz eq_refl eq_refl T)
    as (w1 & R & D & P & L & N).
  pose proof (ReadMessage_after_control _ (Some (t, Data mt payload))
                _ _ _ _ R) as E.
  rewrite D in E. cbv beta iota zeta in E.
  destruct (Z.ltb_spec (now w1 + pongWait) t) as [Y|_]; [lia|].
  rewrite L in E. change (readLimit w0) with maxMessageSize in E.
  destruct (Z.ltb_spec maxMessageSize (Z.of_nat (length payload))) as [Y|_];
    [lia|].
  rewrite andb_false_r in E.
  set (w2 := set_now (Z.max (now w1) t) w1) in E.
  assert (Lp : readPump_loop
                 (mkArrival (map (fun c => (fst c, Pong (snd c))) cs)
                            (Some (t, Data mt payload)) :: post) w0 =
               (result (readPump_loop post w2), world (readPump_loop post w2),
                (pong_events cs ++ [EvReadMessage payload None]) ++
                [EvBroadcast (normalize payload)] ++
                events (readPump_loop post w2))).
  { cbn [readPump_loop].
    eapply bind_eq; [exact E|]. unfold readPump_body.
    eapply bind_eq; [reflexivity|apply run_eta]. }
  rewrite Lp. cbn [result world events fst snd].
  destruct (result (readPump_loop post w2)); cbn [events snd];
    eexists; unfold readPump_prologue; rewrite <- !app_assoc; reflexivity.
Qed.

(** A pong longer than the protocol allows ends the read with a
    protocol error: the handler of [readPump] is not called, the
    deadline does not move, and nothing is broadcast. *)
Lemma oversize_pong_ends_the_read t appData last post w :
  t <= now w + pongWait ->
  websocket.maxControlFramePayloadSize < Z.of_nat (length appData) ->
  events (readPump (mkArrival [(t, Pong appData)] last :: post) w) =
    readPump_prologue w ++
    [EvReadMessage [] (Some errControlFrameLength);
     EvUnregister; EvConnClose].
Proof.
  intros T B. rewrite readPump_unfold. cbv zeta.
  set (w0 := set_pongHandler _ _).
  assert (R : ReadMessage_control [(t, Pong appData)] w0 =
              (Done (Some errControlFrameLength),
               set_now (Z.max (now w0) t) w0, [])).
  { cbn [ReadMessage_control control_payload].
    eapply run_events_eq;
      [eapply bind_eq;
         [apply (await_in_time t w0 (now w + pongWait) eq_refl T)|]
      |reflexivity].
    cbv beta iota.
    destruct (Z.ltb_spec websocket.maxControlFramePayloadSize
                (Z.of_nat (length appData))); [reflexivity|lia]. }
  pose proof (ReadMessage_after_control _ last _ _ _ _ R) as E.
  cbv beta iota in E.
  assert (L : readPump_loop (mkArrival [(t, Pong appData)] last :: post) w0 =
              (Done tt, set_now (Z.max (now w0) t) w0,
               [EvReadMessage [] (Some errControlFrameLength)])).
  { cbn [readPump_loop].
    eapply run_events_eq;
      [eapply bind_eq; [exact E|apply readPump_body_err]|].
    reflexivity. }
  rewrite L. reflexivity.
Qed.


Lemma pongs_keep_the_connection_open_witness :
  Forall (fun c => Z.of_nat (length (snd c)) <=
                   websocket.maxControlFramePayloadSize)
         [(59000000000, @nil byte)] /\
  in_time (now world_idle)
          (map fst [(59000000000, @nil byte)] ++ [61000000000]) /\
  Z.of_nat (length [x61]) <= maxMessageSize /\
  exists rest,
    events
      (readPump
         (mkArrival (map (fun c => (fst c, Pong (snd c)))
                         [(59000000000, [])])
                    (Some (61000000000, Data websocket.TextMessage [x61]))
          :: []) world_idle) =
      readPump_prologue world_idle ++ pong_events [(59000000000, [])] ++
      [EvReadMessage [x61] None; EvBroadcast (normalize [x61])] ++ rest.
Proof.
  assert (Sz : Forall (fun c => Z.of_nat (length (snd c)) <=
                               websocket.maxControlFramePayloadSize)
                     [(59000000000, @nil byte)]).
  { constructor; [discriminate|constructor]. }
  assert (T : in_time (now world_idle)
                (map fst [(59000000000, @nil byte)] ++ [61000000000])).
  { cbn. repeat split; discriminate. }
  assert (Hs : Z.of_nat (length [x61]) <= maxMessageSize) by discriminate.
  split; [exact Sz|]. split; [exact T|]. split; [exact Hs|].
  apply (pongs_keep_the_connection_open
           [(59000000000, [])] 61000000000 websocket.TextMessage [x61] []
           world_idle Sz T Hs).
Defined.

(** * White space is a prefix code and a suffix code *)

Lemma white_space_prefix_free e e' r r' :
  In e white_space -> In e' white_space -> e ++ r = e' ++ r' -> e = e'.
Proof.
  assert (T : forallb (fun a =>
                forallb (fun b => implb (starts_with b a)
                                        (length a =? length b)%nat)
                        white_space) white_space = true) by reflexivity.
  assert (P : forall a b l, In a white_space -> In b white_space ->
                            a = b ++ l -> a = b).
  { intros a b l Ha Hb E. rewrite forallb_forall in T.
    specialize (T a Ha). rewrite forallb_forall in T. specialize (T b Hb).
    assert (S : starts_with b a = true) by (apply starts_with_spec; eauto).
    rewrite S in T. cbn in T. apply Nat.eqb_eq in T.
    rewrite E, length_app in T. destruct l; [now rewrite app_nil_r in E|].
    cbn in T. lia. }
  intros He He' E. apply app_eq_app in E as [l [[E _]|[E _]]].
  - now apply (P e e' l).
  - symmetry. now apply (P e' e l).
Qed.

Lemma white_space_suffix_free e e' p p' :
  In e white_space -> In e' white_space -> p ++ e = p' ++ e' -> e = e'.
Proof.
  assert (T : forallb (fun a =>
                forallb (fun b => implb (starts_with (rev b) (rev a))
                                        (length a =? length b)%nat)
                        white_space) white_space = true) by reflexivity.
  assert (P : forall a b l, In a white_space -> In b white_space ->
                            a = l ++ b -> a = b).
  { intros a b l Ha Hb E. rewrite forallb_forall in T.
    specialize (T a Ha). rewrite forallb_forall in T. specialize (T b Hb).
    assert (S : starts_with (rev b) (rev a) = true).
    { apply starts_with_spec. exists (rev l). now rewrite E, rev_app_distr. }
    rewrite S in T. cbn in T. apply Nat.eqb_eq in T.
    rewrite E, length_app in T. destruct l; [exact E|].
    cbn in T. lia. }
  intros He He' E. apply app_eq_app in E as [l [[_ E]|[_ E]]].
  - symmetry. now apply (P e' e l).
  - now apply (P e e' l).
Qed.

(** The bytes of an entry after its first are continuation bytes. *)
Lemma white_space_tail e a c l :
  In e white_space -> e = a ++ c :: l -> a <> [] -> bad (locb, hicb) c = false.
Proof.
  assert (T : forallb (fun e =>
                forallb (fun c => negb (bad (locb, hicb) c)) (tl e))
              white_space = true) by reflexivity.
  intros He E Ha. rewrite forallb_forall in T. specialize (T e He).
  rewrite forallb_forall in T. apply negb_true_iff, T.
  destruct a as [|x a]; [congruence|]. rewrite E. cbn.
  apply in_or_app. right. now left.
Qed.

(** * What trimming leaves is determined *)

(** White space in front of something that does not begin with white
    space can be told apart from it. *)
Lemma spaces_cancel p : spaces p -> forall y, spaces (p ++ y) -> spaces y.
Proof.
  induction 1 as [|e rest He _ IH]; intros y Hy; [exact Hy|].
  rewrite <- app_assoc in Hy. inversion Hy as [E|e2 rest2 He2 Hr E].
  - symmetry in E. apply app_eq_nil in E as [E _].
    now destruct (white_space_nonempty e He).
  - pose proof (white_space_prefix_free _ _ _ _ He2 He E) as ->.
    apply app_inv_head in E. subst rest2. now apply IH.
Qed.

Lemma no_prefix_app t q :
  t <> [] -> has_space_prefix t = false -> spaces q ->
  has_space_prefix (t ++ q) = false.
Proof.
  intros Ht Np Sq. apply has_space_prefix_false. intros e rest He E.
  apply app_eq_app in E as [l [[E _]|[E1 E2]]].
  - assert (X : has_space_prefix t = true)
      by (apply has_space_prefix_true; eauto).
    congruence.
  - destruct l as [|c l].
    + rewrite app_nil_r in E1. subst e.
      assert (X : has_space_prefix t = true)
        by (apply has_space_prefix_true; exists t, []; split;
            [exact He|now rewrite app_nil_r]).
      congruence.
    + pose proof (white_space_tail e t c l He E1 Ht) as C.
      pose proof (spaces_head q Sq) as H. rewrite E2 in H. cbn in H.
      congruence.
Qed.

Lemma trimmed_left p : spaces p -> forall p' x x',
  spaces p' -> p ++ x = p' ++ x' ->
  has_space_prefix x = false -> has_space_prefix x' = false -> x = x'.
Proof.
  induction 1 as [|e rest He _ IH]; intros p' x x' Hp' E Nx Nx'.
  - destruct Hp' as [|e' rest' He' _]; [exact E|].
    cbn in E. rewrite <- app_assoc in E.
    assert (X : has_space_prefix x = true)
      by (apply has_space_prefix_true; eauto).
    congruence.
  - destruct Hp' as [|e' rest' He' Hr'].
    + cbn in E. rewrite <- app_assoc in E. symmetry in E.
      assert (X : has_space_prefix x' = true)
        by (apply has_space_prefix_true; eauto).
      congruence.
    + rewrite <- !app_assoc in E.
      pose proof (white_space_prefix_free _ _ _ _ He He' E) as ->.
      apply app_inv_head in E. now apply (IH rest').
Qed.

Lemma spaces_rev_cases s :
  spaces s ->
  s = [] \/
  exists pre e, In e white_space /\ spaces pre /\ s = pre ++ e.
Proof.
  induction 1 as [|e rest He Hr IH]; [now left|]. right.
  destruct IH as [->|(pre & e' & He' & Hp & ->)].
  - exists [], e. rewrite app_nil_r. repeat split; auto using spaces_nil.
  - exists (e ++ pre), e'. rewrite <- app_assoc.
    repeat split; auto using spaces_cons.
Qed.

Lemma trimmed_right n : forall q q' x x',
  (length q <= n)%nat -> spaces q -> spaces q' -> x ++ q = x' ++ q' ->
  has_space_suffix x = false -> has_space_suffix x' = false -> x = x'.
Proof.
  induction n as [|n IH]; intros q q' x x' Hn Hq Hq' E Nx Nx'.
  - destruct q; [|cbn in Hn; lia]. rewrite app_nil_r in E.
    destruct (spaces_rev_cases _ Hq') as [->|(pre' & e' & He' & _ & ->)].
    + now rewrite app_nil_r in E.
    + assert (X : has_space_suffix x = true).
      { apply has_space_suffix_true. exists (x' ++ pre'), e'.
        split; [exact He'|]. now rewrite <- app_assoc. }
      congruence.
  - destruct (spaces_rev_cases _ Hq) as [->|(pre & e & He & Hp & ->)].
    + rewrite app_nil_r in E.
      destruct (spaces_rev_cases _ Hq') as [->|(pre' & e' & He' & _ & ->)].
      * now rewrite app_nil_r in E.
      * assert (X : has_space_suffix x = true).
        { apply has_space_suffix_true. exists (x' ++ pre'), e'.
          split; [exact He'|]. now rewrite <- app_assoc. }
        congruence.
    + destruct (spaces_rev_cases _ Hq') as [->|(pre' & e' & He' & Hp' & ->)].
      * rewrite app_nil_r in E.
        assert (X : has_space_suffix x' = true).
        { apply has_space_suffix_true. exists (x ++ pre), e.
          split; [exact He|]. now rewrite <- app_assoc. }
        congruence.
      * rewrite !app_assoc in E.
        pose proof (white_space_suffix_free _ _ _ _ He He' E) as ->.
        apply app_inv_tail in E.
        apply (IH pre pre'); auto.
        rewrite length_app in Hn.
        pose proof (white_space_nonempty e' He').
        destruct e'; [congruence|]. cbn in Hn. lia.
Qed.

(** Of a sequence of white space, trimming leaves nothing. *)
Lemma trimmed_spaces s t : spaces s -> trimmed s t -> t = [].
Proof.
  intros Hs (p & q & -> & Hp & Hq & Np & Ns).
  pose proof (spaces_cancel p Hp _ Hs) as Hy.
  destruct t as [|c t]; [reflexivity|].
  assert (N : has_space_prefix ((c :: t) ++ q) = false)
    by (apply no_prefix_app; [discriminate|exact Np|exact Hq]).
  inversion Hy as [E|e rest He _ E].
  assert (X : has_space_prefix ((c :: t) ++ q) = true)
    by (apply has_space_prefix_true; eauto).
  congruence.
Qed.

Lemma trimmed_unique s t t' : trimmed s t -> trimmed s t' -> t = t'.
Proof.
  intros H H'.
  destruct t as [|c t].
  { destruct H as (p & q & -> & Hp & Hq & _). symmetry.
    apply (trimmed_spaces (p ++ [] ++ q)); [|exact H'].
    now apply spaces_app. }
  destruct t' as [|c' t'].
  { destruct H' as (p & q & -> & Hp & Hq & _).
    apply (trimmed_spaces (p ++ [] ++ q)); [|exact H].
    now apply spaces_app. }
  destruct H as (p & q & -> & Hp & Hq & Np & Ns).
  destruct H' as (p' & q' & E & Hp' & Hq' & Np' & Ns').
  assert (E1 : (c :: t) ++ q = (c' :: t') ++ q').
  { apply (trimmed_left p Hp p'); auto;
      apply no_prefix_app; auto; discriminate. }
  now apply (trimmed_right (length q) q q').
Qed.

(** * Line breaks among white space *)

Lemma white_space_newline_to_space e :
  In e white_space -> In (map newline_to_space e) white_space.
Proof.
  assert (T : forallb (fun e =>
                existsb (fun e' => starts_with e' (map newline_to_space e) &&
                                   (length e' =? length e)%nat) white_space)
              white_space = true) by reflexivity.
  intros He. rewrite forallb_forall in T. specialize (T e He).
  apply existsb_exists in T as (e' & He' & T).
  apply andb_prop in T as [T1 T2]. apply Nat.eqb_eq in T2.
  apply starts_with_spec in T1 as [rest E].
  assert (rest = []).
  { apply (f_equal (@length byte)) in E.
    rewrite length_map, length_app in E. destruct rest; [reflexivity|].
    cbn in E. lia. }
  subst rest. rewrite app_nil_r in E. now rewrite E.
Qed.

Lemma spaces_newline_to_space s :
  spaces s -> spaces (map newline_to_space s).
Proof.
  induction 1 as [|e rest He _ IH]; [constructor|].
  rewrite map_app. constructor; [|exact IH].
  now apply white_space_newline_to_space.
Qed.

(** An entry of [white_space] with a space in it is the space. *)
Lemma white_space_with_space e :
  In e white_space -> In x20 e -> e = [x20].
Proof.
  intros H. unfold white_space in H.
  repeat (destruct H as [<-|H];
          [cbn; intros X;
           repeat (destruct X as [X|X]; [try discriminate X|]);
           try reflexivity; now destruct X|]).
  destruct H.
Qed.

Lemma white_space_from_newline_to_space m :
  In (map newline_to_space m) white_space -> In m white_space.
Proof.
  intros H.
  destruct (in_dec Byte.byte_eq_dec x0a m) as [I|I].
  - assert (X : In x20 (map newline_to_space m)).
    { apply in_map_iff. exists x0a. split; [reflexivity|exact I]. }
    pose proof (white_space_with_space _ H X) as E.
    destruct m as [|a [|b m]]; try discriminate E.
    destruct I as [->|[]]. apply newline_in_white_space.
  - assert (E : map newline_to_space m = m)
      by (now apply map_replace_absent).
    now rewrite E in H.
Qed.

Lemma spaces_from_newline_to_space n : forall s,
  (length s <= n)%nat -> spaces (map newline_to_space s) -> spaces s.
Proof.
  induction n as [|n IH]; intros s Hn H.
  - destruct s; [constructor|cbn in Hn; lia].
  - inversion H as [E|e rest He Hr E].
    + symmetry in E. apply map_eq_nil in E. subst s. constructor.
    + symmetry in E. apply map_eq_app in E as (s1 & s2 & -> & E1 & E2).
      subst e rest. constructor.
      * now apply white_space_from_newline_to_space.
      * apply IH; [|exact Hr].
        pose proof (white_space_nonempty _ He) as Ne.
        rewrite length_app in Hn. destruct s1; [now destruct Ne|].
        cbn in Hn. lia.
Qed.

Lemma spaces_iff_newline_to_space s :
  spaces s <-> spaces (map newline_to_space s).
Proof.
  split; [apply spaces_newline_to_space|].
  now apply (spaces_from_newline_to_space (length s)).
Qed.

(** * Normalization: further properties *)

Lemma normalize_no_newline message : ~ In x0a (normalize message).
Proof.
  intros H. destruct (normalize_trimmed message) as (pre & suf & E & _).
  apply (newline_to_space_no_newline message). rewrite E.
  apply in_or_app. right. apply in_or_app. now left.
Qed.

Lemma in_removelast {A} (x : A) l : In x (removelast l) -> In x l.
Proof.
  induction l as [|a l IH]; [auto|]. cbn. destruct l as [|b l]; [auto|].
  intros [->|H]; [now left|right; now apply IH].
Qed.

Lemma no_newline_normalized s :
  ~ In x0a s -> has_space_prefix s = false -> has_space_suffix s = false ->
  normalized s.
Proof.
  intros N Np Ns. repeat split; auto.
  unfold no_interior_newline, interior. apply forallb_forall. intros b Hb.
  apply in_removelast in Hb.
  assert (In b s) by (destruct s; [exact Hb|now right]).
  destruct (Byte.eqb b x0a) eqn:E; [|reflexivity].
  apply Byte.byte_dec_bl in E. now subst b.
Qed.

Lemma normalize_normalized s : normalized s -> normalize s = s.
Proof.
  intros H. pose proof (normalized_no_newline s H) as N.
  destruct H as (_ & Np & Ns).
  apply trimmed_fixed; [|exact Np|exact Ns].
  pose proof (normalize_trimmed s) as T.
  assert (E : map newline_to_space s = s) by (now apply map_replace_absent).
  now rewrite E in T.
Qed.

(** X13.  What the normalization of [readPump] returns is normalized,
    for every input: it has no line break and no white space at either
    end.  So normalizing twice is normalizing once; and the result is
    never longer than the input. *)
Theorem normalize_returns_normalized (message : list byte) :
  normalized (normalize message) /\
  normalize (normalize message) = normalize message /\
  (length (normalize message) <= length message)%nat.
Proof.
  assert (H : normalized (normalize message)).
  { destruct (normalize_trimmed message) as (pre & suf & _ & _ & _ & Np & Ns).
    apply no_newline_normalized; auto. apply normalize_no_newline. }
  split; [exact H|]. split; [now apply normalize_normalized|].
  apply normalize_length.
Qed.

(** X14.  The normalization of [readPump] returns the empty message
    exactly for the messages made of white space only (line breaks
    included, and the empty message). *)
Theorem normalize_empty_iff_white_space (message : list byte) :
  normalize message = [] <-> spaces message.
Proof.
  pose proof (normalize_trimmed message) as T. split.
  - intros E. rewrite E in T. destruct T as (pre & suf & E' & Hp & Hs & _).
    apply spaces_iff_newline_to_space. rewrite E'. cbn.
    now apply spaces_app.
  - intros H. apply spaces_iff_newline_to_space in H.
    apply (trimmed_spaces _ _ H T).
Qed.

(** X15.  The normalization of [readPump] removes the white space
    around a normalized message and nothing else: whatever white space
    (line breaks included) is put in front of a normalized message and
    behind it, normalizing gives the message back. *)
Theorem normalize_removes_surrounding_white_space
        (pre core suf : list byte) :
  spaces pre -> spaces suf -> normalized core ->
  normalize (pre ++ core ++ suf) = core.
Proof.
  intros Hp Hs Hc. pose proof (normalized_no_newline core Hc) as N.
  destruct Hc as (_ & Np & Ns).
  apply (trimmed_unique (map newline_to_space (pre ++ core ++ suf)));
    [apply normalize_trimmed|].
  exists (map newline_to_space pre), (map newline_to_space suf).
  rewrite !map_app.
  assert (E : map newline_to_space core = core)
    by (now apply map_replace_absent).
  rewrite E. repeat split; auto using spaces_newline_to_space.
Qed.

Lemma normalize_removes_surrounding_white_space_witness :
  spaces [x20; x0a] /\ spaces [x09] /\ normalized hello_normalized /\
  normalize ([x20; x0a] ++ hello_normalized ++ [x09]) = hello_normalized.
Proof.
  assert (Hp : spaces [x20; x0a]).
  { apply (spaces_cons [x20] [x0a]);
      [cbn; repeat (first [left; reflexivity|right])|].
    apply spaces_one. cbn. repeat (first [left; reflexivity|right]). }
  assert (Hs : spaces [x09])
    by (apply spaces_one; cbn; repeat (first [left; reflexivity|right])).
  assert (Hc : normalized hello_normalized) by (repeat split; reflexivity).
  split; [exact Hp|split; [exact Hs|split; [exact Hc|]]].
  apply (normalize_removes_surrounding_white_space
           [x20; x0a] hello_normalized [x09] Hp Hs Hc).
Defined.

(** * The write pump on a queue that the hub has closed *)

Lemma hub_steps_closed l : forall w,
  closed (send w) = true -> hub_steps l w = (Done tt, w, []).
Proof.
  induction l as [|a l IH]; intros w C; [reflexivity|].
  cbn [hub_steps].
  assert (H : hub_step a w = (Done tt, w, [])).
  { unfold hub_step, bind, get. destruct a; cbn; now rewrite C. }
  eapply run_events_eq; [eapply bind_eq; [exact H|now apply IH]|reflexivity].
Qed.

Lemma hub_sync_closed w :
  closed (send w) = true ->
  hub_sync w = (Done tt, set_hubTape (tl (hubTape w)) w, []).
Proof.
  intros C. unfold hub_sync, bind, get, modify. cbn.
  rewrite hub_steps_closed; [reflexivity|exact C].
Qed.

(** The drain of a closed queue, on a transport whose writes succeed. *)
Lemma writePump_drain_closed q : forall w,
  send w = mkChan q true -> net_ok w = true ->
  exists w',
    writePump_drain (length q) w =
      (Done tt, w',
       flat_map (fun x => [EvWrite newline None; EvRecv x true;
                           EvWrite x None]) q) /\
    send w' = mkChan [] true /\ net_ok w' = true /\ now w' = now w.
Proof.
  induction q as [|x q IH]; intros w S N.
  - exists w. cbn. auto.
  - cbn [length writePump_drain flat_map].
    set (wa := set_netTape (tl (netTape w)) w).
    assert (Na : net_ok wa = true) by (now apply (net_ok_tl w)).
    pose proof (recv_send_run wa) as R. cbv zeta in R.
    rewrite (hub_sync_closed wa) in R by (cbn; now rewrite S).
    cbn [world events fst snd send set_hubTape set_netTape wa] in R.
    rewrite S in R. cbn [buf closed app] in R.
    match type of R with _ = (_, ?x, _) => set (wb := x) in * end.
    set (wc := set_netTape (tl (netTape wb)) wb).
    destruct (IH wc) as (w' & D & S' & N' & C').
    { reflexivity. }
    { apply (net_ok_tl wa); [reflexivity|exact Na]. }
    exists w'. split; [|auto].
    eapply run_events_eq.
    + eapply bind_eq; [apply w_Write_run|].
      eapply bind_eq; [exact R|].
      eapply bind_eq; [apply w_Write_run|]. exact D.
    + rewrite (net_ok_hd w N).
      assert (Nb : net_ok wb = true) by exact Na.
      rewrite (net_ok_hd wb Nb). reflexivity.
Qed.

Lemma writePump_coalesce_closed q w :
  send w = mkChan q true -> net_ok w = true ->
  exists w',
    writePump_coalesce w =
      (Done tt, w',
       EvLen (length q) ::
       flat_map (fun x => [EvWrite newline None; EvRecv x true;
                           EvWrite x None]) q) /\
    send w' = mkChan [] true /\ net_ok w' = true /\ now w' = now w.
Proof.
  intros S N.
  set (w1 := set_hubTape (tl (hubTape w)) w).
  destruct (writePump_drain_closed q w1 S N) as (w' & D & S' & N' & C').
  exists w'. split; [|auto].
  unfold writePump_coalesce, len_send.
  eapply run_events_eq.
  - eapply bind_eq; [|exact D].
    eapply bind_eq; [apply hub_sync_closed; now rewrite S|].
    fold w1. unfold bind, get, emit, ret. cbn [fst snd].
    change (send w1) with (send w). rewrite S. reflexivity.
  - reflexivity.
Qed.

(** X16.  When the hub has closed the queue with messages still in it,
    [writePump] does not drop them: on a transport whose writes succeed
    it writes all of them, in order, in one frame, then finds the queue
    closed and empty, writes the close message, stops its ticker and
    closes the connection. *)
Theorem closed_queue_is_emptied_before_close_message
        (m : list byte) (rest : list (list byte))
        (t1 t2 : time.Time) (more : list Wake) (w : World) :
  send w = mkChan (m :: rest) true -> net_ok w = true ->
  result (writePump (WakeSend t1 :: WakeSend t2 :: more) w) = Done tt /\
  events (writePump (WakeSend t1 :: WakeSend t2 :: more) w) =
    [EvNewTicker pingPeriod;
     EvRecv m true;
     EvSetWriteDeadline (time.Add (Z.max (now w) t1) writeWait);
     EvNextWriter websocket.TextMessage None;
     EvWrite m None;
     EvLen (length rest)] ++
    flat_map (fun x => [EvWrite newline None; EvRecv x true; EvWrite x None])
             rest ++
    [EvWriterClose None;
     EvRecv [] false;
     EvSetWriteDeadline (time.Add (Z.max (Z.max (now w) t1) t2) writeWait);
     EvWriteMessage websocket.CloseMessage [] None;
     EvTickerStop; EvConnClose].
Proof.
  intros S N.
  (* the first wake-up: the frame *)
  set (w0 := set_now (Z.max (now w) t1) w).
  pose proof (recv_send_run w0) as R1. cbv zeta in R1.
  rewrite (hub_sync_closed w0) in R1 by (cbn; now rewrite S).
  cbn [world events fst snd send set_hubTape set_now w0] in R1.
  rewrite S in R1. cbn [buf closed app] in R1.
  match type of R1 with _ = (_, ?x, _) => set (w1 := x) in * end.
  assert (N1 : net_ok w1 = true) by exact N.
  pose proof (writePump_message_run m w1) as M1. cbv zeta in M1.
  rewrite (net_ok_hd w1 N1) in M1.
  match type of M1 with context [writePump_coalesce ?x] => set (w3 := x) in * end.
  assert (N3 : net_ok w3 = true).
  { apply (net_ok_tl (set_netTape (tl (netTape w1)) w1)); [reflexivity|].
    now apply (net_ok_tl w1). }
  destruct (writePump_coalesce_closed rest w3 eq_refl N3)
    as (w4 & C & S4 & N4 & T4).
  rewrite C in M1. cbn [world events fst snd] in M1.
  rewrite (net_ok_hd w4 N4) in M1.
  assert (H1 : hd None (tl (netTape w1)) = None).
  { apply (net_ok_hd (set_netTape (tl (netTape w1)) w1)).
    now apply (net_ok_tl w1). }
  rewrite H1 in M1.
  (* the second wake-up: the close message *)
  set (w5 := set_netTape (tl (netTape w4)) w4) in *.
  assert (N5 : net_ok w5 = true) by (now apply (net_ok_tl w4)).
  set (w6 := set_now (Z.max (now w5) t2) w5).
  pose proof (recv_send_run w6) as R2. cbv zeta in R2.
  rewrite (hub_sync_closed w6) in R2 by (cbn; now rewrite S4).
  cbn [world events fst snd send set_hubTape set_now set_netTape w6 w5] in R2.
  rewrite S4 in R2. cbn [buf closed app] in R2.
  match type of R2 with _ = (_, ?x, _) => set (w7 := x) in * end.
  assert (N7 : net_ok w7 = true) by exact N5.
  assert (L : writePump_loop (WakeSend t1 :: WakeSend t2 :: more) w =
              (Done tt,
               set_netTape (tl (netTape w7))
                 (set_writeDeadline (Some (time.Add (now w7) writeWait)) w7),
               [EvRecv m true;
                EvSetWriteDeadline (time.Add (Z.max (now w) t1) writeWait);
                EvNextWriter websocket.TextMessage None;
                EvWrite m None;
                EvLen (length rest)] ++
               flat_map (fun x => [EvWrite newline None; EvRecv x true;
                                   EvWrite x None]) rest ++
               [EvWriterClose None;
                EvRecv [] false;
                EvSetWriteDeadline
                  (time.Add (Z.max (Z.max (now w) t1) t2) writeWait);
                EvWriteMessage websocket.CloseMessage [] None])).
  { cbn [writePump_loop]. eapply run_events_eq.
    - eapply bind_eq; [reflexivity|].
      eapply bind_eq; [exact R1|].
      eapply bind_eq; [exact M1|].
      eapply bind_eq; [reflexivity|].
      eapply bind_eq; [exact R2|].
      eapply bind_eq; [apply writePump_message_closed|reflexivity].
    - rewrite (net_ok_hd w7 N7).
      assert (E : now w7 = Z.max (Z.max (now w) t1) t2).
      { change (now w7) with (Z.max (now w4) t2). rewrite T4. reflexivity. }
      rewrite E. same_events. }
  rewrite writePump_run, L. cbn [result world events fst snd].
  split; [reflexivity|]. same_events.
Qed.

Lemma closed_queue_is_emptied_before_close_message_witness :
  send world_closed_two_queued =
    mkChan ([x61] :: [[x62]]) true /\
  net_ok world_closed_two_queued = true /\
  result (writePump (WakeSend 1 :: WakeSend 2 :: [])
            world_closed_two_queued) = Done tt /\
  events (writePump (WakeSend 1 :: WakeSend 2 :: [])
            world_closed_two_queued) =
    [EvNewTicker pingPeriod;
     EvRecv [x61] true;
     EvSetWriteDeadline (time.Add (Z.max 0 1) writeWait);
     EvNextWriter websocket.TextMessage None;
     EvWrite [x61] None;
     EvLen (length [[x62]])] ++
    flat_map (fun x => [EvWrite newline None; EvRecv x true; EvWrite x None])
             [[x62]] ++
    [EvWriterClose None;
     EvRecv [] false;
     EvSetWriteDeadline (time.Add (Z.max (Z.max 0 1) 2) writeWait);
     EvWriteMessage websocket.CloseMessage [] None;
     EvTickerStop; EvConnClose].
Proof.
  split; [reflexivity|]. split; [reflexivity|].
  apply (closed_queue_is_emptied_before_close_message
           [x61] [[x62]] 1 2 []
           world_closed_two_queued
           eq_refl eq_refl).
Defined.

(** * The read pump without pongs *)

(** Control frames that are not pongs: the deadline stays where it
    was and the clock does not pass it, however the frames are dealt
    with. *)
Lemma ReadMessage_control_without_pongs cs : forall w d,
  forallb (fun c => negb (is_pong (snd c))) cs = true ->
  readDeadline w = Some d -> now w <= d ->
  exists r w' evs,
    ReadMessage_control cs w = (Done r, w', evs) /\
    readDeadline w' = Some d /\ now w' <= d.
Proof.
  induction cs as [|[t f] cs IH]; intros w d H D N.
  - exists None, w, []. cbn. auto.
  - cbn [forallb snd] in H. apply andb_prop in H as [Hf H].
    destruct f as [a|a]; [|discriminate]. clear Hf.
    cbn [ReadMessage_control control_payload].
    destruct (Z.ltb_spec d t) as [X|X].
    + eexists _, _, _. split.
      * eapply bind_eq; [now apply (await_late t w d)|reflexivity].
      * cbn. split; [exact D|lia].
    + set (w1 := set_now (Z.max (now w) t) w).
      assert (N1 : now w1 <= d) by (cbn; lia).
      destruct (websocket.maxControlFramePayloadSize <?
                Z.of_nat (length a)) eqn:Big.
      { eexists _, _, _. split.
        - eapply bind_eq; [now apply (await_in_time t w d)|].
          cbv beta iota. reflexivity.
        - auto. }
      set (w2 := set_netTape (tl (netTape w1)) w1).
      destruct (hd None (netTape w1)) as [err|] eqn:E.
      * eexists _, _, _. split.
        -- eapply bind_eq; [now apply (await_in_time t w d)|].
           cbv beta iota.
           eapply bind_eq; [apply handlePing_run|].
           fold w1. rewrite E. reflexivity.
        -- auto.
      * destruct (IH w2 d H D N1) as (r & w' & evs & R & D' & N').
        eexists _, _, _. split.
        -- eapply bind_eq; [now apply (await_in_time t w d)|].
           cbv beta iota.
           eapply bind_eq; [apply handlePing_run|].
           fold w1. rewrite E. exact R.
        -- auto.
Qed.

(** One read with no pong before its last frame. *)
Lemma ReadMessage_without_pongs a w d :
  forallb (fun c => negb (is_pong (snd c))) (ctrl a) = true ->
  readDeadline w = Some d -> now w <= d ->
  exists r w' evs,
    ReadMessage a w = (Done r, w', evs) /\
    readDeadline w' = Some d /\ now w' <= d.
Proof.
  intros H D N. destruct a as [cs last]. cbn [ctrl] in H.
  destruct (ReadMessage_control_without_pongs cs w d H D N)
    as (r & w1 & e1 & R & D1 & N1).
  rewrite (ReadMessage_after_control _ last _ _ _ _ R).
  destruct r as [err|]; [eexists _, _, _; split; [reflexivity|auto]|].
  rewrite D1. cbv beta iota zeta.
  destruct last as [[t f]|].
  - destruct (Z.ltb_spec d t) as [Y|Y].
    + eexists _, _, _. split; [reflexivity|]. cbn. split; [exact D1|lia].
    + assert (Z.max (now w1) t <= d) by lia.
      destruct f as [mt payload|code|err];
        try destruct ((0 <? readLimit w1) && _);
        eexists _, _, _; (split; [reflexivity|]); cbn; auto.
  - eexists _, _, _. split; [reflexivity|]. cbn. split; [exact D1|lia].
Qed.

Lemma readPump_loop_without_pongs tape : forall w d,
  no_pongs tape = true -> readDeadline w = Some d -> now w <= d ->
  exists w' evs,
    readPump_loop tape w = (Done tt, w', evs) /\
    readDeadline w' = Some d /\ now w' <= d.
Proof.
  induction tape as [|a tape IH]; intros w d H D N; cbn [readPump_loop].
  - assert (R : ReadMessage_control [] w = (Done None, w, [])) by reflexivity.
    pose proof (ReadMessage_after_control _ None _ _ _ _ R) as E.
    rewrite D in E. eexists _, _. split.
    + eapply bind_eq; [exact E|apply readPump_body_err].
    + cbn. split; [exact D|lia].
  - cbn [no_pongs forallb] in H. apply andb_prop in H as [Ha H].
    destruct (ReadMessage_without_pongs a w d Ha D N)
      as ([m [err|]] & w1 & e1 & R & D1 & N1).
    + eexists _, _. split; [|eauto].
      eapply bind_eq; [exact R|apply readPump_body_err].
    + destruct (IH w1 d H D1 N1) as (w2 & e2 & R2 & D2 & N2).
      eexists _, _. split; [|eauto].
      eapply bind_eq; [exact R|]. unfold readPump_body.
      eapply bind_eq; [reflexivity|exact R2].
Qed.

(** X17.  Only pongs extend the read deadline.  When the peer sends no
    pong, whatever else it sends and however many messages [readPump]
    reads and broadcasts, the read deadline set at the start is the one
    in force to the end, and [readPump] has returned by then: no later
    than [pongWait] after its start. *)
Theorem without_pongs_the_read_deadline_stands
        (tape : list Arrival) (w : World) :
  no_pongs tape = true ->
  result (readPump tape w) = Done tt /\
  readDeadline (world (readPump tape w)) = Some (now w + pongWait) /\
  now (world (readPump tape w)) <= now w + pongWait.
Proof.
  intros H. rewrite readPump_unfold. cbv zeta.
  set (w0 := set_pongHandler _ _).
  destruct (readPump_loop_without_pongs tape w0 (now w + pongWait) H eq_refl)
    as (w' & evs & R & D & N).
  { change (now w0) with (now w). pose proof pongWait_pos. lia. }
  rewrite R. cbn [result world events fst snd]. auto.
Qed.

Lemma without_pongs_the_read_deadline_stands_witness :
  no_pongs [mkArrival [(1, Ping [])]
                      (Some (2, Data websocket.TextMessage [x61]));
            mkArrival [] (Some (61000000000,
                                Data websocket.TextMessage [x62]))] = true /\
  result (readPump
            [mkArrival [(1, Ping [])]
                       (Some (2, Data websocket.TextMessage [x61]));
             mkArrival [] (Some (61000000000,
                                 Data websocket.TextMessage [x62]))]
            world_idle) = Done tt /\
  readDeadline
    (world (readPump
              [mkArrival [(1, Ping [])]
                         (Some (2, Data websocket.TextMessage [x61]));
               mkArrival [] (Some (61000000000,
                                   Data websocket.TextMessage [x62]))]
              world_idle)) = Some (now world_idle + pongWait) /\
  now (world (readPump
                [mkArrival [(1, Ping [])]
                           (Some (2, Data websocket.TextMessage [x61]));
                 mkArrival [] (Some (61000000000,
                                     Data websocket.TextMessage [x62]))]
                world_idle)) <= now world_idle + pongWait.
Proof.
  split; [reflexivity|].
  apply (without_pongs_the_read_deadline_stands
           [mkArrival [(1, Ping [])]
                      (Some (2, Data websocket.TextMessage [x61]));
            mkArrival [] (Some (61000000000,
                                Data websocket.TextMessage [x62]))]
           world_idle eq_refl).
Defined.

(** * The write pump: from the queue to the connection *)

(** X4.  No message of the queue is lost by [writePump], written twice
    or overtaken: at any point of a run, the messages that were queued
    at the start followed by those the hub has added are the messages
    the pump has written as payloads, in that order, followed by those
    still queued.  The one exception is the message in hand when
    [NextWriter] fails: it has left the queue and is not written. *)
Theorem queued_messages_are_written_in_order
        (wakes : list Wake) (w : World) :
  exists lost,
    buf (send w) ++ hub_sends (events (writePump wakes w)) =
      payloads false (events (writePump wakes w)) ++ lost ++
      buf (send (world (writePump wakes w))) /\
    (lost = [] \/
     exists pre m d e,
       lost = [m] /\
       events (writePump wakes w) =
         pre ++ [EvRecv m true; EvSetWriteDeadline d;
                 EvNextWriter websocket.TextMessage (Some e);
                 EvTickerStop; EvConnClose]).
Proof.
  destruct (writePump_loop_queue wakes w)
    as (B & _ & (lost & P & X) & _).
  cbv zeta in B, P, X. rewrite P, <- app_assoc in B.
  exists lost. rewrite writePump_run.
  destruct (result (writePump_loop wakes w)) as [[]|] eqn:R;
    cbn [result world events fst snd].
  - destruct (payloads_tail (events (writePump_loop wakes w)) false)
      as (Pt & _).
    cbn [payloads]. rewrite Pt.
    change (hub_sends (EvNewTicker pingPeriod :: ?x)) with (hub_sends x).
    rewrite hub_sends_app. cbn [hub_sends flat_map app]. rewrite app_nil_r.
    split; [exact B|].
    destruct X as [->|(pre & m & d & e & -> & _ & E)]; [now left|right].
    exists (EvNewTicker pingPeriod :: pre), m, d, e.
    split; [reflexivity|]. rewrite E. cbn [app]. now rewrite <- app_assoc.
  - split; [exact B|].
    destruct X as [->|(pre & m & d & e & -> & X & E)]; [now left|].
    congruence.
Qed.

(** * The write pump: the size of a frame *)

Lemma coalesce_count w :
  lens (events (writePump_coalesce w)) =
    [length (received (events (writePump_coalesce w)))].
Proof.
  pose proof (hub_sync_run w) as H.
  destruct (hub_sync_facts w) as (_ & Q & _).
  set (h := hub_sync w) in *. set (w1 := world h) in *.
  destruct (writePump_drain_run (buf (send w1)) [] w1 (eq_sym (app_nil_r _)))
    as (w' & evs & D & _ & Rc & Ln & _).
  destruct (hub_events_unseen _ Q) as (Rh & Lh & _).
  assert (C : writePump_coalesce w =
              (Done tt, w',
               (events h ++ [EvLen (length (buf (send w1)))]) ++ evs)).
  { unfold writePump_coalesce, len_send.
    eapply bind_eq; [|exact D].
    eapply bind_eq; [exact H|]. reflexivity. }
  rewrite C. cbn [events snd].
  rewrite !lens_app, !received_app, Rh, Lh, Rc, Ln. reflexivity.
Qed.

Lemma frame_sizes_hub a : forall o rest,
  forallb hub_event a = true ->
  frame_sizes o (a ++ rest) = frame_sizes o rest.
Proof.
  induction a as [|e a IH]; intros o rest H; [reflexivity|].
  cbn [forallb] in H. apply andb_prop in H as [He H].
  destruct e; try discriminate; cbn [app frame_sizes]; now apply IH.
Qed.

Lemma frame_sizes_drain a : forall k rest,
  forallb drain_event a = true ->
  frame_sizes (Some k) (a ++ rest) =
    frame_sizes (Some (length (received a) + k)%nat) rest.
Proof.
  induction a as [|e a IH]; intros k rest H; [reflexivity|].
  cbn [forallb] in H. apply andb_prop in H as [He H].
  destruct e as [| | | | | | | | | | | | | | | | | | | ? [|] | |];
    try discriminate; cbn [app frame_sizes option_map];
    rewrite (IH _ _ H); try reflexivity.
  change (received (EvRecv message true :: a)) with (message :: received a).
  cbn [length]. f_equal. f_equal. lia.
Qed.

Lemma frame_sizes_tail evs : forall o,
  frame_sizes o (evs ++ [EvTickerStop; EvConnClose]) = frame_sizes o evs.
Proof.
  induction evs as [|e evs IH]; intros o; [reflexivity|].
  destruct e as [| | | | | | | | | | | | | | | ? [?|] | | | | ? [|] | |];
    cbn [app frame_sizes]; rewrite ?IH; reflexivity.
Qed.

Lemma writePump_loop_frames wakes : forall w,
  (length (buf (send w)) <= sendCap)%nat ->
  Forall (fun n => (n <= S sendCap)%nat)
         (frame_sizes None (events (writePump_loop wakes w))).
Proof.
  loop_step wakes IH w; intros Hc.
  - constructor.
  - destruct (hub_sync_facts (set_now (Z.max (now w) t) w))
      as (_ & Q & _ & _ & L).
    set (h := hub_sync _) in *. set (w1 := world h) in *.
    specialize (L Hc).
    destruct (buf (send w1)) as [|m rest].
    + destruct (closed (send w1)); cbn [events snd].
      * rewrite (frame_sizes_hub _ _ _ Q). constructor.
      * rewrite <- (app_nil_r (events h)), (frame_sizes_hub _ _ _ Q).
        constructor.
    + cbn [length] in L.
      destruct (hd None (netTape w1)) as [e|]; cbn [events snd].
      * rewrite (frame_sizes_hub _ _ _ Q). constructor.
      * set (w3 := set_netTape _ _).
        pose proof (coalesce_count w3) as Cn.
        destruct (coalesce_run w3) as (w4 & cev & C & Dr & _ & _ & _ & Lc & _).
        rewrite C in Cn |- *. cbn [world events fst snd] in Cn |- *.
        destruct Lc as (L4 & Ln); [change (buf (send w3)) with rest; lia|].
        rewrite Cn in Ln. inversion Ln as [|n ns Hn _]; subst.
        destruct (hd None (netTape w4)) as [e|]; cbn [events snd];
          rewrite <- ?app_assoc, (frame_sizes_hub _ _ _ Q);
          cbn [app frame_sizes option_map];
          rewrite (frame_sizes_drain _ _ _ Dr); cbn [app frame_sizes].
        -- constructor; [lia|constructor].
        -- constructor; [lia|]. now apply IH.
  - destruct (hd None (netTape w)) as [e|]; cbn [events snd app frame_sizes].
    + constructor.
    + now apply IH.
Qed.

(** X6.  A frame carries at most 257 messages.  The queue [c.send]
    has room for 256 messages (line 132), and [writePump] takes
    [len(c.send)] once, before it drains (line 107): the message in
    hand and at most 256 more go into one message writer, however fast
    the hub refills the queue meanwhile. *)
Theorem frame_carries_at_most_257_messages (wakes : list Wake) (w : World) :
  (length (buf (send w)) <= sendCap)%nat ->
  Forall (fun n => (n <= S sendCap)%nat)
         (frame_sizes None (events (writePump wakes w))) /\
  S sendCap = 257%nat.
Proof.
  intros Hc. split; [|reflexivity].
  pose proof (writePump_loop_frames wakes w Hc) as F.
  rewrite writePump_run.
  destruct (result (writePump_loop wakes w)) as [[]|];
    cbn [events snd frame_sizes]; [|exact F].
  now rewrite frame_sizes_tail.
Qed.

Lemma frame_carries_at_most_257_messages_witness :
  (length (buf (send world_two_queued)) <= sendCap)%nat /\
  Forall (fun n => (n <= S sendCap)%nat)
         (frame_sizes None (events (writePump [WakeSend 1] world_two_queued))) /\
  S sendCap = 257%nat.
Proof.
  assert (H : (length (buf (send world_two_queued)) <= sendCap)%nat)
    by (apply Nat.leb_le; reflexivity).
  split; [exact H|].
  apply (frame_carries_at_most_257_messages [WakeSend 1] world_two_queued H).
Defined.
